(** * Crossword generation as a constraint satisfaction problem

    A shallow embedding of [CrosswordCreator] (Week 3 Optimization,
    crossword/generate.py): node consistency, AC-3 arc consistency and
    backtracking search, together with the properties the design
    document states about them.

    Conventions of the embedding.
    - A Python [dict] is an association list in insertion order
      ([dict_get], [dict_set], [dict_del]); iteration visits the entries
      front to back.
    - A Python [set] is the list of its elements in enumeration order;
      the theorems quantify over every such list, hence over every
      enumeration order.  Removing an element keeps the order of the
      others.
    - A Python exception is the result [Raise e]; a method of
      [CrosswordCreator] is a computation in the monad [M], whose state is
      [self.domains].
    - The two unbounded loops ([while queue] in [ac3], the recursion of
      [backtrack]) run on fuel computed from the domain store; the result
      [OutOfFuel] is shown unreachable. *)

From Stdlib Require Import String Ascii List Arith Bool Lia Permutation Sorted.
Import ListNotations.

(** ** Results and exceptions *)

Inductive exn : Type := KeyError | IndexError.

Inductive res (A : Type) : Type :=
| Ok (a : A)
| Raise (e : exn)
| OutOfFuel.

Arguments Ok {A} a.
Arguments Raise {A} e.
Arguments OutOfFuel {A}.

Definition bindR {A B} (r : res A) (k : A -> res B) : res B :=
  match r with
  | Ok a => k a
  | Raise e => Raise e
  | OutOfFuel => OutOfFuel
  end.

Notation "x <~ e ;; k" := (bindR e (fun x => k))
  (at level 61, e at next level, right associativity).

(** ** Decidable equality on keys *)

Class EqDec (A : Type) := eq_dec : forall a b : A, {a = b} + {a <> b}.

Definition eqb {A} `{EqDec A} (a b : A) : bool :=
  if eq_dec a b then true else false.

#[export] Instance string_EqDec : EqDec string := string_dec.

#[export] Instance pair_EqDec {A B} `{EqDec A} `{EqDec B} : EqDec (A * B).
Proof. intros [a b] [a' b']. destruct (eq_dec a a'), (eq_dec b b'); (left; congruence) || (right; congruence). Defined.

(** ** Python dictionaries *)

Section Dict.
Context {K V : Type} `{EqDec K}.

Definition dict := list (K * V).

Fixpoint dict_get (k : K) (m : dict) : option V :=
  match m with
  | [] => None
  | (k', v) :: m' => if eq_dec k k' then Some v else dict_get k m'
  end.

(** [k in m] *)
Definition dict_mem (k : K) (m : dict) : bool :=
  match dict_get k m with Some _ => true | None => false end.

(** [m[k]], raising [KeyError] on a missing key *)
Definition dict_lookup (k : K) (m : dict) : res V :=
  match dict_get k m with Some v => Ok v | None => Raise KeyError end.

(** [m[k] = v]: an existing key keeps its position, a new key goes last *)
Fixpoint dict_set (k : K) (v : V) (m : dict) : dict :=
  match m with
  | [] => [(k, v)]
  | (k', v') :: m' =>
      if eq_dec k k' then (k, v) :: m' else (k', v') :: dict_set k v m'
  end.

(** [del m[k]], raising [KeyError] on a missing key *)
Fixpoint dict_del (k : K) (m : dict) : res dict :=
  match m with
  | [] => Raise KeyError
  | (k', v') :: m' =>
      if eq_dec k k' then Ok m'
      else m'' <~ dict_del k m' ;; Ok ((k', v') :: m'')
  end.

Definition dict_keys (m : dict) : list K := map fst m.
Definition dict_values (m : dict) : list V := map snd m.
End Dict.

Arguments dict K V : clear implicits.

(** ** Strings and lists *)

(** [w[i]] for a non-negative index *)
Definition str_index (w : string) (i : nat) : res ascii :=
  match String.get i w with Some c => Ok c | None => Raise IndexError end.

(** [l[i]] for a non-negative index *)
Definition list_index {A} (l : list A) (i : nat) : res A :=
  match nth_error l i with Some a => Ok a | None => Raise IndexError end.

(** [s.remove(v)] on the enumeration of a set.  The source removes a
    word only while it iterates over a copy of the same set, so the word
    is there and the [KeyError] of [remove] cannot arise. *)
Definition set_remove (v : string) (s : list string) : list string :=
  filter (fun w => negb (eqb w v)) s.

(** [list.sort] is stable; [leb a b] says that [a] may stay in front of
    [b].  With [leb a b := key a <=? key b] this is [sort(key=key)], with
    [leb a b := key b <=? key a] it is [sort(key=key, reverse=True)]. *)
Section Sort.
Context {A : Type} (leb : A -> A -> bool).

Fixpoint insert_by (a : A) (l : list A) : list A :=
  match l with
  | [] => [a]
  | b :: l' => if leb a b then a :: b :: l' else b :: insert_by a l'
  end.

Fixpoint sort_by (l : list A) : list A :=
  match l with
  | [] => []
  | a :: l' => insert_by a (sort_by l')
  end.
End Sort.

(** ** The puzzle model *)

Inductive Direction : Type := ACROSS | DOWN.

(** Modelled from the spec: the class [Variable] of crossword.py, which
    is not among the sources (section 3, "Slot": starting row, starting
    column, direction, length; two slots are equal iff all four agree).
    [Variable] is a command of the proof assistant, hence [Var]. *)
Record Var : Type := mkVar {
  var_i : nat;
  var_j : nat;
  var_direction : Direction;
  var_length : nat
}.

#[export] Instance Var_EqDec : EqDec Var.
Proof. intros a b. unfold EqDec in *. decide equality; try apply Nat.eq_dec. decide equality. Defined.

Definition Arc : Type := Var * Var.

(** Modelled from the spec: the class [Crossword] of crossword.py, which
    is not among the sources; these are the attributes the solver reads
    (section 3, "Puzzle Model").  [variables] and [words] are sets,
    [overlaps] is the dictionary from ordered pairs of slots to [None] or
    a pair of indices. *)
Record Crossword : Type := mkCrossword {
  variables : list Var;
  words : list string;
  overlaps : dict Arc (option (nat * nat))
}.

Definition Domains : Type := dict Var (list string).
Definition Assignment : Type := dict Var string.

(** Modelled from the spec: [Crossword.neighbors] is defined in
    crossword.py, which is not among the sources.  Section 3: "for a
    slot, the set of other slots with a defined (non-null) overlap". *)
Definition neighbors (crossword : Crossword) (var : Var) : list Var :=
  filter
    (fun v =>
       negb (eqb v var) &&
       match dict_get (v, var) (overlaps crossword) with
       | Some (Some _) => true
       | _ => false
       end)
    (variables crossword).

(** ** The monad of [CrosswordCreator] methods: state [self.domains] *)

Definition M (A : Type) : Type := Domains -> res (A * Domains).

Definition ret {A} (a : A) : M A := fun d => Ok (a, d).

Definition bind {A B} (m : M A) (k : A -> M B) : M B :=
  fun d =>
    match m d with
    | Ok (a, d') => k a d'
    | Raise e => Raise e
    | OutOfFuel => OutOfFuel
    end.

Notation "x <- e ;; k" := (bind e (fun x => k))
  (at level 61, e at next level, right associativity).
Notation "e ;;; k" := (bind e (fun _ => k))
  (at level 61, right associativity).

Definition lift {A} (r : res A) : M A :=
  fun d => match r with Ok a => Ok (a, d) | Raise e => Raise e | OutOfFuel => OutOfFuel end.

Definition out_of_fuel {A} : M A := fun _ => OutOfFuel.

(** [self.domains] *)
Definition get_domains : M Domains := fun d => Ok (d, d).

(** [self.domains[var]] *)
Definition domains_get (var : Var) : M (list string) :=
  fun d => match dict_get var d with Some s => Ok (s, d) | None => Raise KeyError end.

(** [self.domains[var].remove(value)] *)
Definition domains_remove (var : Var) (value : string) : M unit :=
  fun d =>
    match dict_get var d with
    | Some s => Ok (tt, dict_set var (set_remove value s) d)
    | None => Raise KeyError
    end.

Fixpoint forM_ {A} (l : list A) (body : A -> M unit) : M unit :=
  match l with
  | [] => ret tt
  | a :: l' => body a ;;; forM_ l' body
  end.

Fixpoint foldM {A B} (body : B -> A -> M B) (l : list A) (b : B) : M B :=
  match l with
  | [] => ret b
  | a :: l' => b' <- body b a ;; foldM body l' b'
  end.

Fixpoint mapM {A B} (f : A -> M B) (l : list A) : M (list B) :=
  match l with
  | [] => ret []
  | a :: l' => b <- f a ;; bs <- mapM f l' ;; ret (b :: bs)
  end.

Fixpoint filterM {A} (f : A -> M bool) (l : list A) : M (list A) :=
  match l with
  | [] => ret []
  | a :: l' => b <- f a ;; r <- filterM f l' ;; ret (if b then a :: r else r)
  end.

(** ** [CrosswordCreator] *)

Section CrosswordCreator.

Variable crossword : Crossword.

(** [__init__]: every slot starts with a copy of the vocabulary *)
Definition init_domains : Domains :=
  fold_left (fun d var => dict_set var (words crossword) d)
            (variables crossword) [].

(** The inner loop of [enforce_node_consistency], over a copy of the
    domain of [var] *)
Definition enforce_node_consistency_var (var : Var) : M unit :=
  let length := var_length var in
  domain <- domains_get var ;;
  forM_ domain (fun value =>
    if negb (String.length value =? length)
    then domains_remove var value
    else ret tt).

Definition enforce_node_consistency : M unit :=
  domains <- get_domains ;;
  forM_ (dict_keys domains) enforce_node_consistency_var.

(** [any(value_x[i] == value_y[j] for value_y in domain_y)]: stops at
    the first match *)
Fixpoint has_corresponding_value
    (value_x : string) (i j : nat) (domain_y : list string) : res bool :=
  match domain_y with
  | [] => Ok false
  | value_y :: rest =>
      a <~ str_index value_x i ;;
      b <~ str_index value_y j ;;
      if Ascii.eqb a b then Ok true
      else has_corresponding_value value_x i j rest
  end.

(** One turn of the loop of [revise]; [revised] is the flag *)
Definition revise_step (x y : Var) (i j : nat)
    (revised : bool) (value_x : string) : M bool :=
  domain_y <- domains_get y ;;
  has <- lift (has_corresponding_value value_x i j domain_y) ;;
  if negb has
  then domains_remove x value_x ;;; ret true
  else ret revised.

Definition revise (x y : Var) : M bool :=
  overlap <- lift (dict_lookup (x, y) (overlaps crossword)) ;;
  match overlap with
  | Some (i, j) =>
      domain_x <- domains_get x ;;
      foldM (revise_step x y i j) domain_x false
  | None => ret false
  end.

(** The [while queue] loop of [ac3] *)
Fixpoint ac3_loop (fuel : nat) (queue : list Arc) : M bool :=
  match queue with
  | [] => ret true
  | (x, y) :: queue' =>
      match fuel with
      | O => out_of_fuel
      | S fuel' =>
          revised <- revise x y ;;
          if revised then
            domain_x <- domains_get x ;;
            if List.length domain_x =? 0 then ret false
            else
              ac3_loop fuel'
                (queue' ++
                 map (fun z => (z, x))
                     (filter (fun z => negb (eqb z y))
                             (neighbors crossword x)))
          else ac3_loop fuel' queue'
      end
  end.

(** Total number of candidate words in the store *)
Definition domains_size (d : Domains) : nat :=
  list_sum (map (fun e => List.length (snd e)) d).

(** A bound on the number of turns of the loop of [ac3]: every turn
    either shortens the queue or removes a word and adds at most one arc
    per slot. *)
Definition ac3_fuel (queue : list Arc) (d : Domains) : nat :=
  List.length queue + domains_size d * List.length (variables crossword).

Definition ac3 (arcs : option (list Arc)) : M bool :=
  let queue :=
    match arcs with
    | None => dict_keys (overlaps crossword)
    | Some arcs => arcs
    end in
  domains <- get_domains ;;
  ac3_loop (ac3_fuel queue domains) queue.

Definition assignment_complete (assignment : Assignment) : M bool :=
  ret (forallb (fun variable => dict_mem variable assignment)
               (variables crossword)).

(** The inner loop of [consistent]: [Ok false] is the early
    [return False] *)
Fixpoint consistent_inner (variable1 : Var) (word1 : string)
    (items : list (Var * string)) : res bool :=
  match items with
  | [] => Ok true
  | (variable2, word2) :: rest =>
      if negb (eqb variable1 variable2) then
        overlap <~ dict_lookup (variable1, variable2) (overlaps crossword) ;;
        match overlap with
        | Some (i, j) =>
            a <~ str_index word1 i ;;
            b <~ str_index word2 j ;;
            if negb (Ascii.eqb a b) then Ok false
            else consistent_inner variable1 word1 rest
        | None => consistent_inner variable1 word1 rest
        end
      else consistent_inner variable1 word1 rest
  end.

Fixpoint consistent_outer (items1 items : list (Var * string)) : res bool :=
  match items1 with
  | [] => Ok true
  | (variable1, word1) :: rest =>
      ok <~ consistent_inner variable1 word1 items ;;
      if ok then consistent_outer rest items else Ok false
  end.

Definition consistent (assignment : Assignment) : M bool :=
  let values := nodup string_dec (dict_values assignment) in
  if negb (List.length values =? List.length assignment) then ret false
  else lift (consistent_outer assignment assignment).

(** The count of one candidate in [order_domain_values] *)
Definition count_step (var : Var) (assignment : Assignment) (value : string)
    (count : nat) (neighbor : Var) : M nat :=
  if negb (dict_mem neighbor assignment) then
    overlap <- lift (dict_lookup (var, neighbor) (overlaps crossword)) ;;
    match overlap with
    | Some _ =>
        domain_n <- domains_get neighbor ;;
        ret (count + List.length (filter (fun val => negb (eqb val value)) domain_n))
    | None => ret count
    end
  else ret count.

Definition order_domain_values (var : Var) (assignment : Assignment)
    : M (list string) :=
  domain <- domains_get var ;;
  count_values <-
    mapM (fun value =>
            count <- foldM (count_step var assignment value)
                           (neighbors crossword var) 0 ;;
            ret (value, count))
         domain ;;
  ret (map fst (sort_by (fun a b => snd a <=? snd b) count_values)).

Definition select_unassigned_variable (assignment : Assignment) : M Var :=
  domains <- get_domains ;;
  let unassigned_variables :=
    filter (fun var => negb (dict_mem var assignment)) (dict_keys domains) in
  keyed <- mapM (fun var => dv <- domains_get var ;; ret (var, List.length dv))
                unassigned_variables ;;
  let unassigned_variables :=
    map fst (sort_by (fun a b => snd a <=? snd b) keyed) in
  first <- lift (list_index unassigned_variables 0) ;;
  domain_first <- domains_get first ;;
  let min_remaining_values := List.length domain_first in
  tied_variables <-
    filterM (fun var => dv <- domains_get var ;;
                        ret (List.length dv =? min_remaining_values))
            unassigned_variables ;;
  if List.length tied_variables =? 1 then lift (list_index tied_variables 0)
  else
    let degree := fun var => List.length (neighbors crossword var) in
    let tied_variables :=
      sort_by (fun a b => degree b <=? degree a) tied_variables in
    lift (list_index tied_variables 0).

(** The [for value in ...] loop of [backtrack]; [rec] is the recursive
    call.  The result pairs the assignment object as the call leaves it
    with the returned value ([None] or the assignment itself). *)
Fixpoint backtrack_loop
    (rec : Assignment -> M (Assignment * option Assignment))
    (var : Var) (values : list string) (assignment : Assignment)
    : M (Assignment * option Assignment) :=
  match values with
  | [] => ret (assignment, None)
  | value :: rest =>
      let assignment := dict_set var value assignment in
      ok <- consistent assignment ;;
      r <- (if ok then rec assignment else ret (assignment, None)) ;;
      match r with
      | (assignment, Some result) => ret (assignment, Some result)
      | (assignment, None) =>
          assignment <- lift (dict_del var assignment) ;;
          backtrack_loop rec var rest assignment
      end
  end.

Fixpoint backtrack_fuel (fuel : nat) (assignment : Assignment)
    : M (Assignment * option Assignment) :=
  match fuel with
  | O => out_of_fuel
  | S fuel' =>
      complete <- assignment_complete assignment ;;
      if complete then ret (assignment, Some assignment)
      else
        var <- select_unassigned_variable assignment ;;
        values <- order_domain_values var assignment ;;
        backtrack_loop (backtrack_fuel fuel') var values assignment
  end.

(** Every nested call assigns one more key of [self.domains], so the
    depth is at most the number of keys plus one. *)
Definition backtrack (assignment : Assignment)
    : M (Assignment * option Assignment) :=
  domains <- get_domains ;;
  backtrack_fuel (S (List.length (dict_keys domains))) assignment.

Definition solve : M (option Assignment) :=
  enforce_node_consistency ;;;
  ac3 None ;;;
  r <- backtrack [] ;;
  ret (snd r).

End CrosswordCreator.

(** [CrosswordCreator(crossword).solve()] *)
Definition generate (crossword : Crossword) : res (option Assignment) :=
  r <~ solve crossword (init_domains crossword) ;; Ok (fst r).

(** ** Notions used in the statements *)

Definition remove_all (bad : list string) (s : list string) : list string :=
  filter (fun w => negb (existsb (eqb w) bad)) s.

Definition fits (var : Var) (w : string) : bool :=
  String.length w =? var_length var.

(** The domain of [var] after node consistency has visited the keys [ks] *)
Definition node_consistent_upto (ks : list Var) (d : Domains) (var : Var)
    : option (list string) :=
  if in_dec eq_dec var ks
  then option_map (filter (fits var)) (dict_get var d)
  else dict_get var d.

(** [shrunk d' d]: the stores have the same slots and every domain of
    [d'] is a subset of the domain it had in [d]. *)
Definition shrunk (d' d : Domains) : Prop :=
  forall var,
    match dict_get var d', dict_get var d with
    | Some s', Some s => incl s' s
    | None, None => True
    | _, _ => False
    end.

(** A computation that only ever removes words *)
Definition shrinking {A} (m : M A) : Prop :=
  forall d a d', m d = Ok (a, d') -> shrunk d' d.

(** A computation that leaves [self.domains] as it found it *)
Definition readonly {A} (m : M A) : Prop :=
  forall d a d', m d = Ok (a, d') -> d' = d.


(** The domain of a slot, empty for a slot the store does not have *)
Definition dom (d : Domains) (var : Var) : list string :=
  match dict_get var d with Some s => s | None => [] end.

(** [value_x] survives [revise(x, y)] when [domain_y] is the domain of
    [y] and the overlap is [(i, j)] *)
Definition supported (i j : nat) (domain_y : list string) (value_x : string)
    : bool :=
  match has_corresponding_value value_x i j domain_y with
  | Ok true => true
  | _ => false
  end.

(** The arc [(x, y)] with overlap [(i, j)] is consistent in [d]: both
    slots are in the store as far as [revise] looks them up, and the test
    of [revise] finds a partner for every word of [x]. *)
Definition arc_consistent (d : Domains) (x y : Var) (i j : nat) : Prop :=
  dict_get x d <> None /\
  forall value_x,
    In value_x (dom d x) ->
    dict_get y d <> None /\
    has_corresponding_value value_x i j (dom d y) = Ok true.

Definition overlap_defined (crossword : Crossword) (x y : Var) : bool :=
  match dict_get (x, y) (overlaps crossword) with
  | Some (Some _) => true
  | _ => false
  end.

(** The count that orders the candidates of [var], in the words of the
    design document: the sum, over the unassigned neighbours of [var]
    with a defined overlap, of the number of words of the neighbour's
    domain that are not equal to the candidate. *)
Definition rule_out_count (crossword : Crossword) (d : Domains)
    (assignment : Assignment) (var : Var) (value : string) : nat :=
  list_sum
    (map (fun neighbor =>
            List.length
              (filter (fun val => negb (eqb val value)) (dom d neighbor)))
         (filter (fun neighbor =>
                    negb (dict_mem neighbor assignment) &&
                    overlap_defined crossword var neighbor)
                 (neighbors crossword var))).

(** An assignment is consistent (section 3): the assigned words are
    pairwise distinct, and two assigned slots with a defined overlap
    [(i, j)] carry the same character there. *)
Definition assignment_consistent (crossword : Crossword) (a : Assignment)
    : Prop :=
  (forall v1 v2 w1 w2,
      v1 <> v2 -> dict_get v1 a = Some w1 -> dict_get v2 a = Some w2 ->
      w1 <> w2) /\
  (forall v1 v2 w1 w2 i j,
      v1 <> v2 -> dict_get v1 a = Some w1 -> dict_get v2 a = Some w2 ->
      dict_get (v1, v2) (overlaps crossword) = Some (Some (i, j)) ->
      exists c, String.get i w1 = Some c /\ String.get j w2 = Some c).

(** An assignment is complete when it assigns every slot of the puzzle. *)
Definition assignment_total (crossword : Crossword) (a : Assignment) : Prop :=
  forall v, In v (variables crossword) -> exists w, dict_get v a = Some w.

(** What a call [backtrack(a)] guarantees when it returns [r], the
    assignment object as it is left paired with the value returned: on
    [None] the object is as at entry; a returned assignment is the object
    itself, it is complete, and it is consistent if the call started
    from a consistent assignment. *)
Definition backtrack_post (crossword : Crossword) (a : Assignment)
    (r : Assignment * option Assignment) : Prop :=
  match snd r with
  | None => fst r = a
  | Some result =>
      result = fst r /\
      assignment_total crossword result /\
      (assignment_consistent crossword a ->
       assignment_consistent crossword result)
  end.

(** The rest of the contract of the puzzle model (section 3): the keys
    of [overlaps] are pairs of slots of the puzzle, a defined overlap
    relates two distinct slots, every ordered pair of distinct slots is a
    key, and the indices of an overlap are positions within the two
    slots. *)
Definition overlaps_between_slots (crossword : Crossword) : bool :=
  forallb
    (fun entry =>
       match entry with
       | ((x, y), o) =>
           existsb (eqb x) (variables crossword) &&
           existsb (eqb y) (variables crossword) &&
           match o with Some _ => negb (eqb x y) | None => true end
       end)
    (overlaps crossword).

Definition overlaps_total (crossword : Crossword) : bool :=
  forallb
    (fun x =>
       forallb (fun y => eqb x y || dict_mem (x, y) (overlaps crossword))
               (variables crossword))
    (variables crossword).

Definition overlaps_in_range (crossword : Crossword) : bool :=
  forallb
    (fun entry =>
       match entry with
       | ((x, y), Some (i, j)) => (i <? var_length x) && (j <? var_length y)
       | (_, None) => true
       end)
    (overlaps crossword).

Definition puzzle_well_formed (crossword : Crossword) : bool :=
  overlaps_between_slots crossword &&
  overlaps_total crossword &&
  overlaps_in_range crossword.

(** A solution of the puzzle (section 1): a consistent assignment that
    gives every slot a word of the vocabulary of the slot's length. *)
Definition solution (crossword : Crossword) (s : Assignment) : Prop :=
  (forall v,
      In v (variables crossword) ->
      exists w,
        dict_get v s = Some w /\ In w (words crossword) /\
        String.length w = var_length v) /\
  assignment_consistent crossword s.

(** The store has a domain for exactly the slots of the puzzle, of
    vocabulary words of the right length. *)
Definition store_ok (crossword : Crossword) (d : Domains) : Prop :=
  (forall v, dict_get v d <> None <-> In v (variables crossword)) /\
  (forall v w,
      In w (dom d v) ->
      String.length w = var_length v /\ In w (words crossword)).

(** The store still has every word of the solution [s]. *)
Definition keeps (crossword : Crossword) (d : Domains) (s : Assignment)
    : Prop :=
  forall v w,
    In v (variables crossword) -> dict_get v s = Some w -> In w (dom d v).

(** The assignments the search builds: distinct slots of the puzzle,
    each with a word of its domain. *)
Definition assign_ok (crossword : Crossword) (d : Domains) (a : Assignment)
    : Prop :=
  NoDup (dict_keys a) /\
  forall v w, In (v, w) a -> In v (variables crossword) /\ In w (dom d v).

(** [a] is a part of [s] *)
Definition part_of (a s : Assignment) : Prop :=
  forall v w, In (v, w) a -> dict_get v s = Some w.

(** The number of slots of the store that [a] leaves unassigned: it
    bounds the depth of [backtrack]. *)
Definition unassigned_count (d : Domains) (a : Assignment) : nat :=
  List.length (filter (fun v => negb (dict_mem v a)) (dict_keys d)).

(** What the search guarantees on a well-formed store, beyond
    [backtrack_post]: the call returns and leaves the store alone, a
    returned assignment takes its words from the domains, and the call
    does not fail on a part of a solution that the store still has. *)
Definition search_ok (crossword : Crossword) (d : Domains) (a : Assignment)
    (m : M (Assignment * option Assignment)) : Prop :=
  exists r,
    m d = Ok (r, d) /\
    backtrack_post crossword a r /\
    (forall result, snd r = Some result -> assign_ok crossword d result) /\
    (forall s, solution crossword s -> keeps crossword d s ->
               part_of a s -> snd r <> None).

(** A computation that never runs out of fuel, and never adds a word *)
Definition runs {A} (m : M A) : Prop :=
  forall d,
    match m d with
    | Ok (_, d') => domains_size d' <= domains_size d
    | Raise _ => True
    | OutOfFuel => False
    end.

(** The contract of the puzzle model on defined overlaps (section 3 of
    the design document): an overlap relates two distinct slots of the
    puzzle and is symmetric. *)
Definition overlaps_symmetric (crossword : Crossword) : bool :=
  forallb
    (fun entry =>
       match entry with
       | ((x, y), Some (i, j)) =>
           negb (eqb x y) &&
           existsb (eqb x) (variables crossword) &&
           existsb (eqb y) (variables crossword) &&
           match dict_get (y, x) (overlaps crossword) with
           | Some (Some (j', i')) => (i =? i') && (j =? j')
           | _ => false
           end
       | (_, None) => true
       end)
    (overlaps crossword).

(** The calls that write [self.domains] *)
Inductive propagation_call : Type :=
| Call_enforce_node_consistency
| Call_revise (x y : Var)
| Call_ac3 (arcs : option (list Arc)).

Definition run_call (crossword : Crossword) (c : propagation_call) : M unit :=
  match c with
  | Call_enforce_node_consistency => enforce_node_consistency
  | Call_revise x y => revise crossword x y ;;; ret tt
  | Call_ac3 arcs => ac3 crossword arcs ;;; ret tt
  end.

Definition run_calls (crossword : Crossword) (cs : list propagation_call)
    : M unit :=
  forM_ cs (run_call crossword).

(** ** A puzzle to run the model on

    Two crossing slots of length 3: the second letter of the horizontal
    word is the first letter of the vertical one. *)
Module Example.

Definition across : Var := mkVar 1 0 ACROSS 3.
Definition down : Var := mkVar 1 1 DOWN 3.

Definition puzzle : Crossword :=
  mkCrossword
    [across; down]
    ["CAT"; "ART"; "TIE"; "LATER"]%string
    [((across, down), Some (1, 0)); ((down, across), Some (0, 1))].

(** The same grid with a vocabulary that cannot fill it *)
Definition unsolvable : Crossword :=
  mkCrossword
    [across; down]
    ["CAT"; "TIE"]%string
    [((across, down), Some (1, 0)); ((down, across), Some (0, 1))].

(** A grid with a single slot, hence without overlaps *)
Definition single : Crossword :=
  mkCrossword [across] ["CAT"; "DOG"; "ABC"]%string [].

(** Two slots that do not cross and a vocabulary with one word of their
    length *)
Definition second_row : Var := mkVar 3 0 ACROSS 3.

Definition twins : Crossword :=
  mkCrossword
    [across; second_row]
    ["CAT"; "HORSE"]%string
    [((across, second_row), None); ((second_row, across), None)].

(** The crossing slots with a word too short for the overlap *)
Definition short_word : Crossword :=
  mkCrossword
    [across; down]
    ["CAT"; "ART"; "A"]%string
    [((across, down), Some (1, 0)); ((down, across), Some (0, 1))].

End Example.

(** The invariant of the loop of [ac3]: an arc with a defined overlap
    is waiting in the queue or is consistent. *)
Definition ac3_inv (crossword : Crossword) (d : Domains) (queue : list Arc)
    : Prop :=
  forall x y i j,
    dict_get (x, y) (overlaps crossword) = Some (Some (i, j)) ->
    In (x, y) queue \/ arc_consistent d x y i j.

(** ** Notions used in the further properties *)

(** The slots of the store that the assignment lacks, in the order of the
    store: the list [unassigned_variables] of
    [select_unassigned_variable] before it is sorted *)
Definition unassigned (d : Domains) (a : Assignment) : list Var :=
  filter (fun var => negb (dict_mem var a)) (dict_keys d).

(** The number of remaining values of a slot, and its degree *)
Definition remaining (d : Domains) (var : Var) : nat :=
  List.length (dom d var).

Definition degree (crossword : Crossword) (var : Var) : nat :=
  List.length (neighbors crossword var).

(** The choice of [select_unassigned_variable] once the lengths of the
    domains are known *)
Definition select_from (crossword : Crossword) (d : Domains)
    (unassigned_variables : list Var) : res Var :=
  let sorted :=
    sort_by (fun a b => remaining d a <=? remaining d b)
            unassigned_variables in
  first <~ list_index sorted 0 ;;
  let tied :=
    filter (fun var => remaining d var =? remaining d first) sorted in
  if List.length tied =? 1 then list_index tied 0
  else
    list_index
      (sort_by (fun a b => degree crossword b <=? degree crossword a) tied) 0.

(** Every domain of [e] is a part of the domain of the same slot in [d]. *)
Definition within (e d : Domains) : Prop :=
  forall v w, In w (dom e v) -> In w (dom d v).

(** Arc consistency as a property of a store: on every arc with a
    defined overlap [(i, j)], every word of the first slot has a partner
    in the second. *)
Definition arc_closed (crossword : Crossword) (e : Domains) : Prop :=
  forall x y i j wx,
    dict_get (x, y) (overlaps crossword) = Some (Some (i, j)) ->
    In wx (dom e x) ->
    exists wy c,
      In wy (dom e y) /\
      String.get i wx = Some c /\ String.get j wy = Some c.

(** [result] is [a] followed by new slots of the store, each once and
    with a word of its domain. *)
Definition extends (d : Domains) (a result : Assignment) : Prop :=
  exists ext,
    result = a ++ ext /\
    NoDup (dict_keys ext) /\
    forall v w,
      In (v, w) ext ->
      In v (dict_keys d) /\ dict_get v a = None /\ In w (dom d v).

(** ** Rendering: [letter_grid] and [print] *)

(** Modelled from the spec: the geometry attributes of [Crossword]
    (section 3: grid height, grid width, a boolean matrix marking the
    fillable cells), which crossword.py defines. *)
Record Grid : Type := mkGrid {
  height : nat;
  width : nat;
  structure : list (list bool)
}.

#[export] Instance nat_EqDec : EqDec nat := Nat.eq_dec.

Definition Letters : Type := list (list (option ascii)).

(** [l[n] = a] for a non-negative index *)
Fixpoint list_assign {A} (l : list A) (n : nat) (a : A) : res (list A) :=
  match l, n with
  | [], _ => Raise IndexError
  | _ :: l', O => Ok (a :: l')
  | b :: l', S n' => l'' <~ list_assign l' n' a ;; Ok (b :: l'')
  end.

(** [letters[i][j] = c]: the row is fetched, then written in place *)
Definition letters_assign (letters : Letters) (i j : nat) (c : ascii)
    : res Letters :=
  row <~ list_index letters i ;;
  row' <~ list_assign row j (Some c) ;;
  list_assign letters i row'.

(** The cell of the [k]-th letter of a slot *)
Definition cell_of (variable : Var) (k : nat) : nat * nat :=
  (var_i variable
   + match var_direction variable with DOWN => k | ACROSS => 0 end,
   var_j variable
   + match var_direction variable with ACROSS => k | DOWN => 0 end).

(** The loop [for k in range(len(word))] of [letter_grid] *)
Fixpoint write_word (variable : Var) (word : string) (ks : list nat)
    (letters : Letters) : res Letters :=
  match ks with
  | [] => Ok letters
  | k :: ks' =>
      let i := fst (cell_of variable k) in
      let j := snd (cell_of variable k) in
      c <~ str_index word k ;;
      letters' <~ letters_assign letters i j c ;;
      write_word variable word ks' letters'
  end.

(** The loop [for variable, word in assignment.items()] *)
Fixpoint letter_grid_loop (items : list (Var * string)) (letters : Letters)
    : res Letters :=
  match items with
  | [] => Ok letters
  | (variable, word) :: rest =>
      letters' <~
        write_word variable word (seq 0 (String.length word)) letters ;;
      letter_grid_loop rest letters'
  end.

Definition letter_grid (grid : Grid) (assignment : Assignment) : res Letters :=
  let letters := repeat (repeat None (width grid)) (height grid) in
  letter_grid_loop assignment letters.

(** [letters[r][c]], when the cell is in the array *)
Definition cell (letters : Letters) (rc : nat * nat) : option (option ascii) :=
  match nth_error letters (fst rc) with
  | Some row => nth_error row (snd rc)
  | None => None
  end.

(** The array has [h] rows of [w] entries. *)
Definition shaped (h w : nat) (letters : Letters) : Prop :=
  List.length letters = h /\
  forall row, In row letters -> List.length row = w.

(** The letters an assignment puts on the grid, in the order in which
    [letter_grid] writes them *)
Definition word_writes (variable : Var) (word : string) (ks : list nat)
    : list ((nat * nat) * ascii) :=
  flat_map
    (fun k =>
       match String.get k word with
       | Some c => [(cell_of variable k, c)]
       | None => []
       end)
    ks.

Definition writes (items : list (Var * string)) : list ((nat * nat) * ascii) :=
  flat_map
    (fun item =>
       word_writes (fst item) (snd item) (seq 0 (String.length (snd item))))
    items.

Fixpoint apply_writes (ws : list ((nat * nat) * ascii)) (letters : Letters)
    : res Letters :=
  match ws with
  | [] => Ok letters
  | (rc, c) :: ws' =>
      letters' <~ letters_assign letters (fst rc) (snd rc) c ;;
      apply_writes ws' letters'
  end.

(** A character of the terminal output: a character of a word or a
    space, or the full block that marks a blocked cell *)
Inductive glyph : Type :=
| Char (c : ascii)
| Block.

Fixpoint mapR {A B} (f : A -> res B) (l : list A) : res (list B) :=
  match l with
  | [] => Ok []
  | a :: l' => b <~ f a ;; bs <~ mapR f l' ;; Ok (b :: bs)
  end.

(** What [print] writes for the cell [(i, j)] *)
Definition print_cell (grid : Grid) (letters : Letters) (i j : nat)
    : res glyph :=
  row <~ list_index (structure grid) i ;;
  fillable <~ list_index row j ;;
  if (fillable : bool) then
    letters_row <~ list_index letters i ;;
    letter <~ list_index letters_row j ;;
    Ok (Char (match letter with Some c => c | None => " "%char end))
  else Ok Block.

(** [print]: the lines written, when the method returns *)
Definition print (grid : Grid) (assignment : Assignment)
    : res (list (list glyph)) :=
  letters <~ letter_grid grid assignment ;;
  mapR (fun i => mapR (print_cell grid letters i) (seq 0 (width grid)))
       (seq 0 (height grid)).
(** * Properties *)

(** ** The model at work: the scenarios of the design document *)

Example generate_puzzle :
  generate Example.puzzle
  = Ok (Some [(Example.across, "CAT"%string); (Example.down, "ART"%string)]).
Proof. vm_compute. reflexivity. Qed.

Example generate_single :
  generate Example.single = Ok (Some [(Example.across, "CAT"%string)]).
Proof. vm_compute. reflexivity. Qed.

Example generate_unsolvable : generate Example.unsolvable = Ok None.
Proof. vm_compute. reflexivity. Qed.

Example generate_twins : generate Example.twins = Ok None.
Proof. vm_compute. reflexivity. Qed.

(** Without node consistency, a word shorter than an overlap index makes
    [revise] raise. *)
Example ac3_short_word :
  ac3 Example.short_word None (init_domains Example.short_word)
  = Raise IndexError.
Proof. vm_compute. reflexivity. Qed.

Example generate_short_word :
  generate Example.short_word
  = Ok (Some [(Example.across, "CAT"%string); (Example.down, "ART"%string)]).
Proof. vm_compute. reflexivity. Qed.

(** ** Dictionaries *)

Section DictFacts.
Context {K V : Type} `{EqDec K}.
Implicit Types (k : K) (v : V) (m : dict K V).

Lemma eqb_refl k : eqb k k = true.
Proof. unfold eqb. destruct (eq_dec k k); congruence. Qed.

Lemma eqb_true k k' : eqb k k' = true <-> k = k'.
Proof. unfold eqb. destruct (eq_dec k k'); split; congruence. Qed.

Lemma eqb_false k k' : eqb k k' = false <-> k <> k'.
Proof. unfold eqb. destruct (eq_dec k k'); split; congruence. Qed.

Lemma dict_get_set_same k v m : dict_get k (dict_set k v m) = Some v.
Proof.
  induction m as [|[k' v'] m IH]; simpl.
  - destruct (eq_dec k k); congruence.
  - destruct (eq_dec k k') as [->|Hne]; simpl.
    + destruct (eq_dec k' k'); congruence.
    + destruct (eq_dec k k'); congruence.
Qed.

Lemma dict_get_set_other k k' v m :
  k <> k' -> dict_get k' (dict_set k v m) = dict_get k' m.
Proof.
  intros Hne. induction m as [|[k0 v0] m IH]; simpl.
  - destruct (eq_dec k' k); congruence.
  - destruct (eq_dec k k0) as [->|Hne0]; simpl.
    + destruct (eq_dec k' k0); congruence.
    + destruct (eq_dec k' k0); congruence.
Qed.

Lemma dict_set_set k v v' m :
  dict_set k v (dict_set k v' m) = dict_set k v m.
Proof.
  induction m as [|[k0 v0] m IH]; simpl.
  - destruct (eq_dec k k); congruence.
  - destruct (eq_dec k k0) as [->|Hne]; simpl.
    + destruct (eq_dec k0 k0); congruence.
    + destruct (eq_dec k k0); congruence.
Qed.

Lemma dict_set_get_id k v m : dict_get k m = Some v -> dict_set k v m = m.
Proof.
  induction m as [|[k0 v0] m IH]; simpl; [discriminate|].
  destruct (eq_dec k k0) as [->|Hne]; intros Hg.
  - congruence.
  - now rewrite IH.
Qed.

Lemma dict_keys_set k v m :
  dict_get k m <> None -> dict_keys (dict_set k v m) = dict_keys m.
Proof.
  unfold dict_keys.
  induction m as [|[k0 v0] m IH]; simpl; [congruence|].
  destruct (eq_dec k k0) as [->|Hne]; simpl; intros Hg.
  - reflexivity.
  - now rewrite IH.
Qed.

Lemma dict_keys_set_fresh k v m :
  dict_get k m = None -> dict_keys (dict_set k v m) = dict_keys m ++ [k].
Proof.
  unfold dict_keys.
  induction m as [|[k0 v0] m IH]; simpl; [reflexivity|].
  destruct (eq_dec k k0) as [->|Hne]; simpl; intros Hg.
  - discriminate.
  - now rewrite IH.
Qed.

Lemma dict_get_In_keys k m : In k (dict_keys m) <-> dict_get k m <> None.
Proof.
  unfold dict_keys.
  induction m as [|[k0 v0] m IH]; simpl.
  - split; [tauto|congruence].
  - destruct (eq_dec k k0) as [->|Hne].
    + split; [congruence|auto].
    + rewrite <- IH. split; [intros [?|?]; congruence || auto|auto].
Qed.

Lemma dict_get_In k v m : dict_get k m = Some v -> In (k, v) m.
Proof.
  induction m as [|[k0 v0] m IH]; simpl; [discriminate|].
  destruct (eq_dec k k0) as [->|Hne]; intros Hg.
  - left. congruence.
  - right. auto.
Qed.

Lemma dict_In_get k v m :
  NoDup (dict_keys m) -> In (k, v) m -> dict_get k m = Some v.
Proof.
  unfold dict_keys.
  induction m as [|[k0 v0] m IH]; simpl; [tauto|].
  intros Hnd Hin. inversion Hnd as [|? ? Hnotin Hnd']; subst.
  destruct Hin as [Heq|Hin].
  - inversion Heq; subst. destruct (eq_dec _ _); congruence.
  - destruct (eq_dec k k0) as [->|Hne]; [|auto].
    exfalso. apply Hnotin. change k0 with (fst (k0, v)). now apply in_map.
Qed.

Lemma dict_mem_true k m : dict_mem k m = true <-> dict_get k m <> None.
Proof. unfold dict_mem. destruct (dict_get k m); split; congruence. Qed.

Lemma dict_mem_false k m : dict_mem k m = false <-> dict_get k m = None.
Proof. unfold dict_mem. destruct (dict_get k m); split; congruence. Qed.

(** Deleting a key that was just added restores the dictionary, order
    included. *)
Lemma dict_del_set_fresh k v m :
  dict_get k m = None -> dict_del k (dict_set k v m) = Ok m.
Proof.
  induction m as [|[k0 v0] m IH]; simpl.
  - intros _. destruct (eq_dec k k); [reflexivity|congruence].
  - destruct (eq_dec k k0) as [->|Hne]; [discriminate|]. intros Hg.
    simpl. destruct (eq_dec k k0); [congruence|]. now rewrite IH.
Qed.

Lemma dict_set_fresh_app k v m :
  dict_get k m = None -> dict_set k v m = m ++ [(k, v)].
Proof.
  induction m as [|[k0 v0] m IH]; simpl; [reflexivity|].
  destruct (eq_dec k k0) as [->|Hne]; [discriminate|]. intros Hg.
  now rewrite IH.
Qed.

Lemma dict_lookup_Ok k v m : dict_lookup k m = Ok v <-> dict_get k m = Some v.
Proof. unfold dict_lookup. destruct (dict_get k m); split; congruence. Qed.

End DictFacts.

(** ** Inversion of monadic computations *)

Lemma bindR_Ok {A B} (r : res A) (k : A -> res B) b :
  bindR r k = Ok b -> exists a, r = Ok a /\ k a = Ok b.
Proof. destruct r; simpl; try discriminate. eauto. Qed.

Lemma bind_Ok {A B} (m : M A) (k : A -> M B) d b d' :
  bind m k d = Ok (b, d') ->
  exists a d1, m d = Ok (a, d1) /\ k a d1 = Ok (b, d').
Proof. unfold bind. destruct (m d) as [[a d1]| |]; try discriminate. eauto. Qed.

Lemma ret_Ok {A} (a b : A) d d' : ret a d = Ok (b, d') -> b = a /\ d' = d.
Proof. unfold ret. intros Heq. inversion Heq. auto. Qed.

Lemma lift_Ok {A} (r : res A) a d d' :
  lift r d = Ok (a, d') -> r = Ok a /\ d' = d.
Proof. unfold lift. destruct r; try discriminate. intros Heq. inversion Heq. auto. Qed.

Lemma get_domains_Ok d0 d d' : get_domains d = Ok (d0, d') -> d0 = d /\ d' = d.
Proof. unfold get_domains. intros Heq. inversion Heq. auto. Qed.

Lemma domains_get_Ok var s d d' :
  domains_get var d = Ok (s, d') -> dict_get var d = Some s /\ d' = d.
Proof.
  unfold domains_get. destruct (dict_get var d); try discriminate.
  intros Heq. inversion Heq. auto.
Qed.

Lemma domains_get_eq {var s d} :
  dict_get var d = Some s -> domains_get var d = Ok (s, d).
Proof. unfold domains_get. now intros ->. Qed.

Lemma domains_remove_Ok var value u d d' :
  domains_remove var value d = Ok (u, d') ->
  exists s, dict_get var d = Some s /\
            d' = dict_set var (set_remove value s) d.
Proof.
  unfold domains_remove. destruct (dict_get var d); try discriminate.
  intros Heq. inversion Heq. eauto.
Qed.

Lemma bind_eq {A B} {m : M A} (k : A -> M B) {d a d1} :
  m d = Ok (a, d1) -> bind m k d = k a d1.
Proof. unfold bind. now intros ->. Qed.

(** Decompose a hypothesis [m d = Ok (a, d')] along the binds of [m]. *)
Ltac inv_step H :=
  match type of H with
  | bind _ _ _ = Ok (_, _) =>
      let a := fresh "a" in let d1 := fresh "d" in
      let H1 := fresh "Hm" in let H2 := fresh "Hk" in
      apply bind_Ok in H; destruct H as (a & d1 & H1 & H2);
      inv_step H1; inv_step H2
  | bindR _ _ = Ok _ =>
      let a := fresh "a" in
      let H1 := fresh "Hm" in let H2 := fresh "Hk" in
      apply bindR_Ok in H; destruct H as (a & H1 & H2);
      inv_step H1; inv_step H2
  | ret _ _ = Ok (_, _) =>
      apply ret_Ok in H;
      let H1 := fresh "Hr" in
      destruct H as [H1 ?]; try (injection H1 as ? ?); subst
  | lift _ _ = Ok (_, _) =>
      apply lift_Ok in H;
      let H1 := fresh "Hl" in destruct H as [H1 ?]; subst; inv_step H1
  | get_domains _ = Ok (_, _) =>
      apply get_domains_Ok in H; destruct H; subst
  | domains_get _ _ = Ok (_, _) =>
      apply domains_get_Ok in H;
      let H1 := fresh "Hget" in destruct H as [H1 ?]; subst
  | out_of_fuel _ = Ok _ => discriminate H
  | Ok _ = Ok _ => inversion H; subst; clear H
  | Raise _ = Ok _ => discriminate H
  | OutOfFuel = Ok _ => discriminate H
  | _ => idtac
  end.

(** ** Removing words from a domain *)

Lemma remove_all_nil s : remove_all [] s = s.
Proof.
  unfold remove_all. induction s as [|w s IH]; simpl; [reflexivity|].
  f_equal. exact IH.
Qed.

Lemma remove_all_cons v bad s :
  remove_all bad (set_remove v s) = remove_all (v :: bad) s.
Proof.
  unfold remove_all, set_remove.
  induction s as [|w s IH]; simpl; [reflexivity|].
  destruct (eqb w v); simpl; [assumption|].
  destruct (existsb (eqb w) bad); simpl; [assumption|]. now rewrite IH.
Qed.

(** Removing from a set those of its own elements that fail a test *)
Lemma remove_all_filter_self (keep : string -> bool) s :
  remove_all (filter (fun w => negb (keep w)) s) s = filter keep s.
Proof.
  unfold remove_all. apply filter_ext_in. intros w Hin.
  destruct (keep w) eqn:Hk; simpl.
  - destruct (existsb _ _) eqn:He; [|reflexivity].
    apply existsb_exists in He. destruct He as (u & Hu & Heq).
    apply eqb_true in Heq. subst u. apply filter_In in Hu.
    rewrite Hk in Hu. now destruct Hu.
  - destruct (existsb _ _) eqn:He; [reflexivity|].
    assert (existsb (eqb w) (filter (fun w0 => negb (keep w0)) s) = true) as Ht.
    { apply existsb_exists. exists w. split; [|apply eqb_refl].
      apply filter_In. rewrite Hk. auto. }
    congruence.
Qed.

Lemma remove_all_incl bad s : incl (remove_all bad s) s.
Proof. unfold remove_all. intros w Hin. now apply filter_In in Hin. Qed.

Lemma filter_length_lt {A} (f : A -> bool) (l : list A) a :
  In a l -> f a = false -> List.length (filter f l) < List.length l.
Proof.
  induction l as [|b l IH]; simpl; [tauto|].
  intros [->|Hin] Hf.
  - rewrite Hf. pose proof (filter_length_le f l). lia.
  - destruct (f b); simpl; [apply IH in Hin; auto; lia|].
    pose proof (filter_length_le f l). lia.
Qed.
(** ** Node consistency *)

Lemma forM_remove var (bad : string -> bool) l :
  forall d cur,
    dict_get var d = Some cur ->
    forM_ l (fun value => if bad value then domains_remove var value else ret tt) d
    = Ok (tt, dict_set var (remove_all (filter bad l) cur) d).
Proof.
  induction l as [|a l IH]; intros d cur Hget; simpl.
  - unfold ret. now rewrite remove_all_nil, (dict_set_get_id _ _ _ Hget).
  - destruct (bad a) eqn:Hbad.
    + unfold bind at 1, domains_remove. rewrite Hget.
      rewrite (IH _ (set_remove a cur)) by apply dict_get_set_same.
      now rewrite remove_all_cons, dict_set_set.
    + unfold bind at 1, ret at 1. now apply IH.
Qed.

Lemma enforce_node_consistency_var_eq var d dv :
  dict_get var d = Some dv ->
  enforce_node_consistency_var var d
  = Ok (tt, dict_set var (filter (fits var) dv) d).
Proof.
  intros Hget. unfold enforce_node_consistency_var.
  rewrite (bind_eq _ (domains_get_eq Hget)).
  rewrite (forM_remove var (fun value => negb (String.length value =? var_length var)) dv _ _ Hget).
  now rewrite (remove_all_filter_self (fits var)).
Qed.

Lemma filter_idem {A} (f : A -> bool) l : filter f (filter f l) = filter f l.
Proof.
  induction l as [|a l IH]; simpl; [reflexivity|].
  destruct (f a) eqn:Hf; simpl; [rewrite Hf, IH|]; auto.
Qed.

Lemma enforce_node_consistency_keys ks :
  forall d,
    (forall k, In k ks -> dict_get k d <> None) ->
    exists d',
      forM_ ks enforce_node_consistency_var d = Ok (tt, d') /\
      forall var, dict_get var d' = node_consistent_upto ks d var.
Proof.
  induction ks as [|k ks IH]; intros d Hkeys; simpl.
  - exists d. split; [reflexivity|]. intros var. reflexivity.
  - destruct (dict_get k d) as [dv|] eqn:Hget.
    2:{ exfalso. apply (Hkeys k); simpl; auto. }
    rewrite (bind_eq _ (enforce_node_consistency_var_eq _ _ _ Hget)).
    destruct (IH (dict_set k (filter (fits k) dv) d)) as (d' & Hrun & Hd').
    { intros k' Hin. destruct (eq_dec k k') as [->|Hne].
      - rewrite dict_get_set_same. discriminate.
      - rewrite dict_get_set_other by assumption. apply Hkeys. simpl. auto. }
    exists d'. split; [assumption|].
    intros var. rewrite Hd'. unfold node_consistent_upto. simpl.
    destruct (eq_dec k var) as [->|Hne].
    + rewrite dict_get_set_same, Hget. simpl.
      destruct (in_dec eq_dec var ks); simpl; [now rewrite filter_idem|reflexivity].
    + rewrite dict_get_set_other by assumption.
      destruct (in_dec eq_dec var ks); reflexivity.
Qed.

(** What [enforce_node_consistency] does to the store: it always returns,
    and filters every domain by the length of its slot, in place. *)
Lemma enforce_node_consistency_eq d :
  exists d',
    enforce_node_consistency d = Ok (tt, d') /\
    forall var,
      dict_get var d' = option_map (filter (fits var)) (dict_get var d).
Proof.
  unfold enforce_node_consistency.
  destruct (enforce_node_consistency_keys (dict_keys d) d) as (d' & Hrun & Hd').
  { intros k Hin. now apply dict_get_In_keys. }
  exists d'. split.
  - unfold bind at 1, get_domains. exact Hrun.
  - intros var. rewrite Hd'. unfold node_consistent_upto.
    destruct (in_dec eq_dec var (dict_keys d)) as [Hin|Hnin]; [reflexivity|].
    destruct (dict_get var d) eqn:Hget; [|reflexivity].
    exfalso. apply Hnin. apply dict_get_In_keys. congruence.
Qed.


(** ** Monotonicity of the domain store *)

Lemma shrunk_refl d : shrunk d d.
Proof. intros var. destruct (dict_get var d); [apply incl_refl|exact I]. Qed.

Lemma shrunk_trans d1 d2 d3 : shrunk d1 d2 -> shrunk d2 d3 -> shrunk d1 d3.
Proof.
  intros H12 H23 var. specialize (H12 var). specialize (H23 var).
  destruct (dict_get var d1), (dict_get var d2), (dict_get var d3);
    try tauto. eapply incl_tran; eauto.
Qed.

Lemma shrunk_set var s s' d :
  dict_get var d = Some s -> incl s' s -> shrunk (dict_set var s' d) d.
Proof.
  intros Hget Hincl var'. destruct (eq_dec var var') as [<-|Hne].
  - now rewrite dict_get_set_same, Hget.
  - rewrite dict_get_set_other by assumption.
    destruct (dict_get var' d); [apply incl_refl|exact I].
Qed.

Lemma shrunk_Some d' d var s' :
  shrunk d' d -> dict_get var d' = Some s' ->
  exists s, dict_get var d = Some s /\ incl s' s.
Proof.
  intros Hs Hget. specialize (Hs var). rewrite Hget in Hs.
  destruct (dict_get var d) as [s|]; [eauto|tauto].
Qed.

Lemma shrunk_Some_inv d' d var s :
  shrunk d' d -> dict_get var d = Some s ->
  exists s', dict_get var d' = Some s' /\ incl s' s.
Proof.
  intros Hs Hget. specialize (Hs var). rewrite Hget in Hs.
  destruct (dict_get var d') as [s'|]; [eauto|tauto].
Qed.

Lemma readonly_shrinking {A} (m : M A) : readonly m -> shrinking m.
Proof. intros Hr d a d' Hrun. rewrite (Hr _ _ _ Hrun). apply shrunk_refl. Qed.

Lemma readonly_ret {A} (a : A) : readonly (ret a).
Proof. intros d b d' Hrun. now apply ret_Ok in Hrun. Qed.

Lemma readonly_lift {A} (r : res A) : readonly (lift r).
Proof. intros d b d' Hrun. now apply lift_Ok in Hrun. Qed.

Lemma readonly_out_of_fuel {A} : readonly (@out_of_fuel A).
Proof. intros d b d' Hrun. discriminate. Qed.

Lemma readonly_get_domains : readonly get_domains.
Proof. intros d b d' Hrun. now apply get_domains_Ok in Hrun. Qed.

Lemma readonly_domains_get var : readonly (domains_get var).
Proof. intros d b d' Hrun. now apply domains_get_Ok in Hrun. Qed.

Lemma readonly_bind {A B} (m : M A) (k : A -> M B) :
  readonly m -> (forall a, readonly (k a)) -> readonly (bind m k).
Proof.
  intros Hm Hk d b d' Hrun. apply bind_Ok in Hrun.
  destruct Hrun as (a & d1 & H1 & H2).
  apply Hk in H2. apply Hm in H1. congruence.
Qed.

Lemma readonly_foldM {A B} (body : B -> A -> M B) l :
  (forall b a, readonly (body b a)) -> forall b, readonly (foldM body l b).
Proof.
  intros Hbody. induction l as [|a l IH]; intros b; simpl.
  - apply readonly_ret.
  - apply readonly_bind; auto.
Qed.

Lemma readonly_mapM {A B} (f : A -> M B) l :
  (forall a, readonly (f a)) -> readonly (mapM f l).
Proof.
  intros Hf. induction l as [|a l IH]; simpl.
  - apply readonly_ret.
  - apply readonly_bind; [auto|]. intros b.
    apply readonly_bind; [auto|]. intros bs. apply readonly_ret.
Qed.

Lemma readonly_filterM {A} (f : A -> M bool) l :
  (forall a, readonly (f a)) -> readonly (filterM f l).
Proof.
  intros Hf. induction l as [|a l IH]; simpl.
  - apply readonly_ret.
  - apply readonly_bind; [auto|]. intros b.
    apply readonly_bind; [auto|]. intros bs. apply readonly_ret.
Qed.

Lemma shrinking_ret {A} (a : A) : shrinking (ret a).
Proof. apply readonly_shrinking, readonly_ret. Qed.

Lemma shrinking_domains_remove var value : shrinking (domains_remove var value).
Proof.
  intros d u d' Hrun. apply domains_remove_Ok in Hrun.
  destruct Hrun as (s & Hget & ->).
  apply (shrunk_set _ _ _ _ Hget).
  intros w Hin. unfold set_remove in Hin. now apply filter_In in Hin.
Qed.

Lemma shrinking_bind {A B} (m : M A) (k : A -> M B) :
  shrinking m -> (forall a, shrinking (k a)) -> shrinking (bind m k).
Proof.
  intros Hm Hk d b d' Hrun. apply bind_Ok in Hrun.
  destruct Hrun as (a & d1 & H1 & H2).
  apply Hk in H2. apply Hm in H1. eapply shrunk_trans; eauto.
Qed.

Lemma shrinking_forM_ {A} (body : A -> M unit) l :
  (forall a, shrinking (body a)) -> shrinking (forM_ l body).
Proof.
  intros Hbody. induction l as [|a l IH]; simpl.
  - apply shrinking_ret.
  - apply shrinking_bind; auto.
Qed.

Lemma shrinking_foldM {A B} (body : B -> A -> M B) l :
  (forall b a, shrinking (body b a)) -> forall b, shrinking (foldM body l b).
Proof.
  intros Hbody. induction l as [|a l IH]; intros b; simpl.
  - apply shrinking_ret.
  - apply shrinking_bind; auto.
Qed.

Create HintDb frame.
#[export] Hint Resolve readonly_ret readonly_lift readonly_out_of_fuel
  readonly_get_domains readonly_domains_get readonly_shrinking
  shrinking_ret shrinking_domains_remove : frame.

(** Walk through the binds and branches of a method *)
Ltac frame :=
  repeat first
    [ progress intros
    | match goal with
      | |- readonly (bind _ _) => apply readonly_bind
      | |- readonly (foldM _ _ _) => apply readonly_foldM
      | |- readonly (mapM _ _) => apply readonly_mapM
      | |- readonly (filterM _ _) => apply readonly_filterM
      | |- shrinking (bind _ _) => apply shrinking_bind
      | |- shrinking (forM_ _ _) => apply shrinking_forM_
      | |- shrinking (foldM _ _ _) => apply shrinking_foldM
      | |- readonly (match ?x with _ => _ end) => destruct x
      | |- shrinking (match ?x with _ => _ end) => destruct x
      end
    | solve [auto with frame] ].

Section Frame.
Variable crossword : Crossword.

Lemma shrinking_enforce_node_consistency : shrinking enforce_node_consistency.
Proof. unfold enforce_node_consistency, enforce_node_consistency_var. frame. Qed.

Lemma shrinking_revise x y : shrinking (revise crossword x y).
Proof. unfold revise, revise_step. frame. Qed.

Lemma shrinking_ac3_loop fuel :
  forall queue, shrinking (ac3_loop crossword fuel queue).
Proof.
  induction fuel as [|fuel IH]; intros [|[x y] queue]; simpl; frame;
    solve [apply shrinking_revise | apply IH].
Qed.

Lemma shrinking_ac3 arcs : shrinking (ac3 crossword arcs).
Proof. unfold ac3. frame. apply shrinking_ac3_loop. Qed.

Lemma readonly_assignment_complete a :
  readonly (assignment_complete crossword a).
Proof. unfold assignment_complete. frame. Qed.

Lemma readonly_consistent a : readonly (consistent crossword a).
Proof. unfold consistent. frame. Qed.

Lemma readonly_order_domain_values var a :
  readonly (order_domain_values crossword var a).
Proof. unfold order_domain_values, count_step. frame. Qed.

Lemma readonly_select_unassigned_variable a :
  readonly (select_unassigned_variable crossword a).
Proof. unfold select_unassigned_variable. frame. Qed.

Lemma readonly_backtrack_loop rec var values :
  (forall a, readonly (rec a)) ->
  forall a, readonly (backtrack_loop crossword rec var values a).
Proof.
  intros Hrec. induction values as [|value rest IH]; intros a; simpl.
  - frame.
  - apply readonly_bind; [apply readonly_consistent|]. intros ok.
    apply readonly_bind; [destruct ok; [apply Hrec|apply readonly_ret]|].
    intros [a' [result|]]; frame.
Qed.

Lemma readonly_backtrack_fuel fuel :
  forall a, readonly (backtrack_fuel crossword fuel a).
Proof.
  induction fuel as [|fuel IH]; intros a; simpl; [frame|].
  apply readonly_bind; [apply readonly_assignment_complete|].
  intros [|]; [frame|].
  apply readonly_bind; [apply readonly_select_unassigned_variable|]. intros var.
  apply readonly_bind; [apply readonly_order_domain_values|]. intros values.
  now apply readonly_backtrack_loop.
Qed.

Lemma readonly_backtrack a : readonly (backtrack crossword a).
Proof. unfold backtrack. frame. apply readonly_backtrack_fuel. Qed.

End Frame.

(** ** The test of [revise] *)

Lemma str_index_Ok w i c : str_index w i = Ok c <-> String.get i w = Some c.
Proof. unfold str_index. destruct (String.get i w); split; congruence. Qed.

Lemma ascii_eqb_true a b : Ascii.eqb a b = true <-> a = b.
Proof. apply Ascii.eqb_eq. Qed.

(** A successful test names a partner that agrees at the overlap. *)
Lemma has_corresponding_value_true value_x i j domain_y :
  has_corresponding_value value_x i j domain_y = Ok true ->
  exists value_y c,
    In value_y domain_y /\
    String.get i value_x = Some c /\ String.get j value_y = Some c.
Proof.
  induction domain_y as [|w l IH]; simpl; [discriminate|].
  intros Hrun. inv_step Hrun.
  apply str_index_Ok in Hm, Hm0.
  destruct (Ascii.eqb a a0) eqn:Heq.
  - apply ascii_eqb_true in Heq. subst a0. exists w, a. auto.
  - destruct (IH Hk0) as (value_y & c & Hin & Hx & Hy).
    exists value_y, c. auto.
Qed.

(** A failed test has compared with every word and found a difference. *)
Lemma has_corresponding_value_false value_x i j domain_y :
  has_corresponding_value value_x i j domain_y = Ok false ->
  forall value_y,
    In value_y domain_y ->
    exists a b,
      String.get i value_x = Some a /\ String.get j value_y = Some b /\ a <> b.
Proof.
  induction domain_y as [|w l IH]; simpl; [tauto|].
  intros Hrun value_y Hin. inv_step Hrun.
  apply str_index_Ok in Hm, Hm0.
  destruct (Ascii.eqb a a0) eqn:Heq; [discriminate|].
  destruct Hin as [<-|Hin]; [|now apply IH].
  exists a, a0. repeat split; auto.
  intros ->. rewrite Ascii.eqb_refl in Heq. discriminate.
Qed.

(** The test still succeeds on a part of the domain that keeps every
    partner. *)
Lemma has_corresponding_value_filter (keep : string -> bool) value_x i j domain_y :
  has_corresponding_value value_x i j domain_y = Ok true ->
  (forall value_y c,
      In value_y domain_y ->
      String.get i value_x = Some c -> String.get j value_y = Some c ->
      keep value_y = true) ->
  has_corresponding_value value_x i j (filter keep domain_y) = Ok true.
Proof.
  induction domain_y as [|w l IH]; simpl; [discriminate|].
  intros Hrun Hkeep. inv_step Hrun.
  pose proof Hm as Hx. pose proof Hm0 as Hy.
  apply str_index_Ok in Hx, Hy.
  destruct (Ascii.eqb a a0) eqn:Heq.
  - apply ascii_eqb_true in Heq. subst a0.
    rewrite (Hkeep w a) by auto. simpl. rewrite Hm, Hm0. simpl.
    now rewrite Ascii.eqb_refl.
  - assert (has_corresponding_value value_x i j (filter keep l) = Ok true) as Hrec.
    { apply IH; [assumption|]. intros value_y c Hin. apply Hkeep. now right. }
    destruct (keep w); [|assumption].
    simpl. rewrite Hm, Hm0. simpl. now rewrite Heq.
Qed.

Lemma supported_true i j domain_y value_x :
  supported i j domain_y value_x = true <->
  has_corresponding_value value_x i j domain_y = Ok true.
Proof.
  unfold supported.
  destruct (has_corresponding_value value_x i j domain_y) as [[|]| |];
    split; congruence.
Qed.

Lemma dom_get {d var s} : dict_get var d = Some s -> dom d var = s.
Proof. unfold dom. now intros ->. Qed.

Lemma dom_set_same d var s : dom (dict_set var s d) var = s.
Proof. unfold dom. now rewrite dict_get_set_same. Qed.

Lemma dom_set_other d var var' s :
  var <> var' -> dom (dict_set var s d) var' = dom d var'.
Proof. intros Hne. unfold dom. now rewrite dict_get_set_other. Qed.

(** ** [revise] *)

Section Revise.
Variable crossword : Crossword.
Variables (x y : Var) (i j : nat).

(** The loop of [revise] on slots [x <> y]: the domain of [y] stays
    [domain_y], the domain of [x] goes from [cur] to [cur] without the
    unsupported words of [l]. *)
Lemma revise_loop_inv domain_y l :
  x <> y ->
  forall revised d revised' d' cur,
    dict_get x d = Some cur ->
    dict_get y d = Some domain_y ->
    foldM (revise_step x y i j) l revised d = Ok (revised', d') ->
    (forall v, In v l -> exists h, has_corresponding_value v i j domain_y = Ok h) /\
    d' = dict_set x
           (remove_all (filter (fun v => negb (supported i j domain_y v)) l) cur) d /\
    revised' = revised || negb (forallb (supported i j domain_y) l).
Proof.
  intros Hxy. induction l as [|v l IH]; intros revised d revised' d' cur Hx Hy Hrun.
  - simpl in Hrun. inv_step Hrun. split; [simpl; tauto|]. split.
    + simpl. now rewrite remove_all_nil, (dict_set_get_id _ _ _ Hx).
    + simpl. now rewrite orb_false_r.
  - simpl in Hrun. apply bind_Ok in Hrun. destruct Hrun as (b1 & d1 & Hstep & Hrest).
    unfold revise_step in Hstep. inv_step Hstep.
    assert (a = domain_y) by congruence. subst a.
    destruct a0; simpl in Hk0.
    + inv_step Hk0.
      destruct (IH _ _ _ _ _ Hx Hy Hrest) as (Hall & Hd' & Hrev).
      assert (supported i j domain_y v = true) as Hsup
          by now apply supported_true.
      split; [|split].
      * intros v' [<-|Hin]; eauto.
      * simpl. now rewrite Hsup.
      * simpl. now rewrite Hsup.
    + apply bind_Ok in Hk0. destruct Hk0 as ([] & d2 & Hrem & Hret).
      inv_step Hret. apply domains_remove_Ok in Hrem.
      destruct Hrem as (s & Hs & ->).
      assert (s = cur) by congruence. subst s.
      assert (supported i j domain_y v = false) as Hsup.
      { unfold supported. now rewrite Hl. }
      edestruct IH as (Hall & Hd' & Hrev); [| |exact Hrest|].
      { apply dict_get_set_same. }
      { now rewrite dict_get_set_other. }
      split; [|split].
      * intros v' [<-|Hin]; eauto.
      * simpl. rewrite Hsup. simpl.
        now rewrite Hd', dict_set_set, remove_all_cons.
      * simpl. rewrite Hsup. simpl. rewrite Hrev. now rewrite orb_true_r.
Qed.

(** The loop returns whenever the test does. *)
Lemma revise_loop_total domain_y l :
  x <> y ->
  forall revised d cur,
    dict_get x d = Some cur ->
    dict_get y d = Some domain_y ->
    (forall v, In v l -> exists h, has_corresponding_value v i j domain_y = Ok h) ->
    exists revised' d',
      foldM (revise_step x y i j) l revised d = Ok (revised', d').
Proof.
  intros Hxy. induction l as [|v l IH]; intros revised d cur Hx Hy Hall.
  - simpl. unfold ret. eauto.
  - simpl. destruct (Hall v) as (h & Hh); [now left|].
    unfold revise_step at 1.
    unfold bind at 1. unfold bind at 1. rewrite (domains_get_eq Hy).
    unfold bind at 1. rewrite Hh. simpl.
    destruct h; simpl.
    + eapply IH; eauto. intros; apply Hall; now right.
    + unfold bind at 1. unfold domains_remove. rewrite Hx.
      eapply IH.
      * apply dict_get_set_same.
      * now rewrite dict_get_set_other.
      * intros; apply Hall; now right.
Qed.

(** On an arc whose words all pass the test, the loop removes nothing. *)
Lemma revise_loop_consistent l :
  forall d,
    (forall v, In v l ->
               dict_get y d <> None /\
               has_corresponding_value v i j (dom d y) = Ok true) ->
    foldM (revise_step x y i j) l false d = Ok (false, d).
Proof.
  induction l as [|v l IH]; intros d Hall; [reflexivity|].
  simpl. destruct (Hall v) as (Hy & Hh); [now left|].
  destruct (dict_get y d) as [domain_y|] eqn:Hget; [|congruence].
  rewrite (dom_get Hget) in Hh.
  unfold revise_step at 1.
  unfold bind at 1. unfold bind at 1. rewrite (domains_get_eq Hget).
  unfold bind at 1. rewrite Hh. simpl.
  apply IH. intros v' Hin. rewrite Hget. apply Hall. now right.
Qed.

Hypothesis Hoverlap : dict_get (x, y) (overlaps crossword) = Some (Some (i, j)).

Lemma revise_unfold d :
  revise crossword x y d =
  (domain_x <- domains_get x ;; foldM (revise_step x y i j) domain_x false) d.
Proof.
  unfold revise. unfold bind at 1. unfold lift, dict_lookup.
  now rewrite Hoverlap.
Qed.

(** What [revise(x, y)] does on slots [x <> y] with overlap [(i, j)] *)
Lemma revise_inv d revised d' :
  x <> y ->
  revise crossword x y d = Ok (revised, d') ->
  exists domain_x,
    dict_get x d = Some domain_x /\
    (forall v, In v domain_x ->
               dict_get y d <> None /\
               exists h, has_corresponding_value v i j (dom d y) = Ok h) /\
    d' = dict_set x (filter (supported i j (dom d y)) domain_x) d /\
    revised = negb (forallb (supported i j (dom d y)) domain_x).
Proof.
  intros Hxy Hrun. rewrite revise_unfold in Hrun.
  apply bind_Ok in Hrun. destruct Hrun as (domain_x & d1 & Hm & Hloop).
  inv_step Hm. exists domain_x. split; [assumption|].
  destruct domain_x as [|v l].
  - simpl in Hloop. inv_step Hloop. split; [simpl; tauto|]. split; [|reflexivity].
    simpl. now rewrite (dict_set_get_id _ _ _ Hget).
  - assert (exists domain_y, dict_get y d = Some domain_y) as (domain_y & Hy).
    { simpl in Hloop. apply bind_Ok in Hloop.
      destruct Hloop as (b1 & d2 & Hstep & _).
      unfold revise_step in Hstep. apply bind_Ok in Hstep.
      destruct Hstep as (dy & d3 & Hgy & _). inv_step Hgy. eauto. }
    rewrite (dom_get Hy).
    destruct (revise_loop_inv domain_y (v :: l) Hxy _ _ _ _ _ Hget Hy Hloop)
      as (Hall & Hd' & Hrev).
    split; [|split].
    + intros v' Hin. split; [congruence|auto].
    + now rewrite Hd', remove_all_filter_self.
    + assumption.
Qed.

Lemma revise_total d :
  x <> y ->
  dict_get x d <> None ->
  dict_get y d <> None ->
  (forall v, In v (dom d x) ->
             exists h, has_corresponding_value v i j (dom d y) = Ok h) ->
  exists revised d', revise crossword x y d = Ok (revised, d').
Proof.
  intros Hxy Hx Hy Hall. rewrite revise_unfold.
  destruct (dict_get x d) as [domain_x|] eqn:Hgx; [|congruence].
  destruct (dict_get y d) as [domain_y|] eqn:Hgy; [|congruence].
  rewrite (bind_eq _ (domains_get_eq Hgx)).
  rewrite (dom_get Hgx), (dom_get Hgy) in Hall.
  eapply revise_loop_total; eauto.
Qed.

Lemma revise_consistent d :
  arc_consistent d x y i j -> revise crossword x y d = Ok (false, d).
Proof.
  intros [Hx Hall]. rewrite revise_unfold.
  destruct (dict_get x d) as [domain_x|] eqn:Hgx; [|congruence].
  rewrite (bind_eq _ (domains_get_eq Hgx)).
  apply revise_loop_consistent. intros v Hin. apply Hall.
  now rewrite (dom_get Hgx).
Qed.

End Revise.

Lemma revise_no_overlap crossword x y d :
  dict_get (x, y) (overlaps crossword) = Some None ->
  revise crossword x y d = Ok (false, d).
Proof.
  intros Hov. unfold revise. unfold bind, lift, dict_lookup. now rewrite Hov.
Qed.

(** If [revise] reports a revision, the domain of [x] was not empty. *)
Lemma revise_true_nonempty crossword x y d d' :
  revise crossword x y d = Ok (true, d') ->
  exists domain_x, dict_get x d = Some domain_x /\ domain_x <> [].
Proof.
  unfold revise. intros Hrun. apply bind_Ok in Hrun.
  destruct Hrun as (overlap & d1 & Hm & Hk). inv_step Hm.
  destruct overlap as [[i j]|]; [|inv_step Hk; discriminate].
  apply bind_Ok in Hk. destruct Hk as (domain_x & d2 & Hm & Hloop).
  inv_step Hm. exists domain_x. split; [assumption|].
  intros ->. simpl in Hloop. inv_step Hloop. discriminate.
Qed.

(** ** The puzzle model *)

Lemma existsb_eqb_In {A} `{EqDec A} (a : A) l :
  existsb (eqb a) l = true <-> In a l.
Proof.
  rewrite existsb_exists. split.
  - intros (b & Hin & Heq). apply eqb_true in Heq. now subst.
  - intros Hin. exists a. split; [assumption|apply eqb_refl].
Qed.

Lemma overlaps_symmetric_spec crossword x y i j :
  overlaps_symmetric crossword = true ->
  dict_get (x, y) (overlaps crossword) = Some (Some (i, j)) ->
  x <> y /\ In x (variables crossword) /\ In y (variables crossword) /\
  dict_get (y, x) (overlaps crossword) = Some (Some (j, i)).
Proof.
  intros Hwf Hget. apply dict_get_In in Hget.
  unfold overlaps_symmetric in Hwf. rewrite forallb_forall in Hwf.
  specialize (Hwf _ Hget). simpl in Hwf.
  apply andb_prop in Hwf. destruct Hwf as [Hwf Hsym].
  apply andb_prop in Hwf. destruct Hwf as [Hwf Hy].
  apply andb_prop in Hwf. destruct Hwf as [Hne Hx].
  apply negb_true_iff, eqb_false in Hne.
  apply existsb_eqb_In in Hx, Hy.
  destruct (dict_get (y, x) (overlaps crossword)) as [[[j' i']|]|];
    try discriminate.
  apply andb_prop in Hsym. destruct Hsym as [Hi Hj].
  apply Nat.eqb_eq in Hi, Hj. subst. auto.
Qed.

Lemma neighbors_spec crossword x z :
  In z (neighbors crossword x) <->
  In z (variables crossword) /\ z <> x /\
  exists o, dict_get (z, x) (overlaps crossword) = Some (Some o).
Proof.
  unfold neighbors. rewrite filter_In. split.
  - intros [Hin Hb]. apply andb_prop in Hb. destruct Hb as [Hne Hov].
    apply negb_true_iff, eqb_false in Hne.
    destruct (dict_get (z, x) (overlaps crossword)) as [[o|]|]; try discriminate.
    eauto.
  - intros (Hin & Hne & o & Hov). split; [assumption|].
    rewrite Hov. apply andb_true_intro. split; [|reflexivity].
    now apply negb_true_iff, eqb_false.
Qed.

Lemma neighbors_length crossword x :
  List.length (neighbors crossword x) <= List.length (variables crossword).
Proof. unfold neighbors. apply filter_length_le. Qed.

(** ** Arc consistency: the invariant of AC-3 *)

Lemma forallb_filter_id {A} (f : A -> bool) l :
  forallb f l = true -> filter f l = l.
Proof.
  induction l as [|a l IH]; simpl; [reflexivity|].
  intros Hall. apply andb_prop in Hall. destruct Hall as [-> Hall].
  now rewrite IH.
Qed.

(** Shrinking the domain of [x] keeps every arc that does not point to
    [x] consistent. *)
Lemma arc_consistent_set_other d x domain_x s' a b i j :
  b <> x ->
  dict_get x d = Some domain_x ->
  incl s' domain_x ->
  arc_consistent d a b i j ->
  arc_consistent (dict_set x s' d) a b i j.
Proof.
  intros Hb Hx Hincl [Ha Hall]. split.
  - destruct (eq_dec x a) as [<-|Hne].
    + rewrite dict_get_set_same. discriminate.
    + now rewrite dict_get_set_other.
  - intros v Hin.
    rewrite dom_set_other by congruence.
    rewrite dict_get_set_other by congruence.
    apply Hall. destruct (eq_dec x a) as [<-|Hne].
    + rewrite dom_set_same in Hin. rewrite (dom_get Hx). auto.
    + now rewrite dom_set_other in Hin.
Qed.

(** Removing from [x] the words without a partner in [y] keeps the
    reverse arc consistent: the partner in [x] of a word of [y] has that
    word as its partner. *)
Lemma arc_consistent_set_reverse d x y domain_x i j :
  x <> y ->
  dict_get x d = Some domain_x ->
  (forall v, In v domain_x ->
             exists h, has_corresponding_value v i j (dom d y) = Ok h) ->
  arc_consistent d y x j i ->
  arc_consistent
    (dict_set x (filter (supported i j (dom d y)) domain_x) d) y x j i.
Proof.
  intros Hxy Hx Hall [Hy Hc]. split.
  - now rewrite dict_get_set_other.
  - intros v Hin. rewrite dom_set_other in Hin by assumption.
    destruct (Hc v Hin) as [_ Hv]. rewrite (dom_get Hx) in Hv.
    split; [rewrite dict_get_set_same; discriminate|].
    rewrite dom_set_same.
    apply has_corresponding_value_filter; [assumption|].
    intros w c Hw Hgv Hgw. apply supported_true.
    destruct (Hall w Hw) as ([|] & Hh); [assumption|].
    destruct (has_corresponding_value_false _ _ _ _ Hh v Hin)
      as (a & b & Ha & Hb & Hab).
    congruence.
Qed.

Section AC3.
Variable crossword : Crossword.
Hypothesis Hwf : overlaps_symmetric crossword = true.

(** One turn of the loop keeps the invariant. *)
Lemma ac3_step x y queue d revised d1 :
  ac3_inv crossword d ((x, y) :: queue) ->
  revise crossword x y d = Ok (revised, d1) ->
  ac3_inv crossword d1
    (if revised
     then queue ++ map (fun z => (z, x))
                       (filter (fun z => negb (eqb z y)) (neighbors crossword x))
     else queue).
Proof.
  intros Hinv Hrun.
  destruct (dict_get (x, y) (overlaps crossword)) as [[[i j]|]|] eqn:Hov.
  - (* a defined overlap *)
    destruct (overlaps_symmetric_spec _ _ _ _ _ Hwf Hov) as (Hxy & Hxin & Hyin & Hsym).
    destruct (revise_inv crossword x y i j Hov d revised d1 Hxy Hrun)
      as (domain_x & Hx & Hall & Hd1 & Hrev).
    intros a b i' j' Hab.
    destruct (eq_dec (a, b) (x, y)) as [Heq|Hne].
    + (* the arc just revised *)
      inversion Heq; subst a b. right.
      assert (i' = i /\ j' = j) as [-> ->] by (split; congruence).
      rewrite Hd1. split; [rewrite dict_get_set_same; discriminate|].
      intros v Hin. rewrite dom_set_same in Hin. apply filter_In in Hin.
      destruct Hin as [Hin Hsup].
      rewrite dict_get_set_other, dom_set_other by assumption.
      split; [now apply (Hall v)|now apply supported_true].
    + destruct (Hinv a b i' j' Hab) as [[Heq|Hin]|Hc]; [congruence| |].
      * left. destruct revised; [apply in_or_app|]; auto.
      * destruct revised.
        2:{ right. symmetry in Hrev. apply negb_false_iff in Hrev.
            rewrite Hd1, (forallb_filter_id _ _ Hrev).
            now rewrite (dict_set_get_id _ _ _ Hx). }
        destruct (eq_dec b x) as [->|Hbx].
        -- (* an arc into [x] *)
           destruct (overlaps_symmetric_spec _ _ _ _ _ Hwf Hab)
             as (Hax & Hain & _ & _).
           destruct (eq_dec a y) as [->|Hay].
           ++ right. assert (i' = j /\ j' = i) as [-> ->] by (split; congruence).
              rewrite Hd1. apply arc_consistent_set_reverse; auto.
              intros v Hv. now apply Hall.
           ++ left. apply in_or_app. right.
              apply in_map_iff. exists a. split; [reflexivity|].
              apply filter_In. split.
              ** apply neighbors_spec. eauto.
              ** now apply negb_true_iff, eqb_false.
        -- right. rewrite Hd1.
           apply (arc_consistent_set_other _ _ domain_x); auto.
           intros w Hw. now apply filter_In in Hw.
  - (* no overlap: nothing happens *)
    rewrite (revise_no_overlap _ _ _ _ Hov) in Hrun. inv_step Hrun.
    intros a b i' j' Hab.
    destruct (Hinv a b i' j' Hab) as [[Heq|Hin]|Hc]; auto.
    inversion Heq; subst. congruence.
  - (* a missing key raises *)
    unfold revise, bind, lift, dict_lookup in Hrun. rewrite Hov in Hrun.
    discriminate.
Qed.

Lemma ac3_loop_sound fuel :
  forall queue d d',
    ac3_inv crossword d queue ->
    ac3_loop crossword fuel queue d = Ok (true, d') ->
    ac3_inv crossword d' [].
Proof.
  induction fuel as [|fuel IH]; intros [|[x y] queue] d d' Hinv Hrun;
    simpl in Hrun.
  - inv_step Hrun. assumption.
  - discriminate.
  - inv_step Hrun. assumption.
  - apply bind_Ok in Hrun. destruct Hrun as (revised & d1 & Hrev & Hk).
    pose proof (ac3_step _ _ _ _ _ _ Hinv Hrev) as Hinv1.
    destruct revised.
    + apply bind_Ok in Hk. destruct Hk as (domain_x & d2 & Hm & Hk).
      inv_step Hm. destruct (List.length domain_x =? 0).
      * inv_step Hk. discriminate.
      * eapply IH; eauto.
    + eapply IH; eauto.
Qed.

Lemma ac3_inv_initial d :
  ac3_inv crossword d (dict_keys (overlaps crossword)).
Proof.
  intros x y i j Hov. left. apply dict_get_In_keys. congruence.
Qed.

(** On a store where every arc is consistent the loop removes nothing. *)
Lemma ac3_loop_fixpoint queue :
  forall fuel d,
    ac3_inv crossword d [] ->
    (forall arc, In arc queue -> dict_get arc (overlaps crossword) <> None) ->
    List.length queue <= fuel ->
    ac3_loop crossword fuel queue d = Ok (true, d).
Proof.
  induction queue as [|[x y] queue IH]; intros fuel d Hinv Hkeys Hfuel.
  - destruct fuel; reflexivity.
  - destruct fuel as [|fuel]; [simpl in Hfuel; lia|].
    simpl.
    assert (revise crossword x y d = Ok (false, d)) as Hrev.
    { destruct (dict_get (x, y) (overlaps crossword)) as [[[i j]|]|] eqn:Hov.
      - destruct (Hinv x y i j Hov) as [[]|Hc].
        now apply (revise_consistent crossword x y i j Hov).
      - now apply revise_no_overlap.
      - exfalso. apply (Hkeys (x, y)); [now left|assumption]. }
    rewrite (bind_eq _ Hrev).
    apply IH; auto.
    + intros arc Hin. apply Hkeys. now right.
    + simpl in Hfuel. lia.
Qed.

End AC3.

(** A failing [ac3] stops right after a [revise] that emptied a domain. *)
Lemma ac3_loop_false crossword fuel :
  forall queue d d',
    ac3_loop crossword fuel queue d = Ok (false, d') ->
    exists x y d1,
      shrunk d1 d /\
      revise crossword x y d1 = Ok (true, d') /\
      dict_get x d' = Some [].
Proof.
  induction fuel as [|fuel IH]; intros [|[x y] queue] d d' Hrun;
    simpl in Hrun; try (inv_step Hrun; discriminate).
  apply bind_Ok in Hrun. destruct Hrun as (revised & d1 & Hrev & Hk).
  pose proof (shrinking_revise crossword x y _ _ _ Hrev) as Hs.
  destruct revised.
  - apply bind_Ok in Hk. destruct Hk as (domain_x & d2 & Hm & Hk).
    inv_step Hm. destruct domain_x as [|w l]; simpl in Hk.
    + inv_step Hk. exists x, y, d. split; [apply shrunk_refl|]. auto.
    + destruct (IH _ _ _ Hk) as (x' & y' & d2 & Hs2 & Hrev2 & Hx2).
      exists x', y', d2. split; [eapply shrunk_trans; eauto|]. auto.
  - destruct (IH _ _ _ Hk) as (x' & y' & d2 & Hs2 & Hrev2 & Hx2).
    exists x', y', d2. split; [eapply shrunk_trans; eauto|]. auto.
Qed.

(** ** The domain store over a run *)

Lemma init_domains_fold ws vs :
  forall (d : Domains) var,
    dict_get var (fold_left (fun d var => dict_set var ws d) vs d)
    = if in_dec eq_dec var vs then Some ws else dict_get var d.
Proof.
  induction vs as [|v vs IH]; intros d var; simpl; [reflexivity|].
  rewrite IH. destruct (eq_dec v var) as [->|Hne].
  - rewrite dict_get_set_same. now destruct (in_dec eq_dec var vs).
  - rewrite dict_get_set_other by assumption.
    now destruct (in_dec eq_dec var vs).
Qed.

Lemma init_domains_get crossword var :
  dict_get var (init_domains crossword)
  = if in_dec eq_dec var (variables crossword)
    then Some (words crossword) else None.
Proof. unfold init_domains. now rewrite init_domains_fold. Qed.

Lemma shrinking_run_calls crossword cs : shrinking (run_calls crossword cs).
Proof.
  unfold run_calls. apply shrinking_forM_. intros [|x y|arcs]; simpl.
  - apply shrinking_enforce_node_consistency.
  - apply shrinking_bind; [apply shrinking_revise|intros; apply shrinking_ret].
  - apply shrinking_bind; [apply shrinking_ac3|intros; apply shrinking_ret].
Qed.


(** ** Stable sorting *)

Section SortFacts.
Context {A : Type} (key : A -> nat).

Let leb_key (a b : A) : bool := key a <=? key b.

Lemma insert_by_perm (leb : A -> A -> bool) a l :
  Permutation (insert_by leb a l) (a :: l).
Proof.
  induction l as [|b l IH]; simpl; [reflexivity|].
  destruct (leb a b); [reflexivity|].
  rewrite IH. apply perm_swap.
Qed.

Lemma sort_by_perm (leb : A -> A -> bool) l : Permutation (sort_by leb l) l.
Proof.
  induction l as [|a l IH]; simpl; [reflexivity|].
  rewrite insert_by_perm. now constructor.
Qed.

Lemma insert_by_sorted a l :
  StronglySorted (fun a b => key a <= key b) l ->
  StronglySorted (fun a b => key a <= key b) (insert_by leb_key a l).
Proof.
  induction l as [|b l IH]; intros Hs; simpl.
  - repeat constructor.
  - inversion Hs as [|? ? Hs' Hall]; subst. unfold leb_key at 1.
    destruct (key a <=? key b) eqn:Hle.
    + apply Nat.leb_le in Hle. constructor; [assumption|].
      constructor; [assumption|].
      eapply Forall_impl; [|exact Hall]. simpl. intros; lia.
    + apply Nat.leb_gt in Hle. constructor; [auto|].
      eapply Permutation_Forall; [symmetry; apply insert_by_perm|].
      constructor; [lia|assumption].
Qed.

Lemma sort_by_sorted l :
  StronglySorted (fun a b => key a <= key b) (sort_by leb_key l).
Proof.
  induction l as [|a l IH]; simpl; [constructor|].
  now apply insert_by_sorted.
Qed.

(** Stability: the elements of one key keep their order. *)
Lemma insert_by_stable c a l :
  filter (fun b => key b =? c) (insert_by leb_key a l)
  = filter (fun b => key b =? c) (a :: l).
Proof.
  induction l as [|b l IH]; simpl; [reflexivity|].
  unfold leb_key at 1. destruct (key a <=? key b) eqn:Hle; [reflexivity|].
  apply Nat.leb_gt in Hle. simpl. rewrite IH. simpl.
  destruct (key a =? c) eqn:Ha, (key b =? c) eqn:Hb; try reflexivity.
  apply Nat.eqb_eq in Ha, Hb. lia.
Qed.

Lemma sort_by_stable c l :
  filter (fun b => key b =? c) (sort_by leb_key l)
  = filter (fun b => key b =? c) l.
Proof.
  induction l as [|a l IH]; simpl; [reflexivity|].
  rewrite insert_by_stable. simpl. now rewrite IH.
Qed.

(** Sorting the pairs (element, key) on the key and dropping the keys
    sorts the elements. *)
Lemma insert_by_decorated a l :
  insert_by (fun p q : A * nat => snd p <=? snd q) (a, key a)
            (map (fun b => (b, key b)) l)
  = map (fun b => (b, key b)) (insert_by leb_key a l).
Proof.
  induction l as [|b l IH]; simpl; [reflexivity|].
  unfold leb_key at 1. destruct (key a <=? key b); [reflexivity|].
  simpl. now rewrite IH.
Qed.

Lemma sort_by_decorated l :
  map fst (sort_by (fun p q : A * nat => snd p <=? snd q)
                   (map (fun b => (b, key b)) l))
  = sort_by leb_key l.
Proof.
  assert (sort_by (fun p q : A * nat => snd p <=? snd q)
                  (map (fun b => (b, key b)) l)
          = map (fun b => (b, key b)) (sort_by leb_key l)) as ->.
  { induction l as [|a l IH]; simpl; [reflexivity|].
    now rewrite IH, insert_by_decorated. }
  rewrite map_map. simpl. apply map_id.
Qed.

End SortFacts.

(** ** [order_domain_values] *)

Section OrderDomainValues.
Variable crossword : Crossword.
Variables (var : Var) (assignment : Assignment).

Lemma count_loop_inv value ns :
  forall count d count' d',
    foldM (count_step crossword var assignment value) ns count d
    = Ok (count', d') ->
    d' = d /\
    count' =
    count +
    list_sum
      (map (fun neighbor =>
              List.length
                (filter (fun val => negb (eqb val value)) (dom d neighbor)))
           (filter (fun neighbor =>
                      negb (dict_mem neighbor assignment) &&
                      overlap_defined crossword var neighbor)
                   ns)).
Proof.
  induction ns as [|n ns IH]; intros count d count' d' Hrun; simpl in Hrun.
  - inv_step Hrun. simpl. split; [reflexivity|lia].
  - apply bind_Ok in Hrun. destruct Hrun as (c1 & d1 & Hstep & Hrest).
    unfold count_step in Hstep. simpl.
    destruct (negb (dict_mem n assignment)); simpl.
    + apply bind_Ok in Hstep. destruct Hstep as (overlap & d2 & Hm & Hk).
      inv_step Hm. apply dict_lookup_Ok in Hl. unfold overlap_defined.
      rewrite Hl. destruct overlap as [o|].
      * inv_step Hk. destruct (IH _ _ _ _ Hrest) as [-> ->].
        split; [reflexivity|]. simpl. rewrite (dom_get Hget).
        now rewrite Nat.add_assoc.
      * inv_step Hk. now apply IH.
    + inv_step Hstep. now apply IH.
Qed.

Lemma count_values_inv domain :
  forall d count_values d',
    mapM (fun value =>
            count <- foldM (count_step crossword var assignment value)
                           (neighbors crossword var) 0 ;;
            ret (value, count))
         domain d = Ok (count_values, d') ->
    d' = d /\
    count_values =
    map (fun value => (value, rule_out_count crossword d assignment var value))
        domain.
Proof.
  induction domain as [|value rest IH]; intros d count_values d' Hrun;
    simpl in Hrun.
  - inv_step Hrun. auto.
  - apply bind_Ok in Hrun. destruct Hrun as (p & d1 & Hm & Hk).
    apply bind_Ok in Hm. destruct Hm as (count & d2 & Hcount & Hret).
    inv_step Hret. apply count_loop_inv in Hcount. destruct Hcount as [-> ->].
    apply bind_Ok in Hk. destruct Hk as (ps & d3 & Hrest & Hret).
    inv_step Hret. apply IH in Hrest. destruct Hrest as [-> ->].
    split; [reflexivity|]. simpl. reflexivity.
Qed.

(** The result of [order_domain_values] is the domain sorted, stably, on
    [rule_out_count]. *)
Lemma order_domain_values_inv d values d' :
  order_domain_values crossword var assignment d = Ok (values, d') ->
  exists domain,
    dict_get var d = Some domain /\
    values =
    sort_by (fun a b => rule_out_count crossword d assignment var a
                        <=? rule_out_count crossword d assignment var b)
            domain.
Proof.
  unfold order_domain_values. intros Hrun.
  apply bind_Ok in Hrun. destruct Hrun as (domain & d1 & Hm & Hk).
  inv_step Hm. exists domain. split; [assumption|].
  apply bind_Ok in Hk. destruct Hk as (cvs & d2 & Hcv & Hret).
  inv_step Hret. apply count_values_inv in Hcv. destruct Hcv as [-> ->].
  apply (sort_by_decorated (rule_out_count crossword d assignment var)).
Qed.

End OrderDomainValues.


(** ** The checks of the search *)

Section Search.
Variable crossword : Crossword.

Lemma assignment_complete_inv a d b d' :
  assignment_complete crossword a d = Ok (b, d') ->
  d' = d /\ (b = true <-> assignment_total crossword a).
Proof.
  unfold assignment_complete. intros Hrun. inv_step Hrun.
  split; [reflexivity|]. rewrite forallb_forall. unfold assignment_total.
  split; intros Hall v Hin; specialize (Hall v Hin).
  - apply dict_mem_true in Hall. destruct (dict_get v a); [eauto|congruence].
  - apply dict_mem_true. destruct Hall as (w & ->). discriminate.
Qed.

Lemma nodup_length_NoDup (l : list string) :
  List.length (nodup string_dec l) = List.length l -> NoDup l.
Proof.
  induction l as [|a l IH]; simpl; [constructor|].
  pose proof (nodup_incl string_dec) as Hincl.
  assert (List.length (nodup string_dec l) <= List.length l) as Hle.
  { clear. induction l as [|b l IH]; simpl; [lia|].
    destruct (in_dec string_dec b l); simpl; lia. }
  destruct (in_dec string_dec a l) as [Hin|Hnin]; simpl; intros Hlen.
  - lia.
  - constructor; [assumption|]. apply IH. lia.
Qed.

Lemma NoDup_values_distinct (a : Assignment) v1 v2 w :
  NoDup (dict_values a) -> In (v1, w) a -> In (v2, w) a -> v1 = v2.
Proof.
  unfold dict_values. induction a as [|[v0 w0] a IH]; simpl; [tauto|].
  intros Hnd H1 H2. inversion Hnd as [|? ? Hnotin Hnd']; subst.
  destruct H1 as [H1|H1], H2 as [H2|H2].
  - congruence.
  - inversion H1; subst. exfalso. apply Hnotin.
    change w with (snd (v2, w)). now apply in_map.
  - inversion H2; subst. exfalso. apply Hnotin.
    change w with (snd (v1, w)). now apply in_map.
  - auto.
Qed.

Lemma consistent_inner_true v1 w1 items :
  consistent_inner crossword v1 w1 items = Ok true ->
  forall v2 w2 i j,
    In (v2, w2) items -> v1 <> v2 ->
    dict_get (v1, v2) (overlaps crossword) = Some (Some (i, j)) ->
    exists c, String.get i w1 = Some c /\ String.get j w2 = Some c.
Proof.
  induction items as [|[v w] items IH]; simpl; [tauto|].
  intros Hrun v2 w2 i j Hin Hne Hov.
  destruct (eqb v1 v) eqn:Heq; simpl in Hrun.
  - apply eqb_true in Heq. subst v.
    destruct Hin as [Hin|Hin]; [congruence|eauto].
  - apply bindR_Ok in Hrun. destruct Hrun as (overlap & Hlk & Hk).
    apply dict_lookup_Ok in Hlk.
    destruct overlap as [[i0 j0]|].
    + apply bindR_Ok in Hk. destruct Hk as (c1 & Hc1 & Hk).
      apply bindR_Ok in Hk. destruct Hk as (c2 & Hc2 & Hk).
      apply str_index_Ok in Hc1, Hc2.
      destruct (Ascii.eqb c1 c2) eqn:Hc; simpl in Hk; [|discriminate].
      apply ascii_eqb_true in Hc. subst c2.
      destruct Hin as [Hin|Hin]; [|eauto].
      inversion Hin; subst. assert (i0 = i /\ j0 = j) as [-> ->] by (split; congruence).
      eauto.
    + destruct Hin as [Hin|Hin]; [|eauto].
      inversion Hin; subst. congruence.
Qed.

Lemma consistent_outer_true items1 items :
  consistent_outer crossword items1 items = Ok true ->
  forall v1 w1, In (v1, w1) items1 ->
                consistent_inner crossword v1 w1 items = Ok true.
Proof.
  induction items1 as [|[v w] items1 IH]; simpl; [tauto|].
  intros Hrun v1 w1 Hin. apply bindR_Ok in Hrun.
  destruct Hrun as ([|] & Hinner & Hk); [|discriminate].
  destruct Hin as [Hin|Hin]; [congruence|eauto].
Qed.

(** What the code checks implies what the design document calls
    consistent. *)
Lemma consistent_true a d d' :
  consistent crossword a d = Ok (true, d') ->
  assignment_consistent crossword a.
Proof.
  unfold consistent. intros Hrun.
  destruct (List.length (nodup string_dec (dict_values a)) =? List.length a)
    eqn:Hlen; simpl in Hrun; [|inv_step Hrun; discriminate].
  inv_step Hrun. apply Nat.eqb_eq in Hlen.
  assert (NoDup (dict_values a)) as Hnd.
  { apply nodup_length_NoDup. unfold dict_values in *.
    now rewrite Hlen, length_map. }
  split.
  - intros v1 v2 w1 w2 Hne H1 H2 ->.
    apply Hne. eapply NoDup_values_distinct; eauto using dict_get_In.
  - intros v1 v2 w1 w2 i j Hne H1 H2 Hov.
    eapply consistent_inner_true; eauto using dict_get_In.
    eapply consistent_outer_true; eauto using dict_get_In.
Qed.

(** ** The choice of the next slot *)

Lemma mapM_keyed_fst l :
  forall d keyed d',
    mapM (fun var => dv <- domains_get var ;; ret (var, List.length dv)) l d
    = Ok (keyed, d') ->
    map fst keyed = l.
Proof.
  induction l as [|v l IH]; intros d keyed d' Hrun; simpl in Hrun.
  - inv_step Hrun. reflexivity.
  - inv_step Hrun. simpl. f_equal. eauto.
Qed.

Lemma filterM_incl {A} (f : A -> M bool) l :
  forall d r d', filterM f l d = Ok (r, d') -> incl r l.
Proof.
  induction l as [|a l IH]; intros d r d' Hrun; simpl in Hrun.
  - inv_step Hrun. apply incl_refl.
  - inv_step Hrun. apply IH in Hm0.
    destruct a0; [apply incl_cons; [now left|]|]; now apply incl_tl.
Qed.

Lemma list_index_In {A} (l : list A) n a : list_index l n = Ok a -> In a l.
Proof.
  unfold list_index. destruct (nth_error l n) eqn:Hn; [|discriminate].
  intros Heq. inversion Heq; subst. eapply nth_error_In; eauto.
Qed.

(** The slot chosen is a key of the store that the assignment lacks. *)
Lemma select_unassigned_variable_inv a d var d' :
  select_unassigned_variable crossword a d = Ok (var, d') ->
  In var (dict_keys d) /\ dict_get var a = None.
Proof.
  unfold select_unassigned_variable. intros Hrun.
  apply bind_Ok in Hrun. destruct Hrun as (d0 & d1 & Hm & Hk). inv_step Hm.
  apply bind_Ok in Hk. destruct Hk as (keyed & d1 & Hkeyed & Hk).
  apply mapM_keyed_fst in Hkeyed.
  apply bind_Ok in Hk. destruct Hk as (first & d2 & Hfirst & Hk).
  apply bind_Ok in Hk. destruct Hk as (domain_first & d3 & Hdf & Hk).
  apply bind_Ok in Hk. destruct Hk as (tied & d4 & Htied & Hk).
  apply filterM_incl in Htied.
  assert (In var tied) as Hin.
  { destruct (List.length tied =? 1).
    - inv_step Hk. eapply list_index_In; eauto.
    - inv_step Hk. apply list_index_In in Hl.
      eapply Permutation_in; [apply sort_by_perm|exact Hl]. }
  apply Htied in Hin.
  assert (In var (map fst keyed)) as Hin'.
  { eapply Permutation_in; [|exact Hin]. apply Permutation_map, sort_by_perm. }
  rewrite Hkeyed in Hin'. apply filter_In in Hin'. destruct Hin' as [Hkey Hmem].
  split; [assumption|]. now apply negb_true_iff, dict_mem_false in Hmem.
Qed.

(** ** Undoing and soundness of [backtrack] *)

Lemma backtrack_loop_post rec var values :
  (forall a d r d', rec a d = Ok (r, d') -> backtrack_post crossword a r) ->
  forall a d r d',
    dict_get var a = None ->
    backtrack_loop crossword rec var values a d = Ok (r, d') ->
    match snd r with
    | None => fst r = a
    | Some result =>
        result = fst r /\ assignment_total crossword result /\
        assignment_consistent crossword result
    end.
Proof.
  intros Hrec. induction values as [|value rest IH]; intros a d r d' Hfresh Hrun;
    simpl in Hrun.
  - inv_step Hrun. simpl. reflexivity.
  - apply bind_Ok in Hrun. destruct Hrun as (ok & d1 & Hcons & Hk).
    apply bind_Ok in Hk. destruct Hk as ([a2 r2] & d2 & Hcall & Hk).
    assert (match r2 with
            | None => a2 = dict_set var value a
            | Some result =>
                result = a2 /\ assignment_total crossword result /\
                assignment_consistent crossword result
            end) as Hr2.
    { destruct ok.
      - apply consistent_true in Hcons.
        apply Hrec in Hcall. unfold backtrack_post in Hcall. simpl in Hcall.
        destruct r2; [|assumption]. intuition.
      - inv_step Hcall. reflexivity. }
    destruct r2 as [result|].
    + inv_step Hk. exact Hr2.
    + subst a2. apply bind_Ok in Hk. destruct Hk as (a3 & d3 & Hdel & Hk).
      inv_step Hdel. rewrite (dict_del_set_fresh _ _ _ Hfresh) in Hl.
      inversion Hl; subst a3. eapply IH; eauto.
Qed.

Lemma backtrack_fuel_post fuel :
  forall a d r d',
    backtrack_fuel crossword fuel a d = Ok (r, d') ->
    backtrack_post crossword a r.
Proof.
  induction fuel as [|fuel IH]; intros a d r d' Hrun; simpl in Hrun;
    [discriminate|].
  apply bind_Ok in Hrun. destruct Hrun as (complete & d1 & Hcomp & Hk).
  apply assignment_complete_inv in Hcomp. destruct Hcomp as [-> Hcomp].
  destruct complete.
  - inv_step Hk. unfold backtrack_post. simpl.
    split; [reflexivity|]. split; [now apply Hcomp|auto].
  - apply bind_Ok in Hk. destruct Hk as (var & d1 & Hsel & Hk).
    apply select_unassigned_variable_inv in Hsel. destruct Hsel as [_ Hfresh].
    apply bind_Ok in Hk. destruct Hk as (values & d2 & _ & Hloop).
    pose proof (backtrack_loop_post _ _ _ IH _ _ _ _ Hfresh Hloop) as Hpost.
    unfold backtrack_post. destruct (snd r); [|assumption]. intuition.
Qed.

Lemma backtrack_post_top a d r d' :
  backtrack crossword a d = Ok (r, d') -> backtrack_post crossword a r.
Proof.
  unfold backtrack. intros Hrun.
  apply bind_Ok in Hrun. destruct Hrun as (d0 & d1 & Hm & Hk). inv_step Hm.
  eapply backtrack_fuel_post; eauto.
Qed.

Lemma assignment_consistent_empty : assignment_consistent crossword [].
Proof. split; intros; discriminate. Qed.

Lemma solve_inv d result d' :
  solve crossword d = Ok (result, d') ->
  exists d1 d2 b r,
    enforce_node_consistency d = Ok (tt, d1) /\
    ac3 crossword None d1 = Ok (b, d2) /\
    backtrack crossword [] d2 = Ok (r, d') /\
    result = snd r.
Proof.
  unfold solve. intros Hrun.
  apply bind_Ok in Hrun. destruct Hrun as ([] & d1 & Henf & Hk).
  apply bind_Ok in Hk. destruct Hk as (b & d2 & Hac3 & Hk).
  apply bind_Ok in Hk. destruct Hk as (r & d3 & Hbt & Hk).
  inv_step Hk. exists d1, d2, b, r. auto.
Qed.

End Search.

(** ** A well-formed puzzle *)

Section WellFormed.
Variable crossword : Crossword.
Hypothesis Hwf : puzzle_well_formed crossword = true.

Lemma wf_between x y o :
  dict_get (x, y) (overlaps crossword) = Some o ->
  In x (variables crossword) /\ In y (variables crossword) /\
  (o <> None -> x <> y).
Proof.
  intros Hget. apply dict_get_In in Hget.
  unfold puzzle_well_formed in Hwf.
  apply andb_prop in Hwf. destruct Hwf as [Hwf' _].
  apply andb_prop in Hwf'. destruct Hwf' as [Hb _].
  unfold overlaps_between_slots in Hb. rewrite forallb_forall in Hb.
  specialize (Hb _ Hget). simpl in Hb.
  apply andb_prop in Hb. destruct Hb as [Hb Hne].
  apply andb_prop in Hb. destruct Hb as [Hx Hy].
  apply existsb_eqb_In in Hx, Hy. repeat split; auto.
  intros Ho. destruct o; [|congruence].
  now apply negb_true_iff, eqb_false in Hne.
Qed.

Lemma wf_total x y :
  In x (variables crossword) -> In y (variables crossword) -> x <> y ->
  exists o, dict_get (x, y) (overlaps crossword) = Some o.
Proof.
  intros Hx Hy Hne. unfold puzzle_well_formed in Hwf.
  apply andb_prop in Hwf. destruct Hwf as [Hwf' _].
  apply andb_prop in Hwf'. destruct Hwf' as [_ Ht].
  unfold overlaps_total in Ht. rewrite forallb_forall in Ht.
  specialize (Ht _ Hx). rewrite forallb_forall in Ht. specialize (Ht _ Hy).
  apply orb_prop in Ht. destruct Ht as [Ht|Ht].
  - now apply eqb_true in Ht.
  - apply dict_mem_true in Ht.
    destruct (dict_get (x, y) (overlaps crossword)); [eauto|congruence].
Qed.

Lemma wf_in_range x y i j :
  dict_get (x, y) (overlaps crossword) = Some (Some (i, j)) ->
  i < var_length x /\ j < var_length y.
Proof.
  intros Hget. apply dict_get_In in Hget.
  unfold puzzle_well_formed in Hwf.
  apply andb_prop in Hwf. destruct Hwf as [_ Hr].
  unfold overlaps_in_range in Hr. rewrite forallb_forall in Hr.
  specialize (Hr _ Hget). simpl in Hr.
  apply andb_prop in Hr. destruct Hr as [Hi Hj].
  now apply Nat.ltb_lt in Hi, Hj.
Qed.

End WellFormed.

(** ** Indexing within the length *)

Lemma string_get_lt w :
  forall i, i < String.length w -> exists c, String.get i w = Some c.
Proof.
  induction w as [|a w IH]; simpl; intros i Hlt; [lia|].
  destruct i as [|i]; [eauto|]. apply IH. lia.
Qed.

Lemma str_index_lt w i :
  i < String.length w -> exists c, str_index w i = Ok c.
Proof.
  intros Hlt. destruct (string_get_lt w i Hlt) as (c & Hc).
  exists c. now apply str_index_Ok.
Qed.

(** The test of [revise] returns when the indices are within the words. *)
Lemma has_corresponding_value_total value_x i j domain_y :
  i < String.length value_x ->
  (forall w, In w domain_y -> j < String.length w) ->
  exists h, has_corresponding_value value_x i j domain_y = Ok h.
Proof.
  intros Hi. induction domain_y as [|w l IH]; intros Hj; simpl; [eauto|].
  destruct (str_index_lt value_x i Hi) as (a & ->).
  destruct (str_index_lt w j) as (b & ->); [apply Hj; now left|].
  simpl. destruct (Ascii.eqb a b); [eauto|].
  apply IH. intros; apply Hj; now right.
Qed.

(** The test succeeds when a partner is in the domain. *)
Lemma has_corresponding_value_partner value_x i j domain_y value_y c :
  (forall w, In w domain_y -> j < String.length w) ->
  In value_y domain_y ->
  String.get i value_x = Some c -> String.get j value_y = Some c ->
  has_corresponding_value value_x i j domain_y = Ok true.
Proof.
  intros Hj Hin Hx Hy.
  induction domain_y as [|w l IH]; simpl; [destruct Hin|].
  apply str_index_Ok in Hx. rewrite Hx. simpl.
  destruct (str_index_lt w j) as (b & Hb); [apply Hj; now left|].
  rewrite Hb. simpl. destruct (Ascii.eqb c b) eqn:Hcb; [reflexivity|].
  destruct Hin as [->|Hin].
  - apply str_index_Ok in Hb. assert (b = c) by congruence. subst b.
    rewrite Ascii.eqb_refl in Hcb. discriminate.
  - apply str_index_Ok in Hx. apply IH; auto. intros; apply Hj; now right.
Qed.

(** ** Propagation on a well-formed puzzle *)

Lemma domains_size_set x s domain_x (d : Domains) :
  dict_get x d = Some domain_x ->
  domains_size (dict_set x s d) + List.length domain_x
  = domains_size d + List.length s.
Proof.
  unfold domains_size. induction d as [|[v dv] d IH]; simpl; [discriminate|].
  destruct (eq_dec x v) as [->|Hne]; intros Hget.
  - inversion Hget; subst. simpl. lia.
  - simpl. specialize (IH Hget). lia.
Qed.

Lemma store_ok_shrunk crossword d d' :
  store_ok crossword d -> shrunk d' d -> store_ok crossword d'.
Proof.
  intros [Hkeys Hwords] Hs. split.
  - intros v. rewrite <- Hkeys. specialize (Hs v).
    destruct (dict_get v d'), (dict_get v d); try tauto; split; congruence.
  - intros v w Hin. apply Hwords. specialize (Hs v). unfold dom in *.
    destruct (dict_get v d'), (dict_get v d); try tauto. auto.
Qed.

Lemma store_ok_get crossword d v :
  store_ok crossword d -> In v (variables crossword) ->
  exists s, dict_get v d = Some s.
Proof.
  intros [Hkeys _] Hin. apply Hkeys in Hin.
  destruct (dict_get v d); [eauto|congruence].
Qed.

Section Propagation.
Variable crossword : Crossword.
Hypothesis Hwf : puzzle_well_formed crossword = true.

(** [revise] on a key of [overlaps]: it returns, it keeps the store
    well formed and the words of every solution, and it reports a
    revision exactly when the store got smaller. *)
Lemma revise_ok x y d :
  store_ok crossword d ->
  dict_get (x, y) (overlaps crossword) <> None ->
  exists revised d1,
    revise crossword x y d = Ok (revised, d1) /\
    store_ok crossword d1 /\
    (forall s, solution crossword s -> keeps crossword d s ->
               keeps crossword d1 s) /\
    (revised = false -> d1 = d) /\
    (revised = true -> domains_size d1 < domains_size d).
Proof.
  intros Hok Hkey.
  destruct (dict_get (x, y) (overlaps crossword)) as [[[i j]|]|] eqn:Hov;
    [| |congruence].
  2:{ exists false, d. rewrite (revise_no_overlap _ _ _ _ Hov).
      split; [reflexivity|]. split; [assumption|]. split; [auto|].
      split; [reflexivity|discriminate]. }
  destruct (wf_between crossword Hwf _ _ _ Hov) as (Hx & Hy & Hxy).
  assert (x <> y) as Hne by (apply Hxy; discriminate).
  destruct (wf_in_range crossword Hwf _ _ _ _ Hov) as [Hi Hj].
  destruct (store_ok_get _ _ _ Hok Hx) as (domain_x & Hgx).
  destruct (store_ok_get _ _ _ Hok Hy) as (domain_y & Hgy).
  pose proof Hok as [Hkeys Hwords].
  assert (forall w, In w (dom d y) -> j < String.length w) as Hjs.
  { intros w Hw. destruct (Hwords y w Hw) as [-> _]. assumption. }
  destruct (revise_total crossword x y i j Hov d Hne) as (revised & d1 & Hrun).
  { congruence. }
  { congruence. }
  { intros v Hv. apply has_corresponding_value_total; [|assumption].
    destruct (Hwords x v Hv) as [-> _]. assumption. }
  exists revised, d1. split; [assumption|].
  pose proof (shrinking_revise crossword x y _ _ _ Hrun) as Hs.
  split; [eapply store_ok_shrunk; eauto|].
  destruct (revise_inv crossword x y i j Hov d revised d1 Hne Hrun)
    as (dx & Hgx' & Hall & Hd1 & Hrev).
  assert (dx = domain_x) by congruence. subst dx.
  split; [|split].
  - intros s Hsol Hkeep v w Hv Hs_v. rewrite Hd1.
    destruct (eq_dec x v) as [<-|Hxv].
    + rewrite dom_set_same. apply filter_In.
      pose proof (Hkeep x w Hv Hs_v) as Hw. rewrite (dom_get Hgx) in Hw.
      split; [assumption|]. apply supported_true.
      destruct Hsol as [Htotal [_ Hagree]].
      destruct (Htotal y Hy) as (wy & Hs_y & _ & _).
      destruct (Hagree x y w wy i j Hne Hs_v Hs_y Hov) as (c & Hcx & Hcy).
      apply (has_corresponding_value_partner _ _ _ _ wy c); auto.
    + rewrite dom_set_other by assumption. now apply Hkeep.
  - intros ->. symmetry in Hrev. apply negb_false_iff in Hrev.
    rewrite Hd1, (forallb_filter_id _ _ Hrev).
    now rewrite (dict_set_get_id _ _ _ Hgx).
  - intros ->. symmetry in Hrev. apply negb_true_iff in Hrev.
    assert (exists v, In v domain_x /\ supported i j (dom d y) v = false)
      as (v & Hv & Hsup).
    { clear -Hrev. induction domain_x as [|v l IH]; simpl in Hrev; [discriminate|].
      destruct (supported i j (dom d y) v) eqn:Hs.
      - destruct (IH Hrev) as (v' & Hv' & Hs'). exists v'. simpl. auto.
      - exists v. simpl. auto. }
    pose proof (filter_length_lt (supported i j (dom d y)) domain_x v Hv Hsup).
    pose proof (domains_size_set x (filter (supported i j (dom d y)) domain_x)
                  _ d Hgx).
    rewrite Hd1. lia.
Qed.

(** The loop of [ac3] returns on a well-formed store, within the fuel of
    [ac3_fuel], and keeps the words of every solution. *)
Lemma ac3_loop_ok fuel :
  forall queue d,
    store_ok crossword d ->
    (forall arc, In arc queue -> dict_get arc (overlaps crossword) <> None) ->
    List.length queue
    + domains_size d * List.length (variables crossword) <= fuel ->
    exists b d',
      ac3_loop crossword fuel queue d = Ok (b, d') /\
      store_ok crossword d' /\
      (forall s, solution crossword s -> keeps crossword d s ->
                 keeps crossword d' s).
Proof.
  induction fuel as [|fuel IH]; intros [|[x y] queue] d Hok Hkeys Hfuel.
  - exists true, d. auto.
  - simpl in Hfuel. lia.
  - exists true, d. auto.
  - simpl.
    destruct (revise_ok x y d Hok) as (revised & d1 & Hrun & Hok1 & Hkeep1 & Hsame & Hless).
    { apply Hkeys. now left. }
    rewrite (bind_eq _ Hrun). destruct revised.
    + specialize (Hless eq_refl).
      destruct (revise_true_nonempty _ _ _ _ _ Hrun) as (dx & Hgx & _).
      pose proof (shrinking_revise crossword x y _ _ _ Hrun) as Hs.
      destruct (shrunk_Some_inv _ _ _ _ Hs Hgx) as (dx1 & Hgx1 & _).
      rewrite (bind_eq _ (domains_get_eq Hgx1)).
      destruct (List.length dx1 =? 0).
      * exists false, d1. auto.
      * destruct (IH (queue ++
                      map (fun z => (z, x))
                          (filter (fun z => negb (eqb z y))
                                  (neighbors crossword x))) d1 Hok1)
          as (b & d' & Hloop & Hok' & Hkeep').
        -- intros arc Hin. apply in_app_or in Hin. destruct Hin as [Hin|Hin].
           ++ apply Hkeys. now right.
           ++ apply in_map_iff in Hin. destruct Hin as (z & <- & Hz).
              apply filter_In in Hz. destruct Hz as [Hz _].
              apply neighbors_spec in Hz. destruct Hz as (_ & _ & o & Ho).
              unfold Arc in *. simpl. rewrite Ho. discriminate.
        -- rewrite length_app, length_map. simpl in Hfuel.
           pose proof (filter_length_le (fun z => negb (eqb z y))
                         (neighbors crossword x)).
           pose proof (neighbors_length crossword x).
           nia.
        -- exists b, d'. split; [assumption|]. split; [assumption|].
           intros s Hsol Hk. apply Hkeep'; auto.
    + rewrite (Hsame eq_refl) in *.
      destruct (IH queue d Hok) as (b & d' & Hloop & Hok' & Hkeep').
      * intros arc Hin. apply Hkeys. now right.
      * simpl in Hfuel. lia.
      * exists b, d'. auto.
Qed.

Lemma ac3_ok d :
  store_ok crossword d ->
  exists b d',
    ac3 crossword None d = Ok (b, d') /\
    store_ok crossword d' /\
    (forall s, solution crossword s -> keeps crossword d s ->
               keeps crossword d' s).
Proof.
  intros Hok. unfold ac3. unfold bind, get_domains.
  apply ac3_loop_ok; auto.
  intros arc Hin. now apply dict_get_In_keys.
Qed.

End Propagation.

(** Node consistency on the initial store *)
Lemma enforce_node_consistency_ok crossword :
  exists d1,
    enforce_node_consistency (init_domains crossword) = Ok (tt, d1) /\
    store_ok crossword d1 /\
    (forall s, solution crossword s -> keeps crossword d1 s).
Proof.
  destruct (enforce_node_consistency_eq (init_domains crossword))
    as (d1 & Hrun & Hd1).
  exists d1. split; [assumption|].
  assert (forall v, dom d1 v
                    = if in_dec eq_dec v (variables crossword)
                      then filter (fits v) (words crossword) else []) as Hdom.
  { intros v. unfold dom. rewrite Hd1, init_domains_get.
    now destruct (in_dec eq_dec v (variables crossword)). }
  split; [split|].
  - intros v. rewrite Hd1, init_domains_get.
    destruct (in_dec eq_dec v (variables crossword)); simpl; split;
      congruence || tauto.
  - intros v w Hin. rewrite Hdom in Hin.
    destruct (in_dec eq_dec v (variables crossword)); [|destruct Hin].
    apply filter_In in Hin. destruct Hin as [Hin Hfit].
    split; [now apply Nat.eqb_eq in Hfit|assumption].
  - intros s [Htotal _] v w Hv Hs_v. rewrite Hdom.
    destruct (in_dec eq_dec v (variables crossword)); [|tauto].
    destruct (Htotal v Hv) as (w' & Hw' & Hin & Hlen).
    assert (w' = w) by congruence. subst w'.
    apply filter_In. split; [assumption|]. now apply Nat.eqb_eq.
Qed.

(** ** The search on a well-formed puzzle: every step returns *)

Lemma mapM_domains_eq {B} (f : Var -> list string -> B) l (d : Domains) :
  (forall v, In v l -> dict_get v d <> None) ->
  mapM (fun var => dv <- domains_get var ;; ret (f var dv)) l d
  = Ok (map (fun var => f var (dom d var)) l, d).
Proof.
  induction l as [|v l IH]; intros Hkeys; simpl; [reflexivity|].
  destruct (dict_get v d) as [dv|] eqn:Hget; [|exfalso; apply (Hkeys v); simpl; auto].
  unfold bind at 1. unfold bind at 1. rewrite (domains_get_eq Hget).
  unfold ret at 1. unfold bind at 1. rewrite IH by (intros; apply Hkeys; simpl; auto).
  unfold ret. now rewrite (dom_get Hget).
Qed.

Lemma filterM_domains_eq (p : list string -> bool) l (d : Domains) :
  (forall v, In v l -> dict_get v d <> None) ->
  filterM (fun var => dv <- domains_get var ;; ret (p dv)) l d
  = Ok (filter (fun var => p (dom d var)) l, d).
Proof.
  induction l as [|v l IH]; intros Hkeys; simpl; [reflexivity|].
  destruct (dict_get v d) as [dv|] eqn:Hget; [|exfalso; apply (Hkeys v); simpl; auto].
  unfold bind at 1. unfold bind at 1. rewrite (domains_get_eq Hget).
  unfold ret at 1. unfold bind at 1. rewrite IH by (intros; apply Hkeys; simpl; auto).
  unfold ret. now rewrite (dom_get Hget).
Qed.

Lemma list_index_head {A} (l : list A) :
  l <> [] -> exists a, list_index l 0 = Ok a.
Proof. destruct l as [|a l]; [congruence|]. intros _. exists a. reflexivity. Qed.

Lemma Permutation_not_nil {A} (l l' : list A) :
  Permutation l l' -> l <> [] -> l' <> [].
Proof.
  intros Hp Hne ->. apply Permutation_sym, Permutation_nil in Hp. congruence.
Qed.

Lemma map_not_nil {A B} (f : A -> B) l : l <> [] -> map f l <> [].
Proof. destruct l; simpl; congruence. Qed.

(** [select_unassigned_variable] returns as soon as the store has a slot
    that the assignment lacks. *)
Lemma select_unassigned_variable_total crossword a (d : Domains) v :
  In v (dict_keys d) -> dict_get v a = None ->
  exists var, select_unassigned_variable crossword a d = Ok (var, d).
Proof.
  intros Hv Hfresh. unfold select_unassigned_variable.
  unfold bind at 1, get_domains.
  set (unassigned := filter (fun var => negb (dict_mem var a)) (dict_keys d)).
  assert (forall u, In u unassigned -> dict_get u d <> None) as Hkeys.
  { intros u Hu. apply filter_In in Hu. now apply dict_get_In_keys. }
  assert (unassigned <> []) as Hne.
  { intros Hnil. assert (In v unassigned) as Hin.
    { apply filter_In. split; [assumption|].
      now apply negb_true_iff, dict_mem_false. }
    rewrite Hnil in Hin. destruct Hin. }
  rewrite (bind_eq _ (mapM_domains_eq (fun var dv => (var, List.length dv))
                        unassigned d Hkeys)).
  cbv beta.
  set (sorted := map fst (sort_by (fun a b : Var * nat => snd a <=? snd b)
                    (map (fun var => (var, List.length (dom d var))) unassigned))).
  assert (Permutation sorted unassigned) as Hperm.
  { unfold sorted. rewrite sort_by_perm, map_map. simpl. now rewrite map_id. }
  assert (sorted <> []) as Hsne.
  { eapply Permutation_not_nil; [symmetry; exact Hperm|assumption]. }
  destruct sorted as [|first rest] eqn:Hsorted; [congruence|].
  unfold bind at 1, lift, list_index. simpl nth_error. cbv iota.
  assert (forall u, In u (first :: rest) -> dict_get u d <> None) as Hkeys'.
  { intros u Hu. apply Hkeys. eapply Permutation_in; eauto. }
  destruct (dict_get first d) as [domain_first|] eqn:Hgf;
    [|exfalso; apply (Hkeys' first); simpl; auto].
  rewrite (bind_eq _ (domains_get_eq Hgf)).
  rewrite (bind_eq _ (filterM_domains_eq
                        (fun dv => List.length dv =? List.length domain_first)
                        (first :: rest) d Hkeys')).
  cbv beta.
  set (tied := filter (fun var => List.length (dom d var)
                                  =? List.length domain_first) (first :: rest)).
  assert (tied <> []) as Htne.
  { unfold tied. simpl. rewrite (dom_get Hgf), Nat.eqb_refl. discriminate. }
  destruct (List.length tied =? 1).
  - destruct tied as [|var tied']; [congruence|]. exists var. reflexivity.
  - match goal with
    | |- context [sort_by ?leb tied] =>
        pose proof (sort_by_perm leb tied) as Hp;
        destruct (sort_by leb tied) as [|var sorted']
    end.
    + exfalso. apply Htne. now apply Permutation_nil.
    + exists var. reflexivity.
Qed.

Section SearchSteps.
Variable crossword : Crossword.
Hypothesis Hwf : puzzle_well_formed crossword = true.
Variable d : Domains.
Hypothesis Hok : store_ok crossword d.

Lemma count_loop_total var a value ns :
  In var (variables crossword) ->
  (forall n, In n ns -> In n (neighbors crossword var)) ->
  forall count,
    exists count',
      foldM (count_step crossword var a value) ns count d = Ok (count', d).
Proof.
  intros Hvar. induction ns as [|n ns IH]; intros Hns count; simpl.
  - exists count. reflexivity.
  - assert (In n (neighbors crossword var)) as Hn by (apply Hns; now left).
    apply neighbors_spec in Hn. destruct Hn as (Hnin & Hne & _).
    assert (exists c1, count_step crossword var a value count n d = Ok (c1, d))
      as (c1 & Hstep).
    { unfold count_step. destruct (negb (dict_mem n a)); [|eexists; reflexivity].
      destruct (wf_total crossword Hwf var n Hvar Hnin) as (o & Ho); [congruence|].
      unfold bind at 1, lift, dict_lookup. rewrite Ho.
      destruct o; [|eexists; reflexivity].
      destruct (store_ok_get _ _ _ Hok Hnin) as (dn & Hdn).
      rewrite (bind_eq _ (domains_get_eq Hdn)). eexists. reflexivity. }
    rewrite (bind_eq _ Hstep). apply IH. intros; apply Hns; now right.
Qed.

(** [order_domain_values] returns a permutation of the domain. *)
Lemma order_domain_values_total var a :
  In var (variables crossword) ->
  exists values,
    order_domain_values crossword var a d = Ok (values, d) /\
    Permutation values (dom d var).
Proof.
  intros Hvar. destruct (store_ok_get _ _ _ Hok Hvar) as (domain & Hget).
  assert (exists count_values,
             mapM (fun value =>
                     count <- foldM (count_step crossword var a value)
                                    (neighbors crossword var) 0 ;;
                     ret (value, count))
                  domain d = Ok (count_values, d)) as (cvs & Hcvs).
  { clear Hget. induction domain as [|value rest IH]; simpl.
    - eexists. reflexivity.
    - destruct (count_loop_total var a value (neighbors crossword var) Hvar
                  (fun n H => H) 0) as (c & Hc).
      assert ((count <- foldM (count_step crossword var a value)
                              (neighbors crossword var) 0 ;;
               ret (value, count)) d = Ok ((value, c), d)) as Hstep.
      { rewrite (bind_eq _ Hc). reflexivity. }
      rewrite (bind_eq _ Hstep). destruct IH as (cvs & Hrest).
      rewrite (bind_eq _ Hrest). eexists. reflexivity. }
  assert (exists values, order_domain_values crossword var a d = Ok (values, d))
    as (values & Hrun).
  { unfold order_domain_values. rewrite (bind_eq _ (domains_get_eq Hget)).
    rewrite (bind_eq _ Hcvs). eexists. reflexivity. }
  exists values. split; [assumption|].
  apply order_domain_values_inv in Hrun. destruct Hrun as (domain' & Hget' & ->).
  rewrite (dom_get Hget'). apply sort_by_perm.
Qed.

(** [consistent] on the assignments of the search *)

Lemma consistent_inner_total v1 w1 items :
  In v1 (variables crossword) -> String.length w1 = var_length v1 ->
  (forall v2 w2, In (v2, w2) items ->
                 In v2 (variables crossword) /\
                 String.length w2 = var_length v2) ->
  exists b, consistent_inner crossword v1 w1 items = Ok b.
Proof.
  intros Hv1 Hw1. induction items as [|[v2 w2] items IH]; intros Hitems; simpl.
  - eauto.
  - assert (exists b, consistent_inner crossword v1 w1 items = Ok b) as Hrest.
    { apply IH. intros; apply Hitems; now right. }
    destruct (eqb v1 v2) eqn:Heq; simpl; [assumption|].
    apply eqb_false in Heq.
    destruct (Hitems v2 w2) as [Hv2 Hw2]; [now left|].
    destruct (wf_total crossword Hwf v1 v2 Hv1 Hv2 Heq) as (o & Ho).
    unfold dict_lookup. rewrite Ho. simpl.
    destruct o as [[i j]|]; [|assumption].
    destruct (wf_in_range crossword Hwf _ _ _ _ Ho) as [Hi Hj].
    destruct (str_index_lt w1 i) as (c1 & ->); [lia|].
    destruct (str_index_lt w2 j) as (c2 & ->); [lia|].
    simpl. destruct (Ascii.eqb c1 c2); simpl; eauto.
Qed.

Lemma consistent_outer_total items1 items :
  (forall v w, In (v, w) items1 ->
               In v (variables crossword) /\ String.length w = var_length v) ->
  (forall v w, In (v, w) items ->
               In v (variables crossword) /\ String.length w = var_length v) ->
  exists b, consistent_outer crossword items1 items = Ok b.
Proof.
  intros H1 H2. induction items1 as [|[v w] items1 IH]; simpl; [eauto|].
  destruct (H1 v w) as [Hv Hw]; [now left|].
  destruct (consistent_inner_total v w items Hv Hw H2) as (b & ->). simpl.
  destruct b; [|eauto]. apply IH. intros; apply H1; now right.
Qed.

Lemma assign_ok_items a v w :
  assign_ok crossword d a -> In (v, w) a ->
  In v (variables crossword) /\ String.length w = var_length v.
Proof.
  intros [_ Hitems] Hin. destruct (Hitems v w Hin) as [Hv Hw].
  split; [assumption|]. destruct Hok as [_ Hwords]. now apply Hwords in Hw.
Qed.

Lemma consistent_total a :
  assign_ok crossword d a ->
  exists b, consistent crossword a d = Ok (b, d).
Proof.
  intros Ha. unfold consistent.
  destruct (negb _); [eexists; reflexivity|].
  destruct (consistent_outer_total a a) as (b & Hb);
    try (intros v w Hin; now apply (assign_ok_items a)).
  exists b. unfold lift. now rewrite Hb.
Qed.

(** A part of a solution passes the check. *)

Lemma consistent_inner_part s v1 w1 items :
  solution crossword s ->
  dict_get v1 s = Some w1 ->
  (forall v2 w2, In (v2, w2) items -> dict_get v2 s = Some w2) ->
  forall b, consistent_inner crossword v1 w1 items = Ok b -> b = true.
Proof.
  intros [_ [_ Hagree]] Hs1.
  induction items as [|[v2 w2] items IH]; intros Hitems b Hrun; simpl in Hrun.
  - congruence.
  - assert (forall b, consistent_inner crossword v1 w1 items = Ok b -> b = true)
      as Hrest.
    { apply IH. intros; apply Hitems; now right. }
    destruct (eqb v1 v2) eqn:Heq; simpl in Hrun; [auto|].
    apply eqb_false in Heq.
    apply bindR_Ok in Hrun. destruct Hrun as (o & Ho & Hk).
    apply dict_lookup_Ok in Ho.
    destruct o as [[i j]|]; [|auto].
    apply bindR_Ok in Hk. destruct Hk as (c1 & Hc1 & Hk).
    apply bindR_Ok in Hk. destruct Hk as (c2 & Hc2 & Hk).
    apply str_index_Ok in Hc1, Hc2.
    destruct (Hagree v1 v2 w1 w2 i j Heq Hs1 (Hitems v2 w2 (or_introl eq_refl)) Ho)
      as (c & Hc1' & Hc2').
    assert (c1 = c2) by congruence. subst c2.
    rewrite Ascii.eqb_refl in Hk. simpl in Hk. auto.
Qed.

Lemma consistent_outer_part s items1 items :
  solution crossword s ->
  (forall v w, In (v, w) items1 -> dict_get v s = Some w) ->
  (forall v w, In (v, w) items -> dict_get v s = Some w) ->
  forall b, consistent_outer crossword items1 items = Ok b -> b = true.
Proof.
  intros Hsol H1 H2.
  induction items1 as [|[v w] items1 IH]; intros b Hrun; simpl in Hrun.
  - congruence.
  - apply bindR_Ok in Hrun. destruct Hrun as (ok & Hinner & Hk).
    apply (consistent_inner_part s v w items Hsol) in Hinner; auto.
    + subst ok. apply IH; auto. intros; apply H1; now right.
    + apply H1. now left.
Qed.

Lemma part_of_values_NoDup s (a : Assignment) :
  assignment_consistent crossword s ->
  NoDup (dict_keys a) -> part_of a s -> NoDup (dict_values a).
Proof.
  intros [Hdistinct _]. unfold dict_keys, dict_values, part_of.
  induction a as [|[v w] a IH]; simpl; intros Hnd Hpart; [constructor|].
  inversion Hnd as [|? ? Hnotin Hnd']; subst.
  constructor; [|apply IH; auto].
  intros Hin. apply in_map_iff in Hin. destruct Hin as ([v' w'] & Heq & Hin).
  simpl in Heq. subst w'.
  assert (v <> v') as Hne.
  { intros ->. apply Hnotin. change v' with (fst (v', w)). now apply in_map. }
  apply (Hdistinct v v' w w Hne); auto.
Qed.

Lemma consistent_part s a b d' :
  solution crossword s ->
  NoDup (dict_keys a) -> part_of a s ->
  consistent crossword a d = Ok (b, d') -> b = true.
Proof.
  intros Hsol Hnd Hpart Hrun. unfold consistent in Hrun.
  pose proof (part_of_values_NoDup s a (proj2 Hsol) Hnd Hpart) as Hvals.
  rewrite (nodup_fixed_point string_dec Hvals) in Hrun.
  unfold dict_values in Hrun. rewrite length_map, Nat.eqb_refl in Hrun.
  simpl in Hrun. inv_step Hrun.
  eapply consistent_outer_part; eauto.
Qed.

End SearchSteps.

(** ** The search on a well-formed puzzle: it finds a solution *)

Lemma forallb_false_exists {A} (f : A -> bool) l :
  forallb f l = false -> exists a, In a l /\ f a = false.
Proof.
  induction l as [|a l IH]; simpl; [discriminate|].
  destruct (f a) eqn:Hf; simpl.
  - intros Hl. destruct (IH Hl) as (b & Hb & Hfb). eauto.
  - intros _. eauto.
Qed.

Lemma filter_length_lt_strict {A} (f g : A -> bool) l a :
  (forall x, f x = true -> g x = true) ->
  In a l -> g a = true -> f a = false ->
  List.length (filter f l) < List.length (filter g l).
Proof.
  intros Hfg. 
  assert (forall l, List.length (filter f l) <= List.length (filter g l)) as Hle.
  { clear -Hfg. induction l as [|x l IH]; simpl; [lia|].
    destruct (f x) eqn:Hf.
    - rewrite (Hfg x Hf). simpl. lia.
    - destruct (g x); simpl; lia. }
  induction l as [|x l IH]; simpl; [tauto|].
  intros [->|Hin] Hg Hf.
  - rewrite Hg, Hf. simpl. specialize (Hle l). lia.
  - specialize (IH Hin Hg Hf). destruct (f x) eqn:Hfx.
    + rewrite (Hfg x Hfx). simpl. lia.
    + destruct (g x); simpl; lia.
Qed.

Lemma unassigned_count_set (d : Domains) (a : Assignment) var value :
  In var (dict_keys d) -> dict_get var a = None ->
  unassigned_count d (dict_set var value a) < unassigned_count d a.
Proof.
  intros Hkey Hfresh. unfold unassigned_count.
  apply (filter_length_lt_strict _ _ _ var); auto.
  - intros v Hv. apply negb_true_iff, dict_mem_false in Hv.
    apply negb_true_iff, dict_mem_false.
    destruct (eq_dec var v) as [<-|Hne].
    + now rewrite dict_get_set_same in Hv.
    + now rewrite dict_get_set_other in Hv.
  - now apply negb_true_iff, dict_mem_false.
  - apply negb_false_iff, dict_mem_true. rewrite dict_get_set_same. discriminate.
Qed.

Lemma assign_ok_set crossword d a var value :
  assign_ok crossword d a ->
  dict_get var a = None -> In var (variables crossword) ->
  In value (dom d var) ->
  assign_ok crossword d (dict_set var value a).
Proof.
  intros [Hnd Hitems] Hfresh Hvar Hvalue. split.
  - rewrite (dict_keys_set_fresh _ _ _ Hfresh).
    apply NoDup_app; [assumption|repeat constructor; simpl; tauto|].
    intros v Hv [<-|[]]. apply dict_get_In_keys in Hv. congruence.
  - rewrite (dict_set_fresh_app _ _ _ Hfresh). intros v w Hin.
    apply in_app_or in Hin. destruct Hin as [Hin|[Heq|[]]]; [auto|].
    inversion Heq; subst. auto.
Qed.

Lemma part_of_set (a s : Assignment) var value :
  part_of a s -> dict_get var a = None -> dict_get var s = Some value ->
  part_of (dict_set var value a) s.
Proof.
  intros Hpart Hfresh Hs. rewrite (dict_set_fresh_app _ _ _ Hfresh).
  intros v w Hin. apply in_app_or in Hin.
  destruct Hin as [Hin|[Heq|[]]]; [auto|]. inversion Heq; subst. assumption.
Qed.

Section SearchComplete.
Variable crossword : Crossword.
Hypothesis Hwf : puzzle_well_formed crossword = true.
Variable d : Domains.
Hypothesis Hok : store_ok crossword d.

Lemma backtrack_loop_ok rec var a :
  assign_ok crossword d a ->
  dict_get var a = None ->
  In var (variables crossword) ->
  (forall value, In value (dom d var) ->
                 search_ok crossword d (dict_set var value a) (rec (dict_set var value a))) ->
  forall values,
    (forall value, In value values -> In value (dom d var)) ->
    exists r,
      backtrack_loop crossword rec var values a d = Ok (r, d) /\
      (forall result, snd r = Some result -> assign_ok crossword d result) /\
      (forall s w, solution crossword s -> keeps crossword d s ->
                   part_of a s -> dict_get var s = Some w -> In w values ->
                   snd r <> None).
Proof.
  intros Ha Hfresh Hvar Hrec.
  induction values as [|value rest IH]; intros Hvalues; simpl.
  - exists (a, None). split; [reflexivity|]. split; [discriminate|].
    intros s w _ _ _ _ [].
  - assert (In value (dom d var)) as Hvalue by (apply Hvalues; now left).
    pose proof (assign_ok_set _ _ _ _ _ Ha Hfresh Hvar Hvalue) as Ha1.
    destruct (consistent_total crossword Hwf d Hok _ Ha1) as (ok & Hcons).
    rewrite (bind_eq _ Hcons).
    destruct IH as (r & Hloop & Hres & Hcomplete).
    { intros; apply Hvalues; now right. }
    assert (dict_del var (dict_set var value a) = Ok a) as Hdel
        by now apply dict_del_set_fresh.
    destruct ok.
    + destruct (Hrec value Hvalue) as ([a2 r2] & Hcall & Hpost & Hres2 & Hcomp2).
      rewrite (bind_eq _ Hcall). unfold backtrack_post in Hpost. simpl in *.
      destruct r2 as [result|].
      * exists (a2, Some result). split; [reflexivity|]. split.
        -- intros result' Heq. apply Hres2. assumption.
        -- discriminate.
      * subst a2. unfold bind at 1, lift. rewrite Hdel.
        exists r. split; [assumption|]. split; [assumption|].
        intros s w Hsol Hkeep Hpart Hs [->|Hin]; [|eauto].
        exfalso. apply (Hcomp2 s); auto. now apply part_of_set.
    + unfold bind at 1, ret at 1. unfold bind at 1, lift. rewrite Hdel.
      exists r. split; [assumption|]. split; [assumption|].
      intros s w Hsol Hkeep Hpart Hs [->|Hin]; [|eauto].
      exfalso.
      assert (part_of (dict_set var w a) s) as Hpart1 by now apply part_of_set.
      pose proof (consistent_part crossword d s _ _ _ Hsol (proj1 Ha1) Hpart1 Hcons).
      discriminate.
Qed.

Lemma backtrack_fuel_ok fuel :
  forall a,
    assign_ok crossword d a ->
    unassigned_count d a < fuel ->
    search_ok crossword d a (backtrack_fuel crossword fuel a).
Proof.
  induction fuel as [|fuel IH]; intros a Ha Hfuel; [lia|].
  assert (forall r d', backtrack_fuel crossword (S fuel) a d = Ok (r, d') ->
                       backtrack_post crossword a r) as Hpost
      by (intros; eapply backtrack_fuel_post; eauto).
  cut (exists r,
          backtrack_fuel crossword (S fuel) a d = Ok (r, d) /\
          (forall result, snd r = Some result -> assign_ok crossword d result) /\
          (forall s, solution crossword s -> keeps crossword d s ->
                     part_of a s -> snd r <> None)).
  { intros (r & Hrun & Hres & Hcomp). exists r. eauto. }
  clear Hpost. simpl. unfold bind at 1, assignment_complete, ret at 1.
  destruct (forallb (fun variable => dict_mem variable a) (variables crossword))
    eqn:Hcomplete.
  - exists (a, Some a). split; [reflexivity|]. split.
    + intros result Heq. simpl in Heq. inversion Heq; subst. assumption.
    + discriminate.
  - apply forallb_false_exists in Hcomplete.
    destruct Hcomplete as (v & Hv & Hmem). apply dict_mem_false in Hmem.
    pose proof Hok as [Hkeys Hwords].
    assert (In v (dict_keys d)) as Hvkey by now apply dict_get_In_keys, Hkeys.
    destruct (select_unassigned_variable_total crossword a d v Hvkey Hmem)
      as (var & Hsel).
    rewrite (bind_eq _ Hsel).
    apply select_unassigned_variable_inv in Hsel. destruct Hsel as [Hvarkey Hfresh].
    assert (In var (variables crossword)) as Hvar
        by now apply Hkeys, dict_get_In_keys.
    destruct (order_domain_values_total crossword Hwf d Hok var a Hvar)
      as (values & Hord & Hperm).
    rewrite (bind_eq _ Hord).
    destruct (backtrack_loop_ok (backtrack_fuel crossword fuel) var a Ha Hfresh Hvar)
      with (values := values) as (r & Hloop & Hres & Hcomp).
    + intros value Hvalue. apply IH.
      * now apply assign_ok_set.
      * pose proof (unassigned_count_set d a var value Hvarkey Hfresh). lia.
    + intros value Hin. eapply Permutation_in; eauto.
    + exists r. split; [assumption|]. split; [assumption|].
      intros s Hsol Hkeep Hpart.
      destruct (proj1 Hsol var Hvar) as (w & Hs & _).
      apply (Hcomp s w); auto.
      eapply Permutation_in; [symmetry; exact Hperm|]. now apply (Hkeep var).
Qed.

Lemma backtrack_ok :
  search_ok crossword d [] (backtrack crossword []).
Proof.
  unfold backtrack.
  destruct (backtrack_fuel_ok (S (List.length (dict_keys d))) [])
    as (r & Hrun & Hrest).
  - split; [constructor|]. intros v w [].
  - unfold unassigned_count.
    pose proof (filter_length_le (fun v => negb (dict_mem v ([] : Assignment)))
                  (dict_keys d)). lia.
  - exists r. split; [|assumption]. unfold bind, get_domains. exact Hrun.
Qed.

End SearchComplete.

(** A check that an assignment is a solution *)
Lemma solution_check crossword s d d' :
  forallb
    (fun v =>
       match dict_get v s with
       | Some w =>
           existsb (eqb w) (words crossword) &&
           (String.length w =? var_length v)
       | None => false
       end)
    (variables crossword) = true ->
  consistent crossword s d = Ok (true, d') ->
  solution crossword s.
Proof.
  intros Hall Hcons. split; [|eapply consistent_true; eauto].
  rewrite forallb_forall in Hall. intros v Hv. specialize (Hall v Hv).
  destruct (dict_get v s) as [w|]; [|discriminate].
  apply andb_prop in Hall. destruct Hall as [Hw Hlen].
  exists w. split; [reflexivity|]. split.
  - now apply existsb_eqb_In.
  - now apply Nat.eqb_eq.
Qed.

(** ** The fuel is enough

    [ac3] and [backtrack] never come back with [OutOfFuel], on any puzzle
    and any store: the fuel they start with covers the run of the
    source. *)

Lemma runs_ret {A} (a : A) : runs (ret a).
Proof. intros d. simpl. lia. Qed.

Lemma runs_lift {A} (r : res A) : r <> OutOfFuel -> runs (lift r).
Proof. intros Hr d. unfold lift. destruct r; [lia|exact I|congruence]. Qed.

Lemma runs_get_domains : runs get_domains.
Proof. intros d. simpl. lia. Qed.

Lemma runs_domains_get var : runs (domains_get var).
Proof. intros d. unfold domains_get. destruct (dict_get var d); [lia|exact I]. Qed.

Lemma set_remove_length v s : List.length (set_remove v s) <= List.length s.
Proof. apply filter_length_le. Qed.

Lemma set_remove_length_lt v s :
  In v s -> List.length (set_remove v s) < List.length s.
Proof.
  intros Hin. apply (filter_length_lt _ _ v Hin). now rewrite eqb_refl.
Qed.

Lemma runs_domains_remove var value : runs (domains_remove var value).
Proof.
  intros d. unfold domains_remove.
  destruct (dict_get var d) as [s|] eqn:Hget; [|exact I].
  pose proof (domains_size_set var (set_remove value s) _ d Hget).
  pose proof (set_remove_length value s). lia.
Qed.

Lemma runs_bind {A B} (m : M A) (k : A -> M B) :
  runs m -> (forall a, runs (k a)) -> runs (bind m k).
Proof.
  intros Hm Hk d. unfold bind. specialize (Hm d).
  destruct (m d) as [[a d1]|e|]; [|exact I|assumption].
  specialize (Hk a d1). destruct (k a d1) as [[b d2]|e|]; [lia|exact I|assumption].
Qed.

Lemma runs_forM_ {A} (body : A -> M unit) l :
  (forall a, runs (body a)) -> runs (forM_ l body).
Proof.
  intros Hbody. induction l as [|a l IH]; simpl.
  - apply runs_ret.
  - apply runs_bind; auto.
Qed.

Lemma runs_foldM {A B} (body : B -> A -> M B) l :
  (forall b a, runs (body b a)) -> forall b, runs (foldM body l b).
Proof.
  intros Hbody. induction l as [|a l IH]; intros b; simpl.
  - apply runs_ret.
  - apply runs_bind; auto.
Qed.

Lemma runs_mapM {A B} (f : A -> M B) l :
  (forall a, runs (f a)) -> runs (mapM f l).
Proof.
  intros Hf. induction l as [|a l IH]; simpl.
  - apply runs_ret.
  - apply runs_bind; [auto|]. intros b.
    apply runs_bind; [auto|]. intros bs. apply runs_ret.
Qed.

Lemma runs_filterM {A} (f : A -> M bool) l :
  (forall a, runs (f a)) -> runs (filterM f l).
Proof.
  intros Hf. induction l as [|a l IH]; simpl.
  - apply runs_ret.
  - apply runs_bind; [auto|]. intros b.
    apply runs_bind; [auto|]. intros bs. apply runs_ret.
Qed.

Lemma runs_not_out_of_fuel {A} (m : M A) d : runs m -> m d <> OutOfFuel.
Proof. intros Hm Heq. specialize (Hm d). now rewrite Heq in Hm. Qed.

Lemma runs_size {A} (m : M A) d a d' :
  runs m -> m d = Ok (a, d') -> domains_size d' <= domains_size d.
Proof. intros Hm Heq. specialize (Hm d). now rewrite Heq in Hm. Qed.

(** The computations without state *)

Lemma dict_lookup_fuel {K V} `{EqDec K} (k : K) (m : dict K V) :
  dict_lookup k m <> OutOfFuel.
Proof. unfold dict_lookup. destruct (dict_get k m); discriminate. Qed.

Lemma dict_del_fuel {K V} `{EqDec K} (k : K) (m : dict K V) :
  dict_del k m <> OutOfFuel.
Proof.
  induction m as [|[k' v'] m IH]; simpl; [discriminate|].
  destruct (eq_dec k k'); [discriminate|].
  destruct (dict_del k m); simpl; congruence.
Qed.

Lemma str_index_fuel w i : str_index w i <> OutOfFuel.
Proof. unfold str_index. destruct (String.get i w); discriminate. Qed.

Lemma list_index_fuel {A} (l : list A) i : list_index l i <> OutOfFuel.
Proof. unfold list_index. destruct (nth_error l i); discriminate. Qed.

Lemma bindR_fuel {A B} (r : res A) (k : A -> res B) :
  r <> OutOfFuel -> (forall a, k a <> OutOfFuel) -> bindR r k <> OutOfFuel.
Proof. intros Hr Hk. destruct r; simpl; [apply Hk|discriminate|congruence]. Qed.

Lemma has_corresponding_value_fuel value_x i j domain_y :
  has_corresponding_value value_x i j domain_y <> OutOfFuel.
Proof.
  induction domain_y as [|w l IH]; simpl; [discriminate|].
  apply bindR_fuel; [apply str_index_fuel|]. intros a.
  apply bindR_fuel; [apply str_index_fuel|]. intros b.
  destruct (Ascii.eqb a b); [discriminate|assumption].
Qed.

Lemma consistent_inner_fuel crossword v1 w1 items :
  consistent_inner crossword v1 w1 items <> OutOfFuel.
Proof.
  induction items as [|[v2 w2] items IH]; simpl; [discriminate|].
  destruct (negb (eqb v1 v2)); [|assumption].
  apply bindR_fuel; [apply dict_lookup_fuel|]. intros [[i j]|]; [|assumption].
  apply bindR_fuel; [apply str_index_fuel|]. intros a.
  apply bindR_fuel; [apply str_index_fuel|]. intros b.
  destruct (negb (Ascii.eqb a b)); [discriminate|assumption].
Qed.

Lemma consistent_outer_fuel crossword items1 items :
  consistent_outer crossword items1 items <> OutOfFuel.
Proof.
  induction items1 as [|[v w] items1 IH]; simpl; [discriminate|].
  apply bindR_fuel; [apply consistent_inner_fuel|].
  intros [|]; [assumption|discriminate].
Qed.

#[export] Hint Resolve runs_ret runs_get_domains runs_domains_get
  runs_domains_remove dict_lookup_fuel dict_del_fuel str_index_fuel
  list_index_fuel has_corresponding_value_fuel consistent_inner_fuel
  consistent_outer_fuel : frame.

Ltac runs :=
  repeat first
    [ progress intros
    | match goal with
      | |- runs (bind _ _) => apply runs_bind
      | |- runs (lift _) => apply runs_lift
      | |- runs (forM_ _ _) => apply runs_forM_
      | |- runs (foldM _ _ _) => apply runs_foldM
      | |- runs (mapM _ _) => apply runs_mapM
      | |- runs (filterM _ _) => apply runs_filterM
      | |- runs (match ?x with _ => _ end) => destruct x
      end
    | solve [auto with frame] ].

Section Fuel.
Variable crossword : Crossword.

Lemma runs_enforce_node_consistency : runs enforce_node_consistency.
Proof. unfold enforce_node_consistency, enforce_node_consistency_var. runs. Qed.

Lemma runs_revise x y : runs (revise crossword x y).
Proof. unfold revise, revise_step. runs. Qed.

Lemma runs_assignment_complete a : runs (assignment_complete crossword a).
Proof. unfold assignment_complete. runs. Qed.

Lemma runs_consistent a : runs (consistent crossword a).
Proof. unfold consistent. runs. Qed.

Lemma runs_order_domain_values var a :
  runs (order_domain_values crossword var a).
Proof. unfold order_domain_values, count_step. runs. Qed.

Lemma runs_select_unassigned_variable a :
  runs (select_unassigned_variable crossword a).
Proof. unfold select_unassigned_variable. runs. Qed.

(** A revision removes a word. *)
Lemma revise_loop_size x y i j l :
  forall revised d revised' d',
    foldM (revise_step x y i j) l revised d = Ok (revised', d') ->
    revised = false -> revised' = true ->
    (forall v, In v l -> In v (dom d x)) ->
    domains_size d' < domains_size d.
Proof.
  induction l as [|v l IH]; intros revised d revised' d' Hrun Hf Ht Hincl.
  - simpl in Hrun. inv_step Hrun. congruence.
  - simpl in Hrun. apply bind_Ok in Hrun.
    destruct Hrun as (b1 & d1 & Hstep & Hrest).
    unfold revise_step in Hstep.
    apply bind_Ok in Hstep. destruct Hstep as (domain_y & d2 & Hgy & Hstep).
    inv_step Hgy.
    apply bind_Ok in Hstep. destruct Hstep as (has & d2 & Hhas & Hstep).
    inv_step Hhas. destruct has; simpl in Hstep.
    + inv_step Hstep. eapply IH; eauto. intros; apply Hincl; now right.
    + apply bind_Ok in Hstep. destruct Hstep as ([] & d2 & Hrem & Hret).
      inv_step Hret. apply domains_remove_Ok in Hrem.
      destruct Hrem as (s & Hs & ->).
      assert (In v s) as Hv.
      { rewrite <- (dom_get Hs). apply Hincl. now left. }
      pose proof (domains_size_set x (set_remove v s) _ d Hs).
      pose proof (set_remove_length_lt v s Hv).
      assert (runs (foldM (revise_step x y i j) l true)) as Hruns.
      { unfold revise_step. runs. }
      pose proof (runs_size _ _ _ _ Hruns Hrest). lia.
Qed.

Lemma revise_true_size x y d d' :
  revise crossword x y d = Ok (true, d') ->
  domains_size d' < domains_size d.
Proof.
  unfold revise. intros Hrun.
  apply bind_Ok in Hrun. destruct Hrun as (overlap & d1 & Hm & Hk). inv_step Hm.
  destruct overlap as [[i j]|]; [|inv_step Hk; discriminate].
  apply bind_Ok in Hk. destruct Hk as (domain_x & d2 & Hm & Hloop). inv_step Hm.
  eapply revise_loop_size; eauto.
  intros v Hv. now rewrite (dom_get Hget).
Qed.

Lemma ac3_loop_fuel fuel :
  forall queue d,
    List.length queue
    + domains_size d * List.length (variables crossword) <= fuel ->
    match ac3_loop crossword fuel queue d with
    | Ok (_, d') => domains_size d' <= domains_size d
    | Raise _ => True
    | OutOfFuel => False
    end.
Proof.
  induction fuel as [|fuel IH]; intros [|[x y] queue] d Hfuel; simpl.
  - lia.
  - simpl in Hfuel. lia.
  - lia.
  - unfold bind at 1. pose proof (runs_revise x y d) as Hrev.
    destruct (revise crossword x y d) as [[revised d1]|e|] eqn:Hrun;
      [|exact I|assumption].
    destruct revised.
    + apply revise_true_size in Hrun.
      unfold bind at 1. pose proof (runs_domains_get x d1) as Hget.
      destruct (domains_get x d1) as [[domain_x d2]|e|] eqn:Hgx;
        [|exact I|assumption].
      inv_step Hgx. destruct (List.length domain_x =? 0); [simpl; lia|].
      match goal with
      | |- context [ac3_loop crossword fuel ?q d1] => specialize (IH q d1)
      end.
      rewrite length_app, length_map in IH. simpl in Hfuel.
      pose proof (filter_length_le (fun z => negb (eqb z y))
                    (neighbors crossword x)).
      pose proof (neighbors_length crossword x).
      destruct (ac3_loop crossword fuel _ d1) as [[b d']|e|];
        [|exact I|apply IH; nia].
      assert (domains_size d' <= domains_size d1) by (apply IH; nia). lia.
    + specialize (IH queue d1). simpl in Hfuel.
      destruct (ac3_loop crossword fuel queue d1) as [[b d']|e|];
        [|exact I|apply IH; nia].
      assert (domains_size d' <= domains_size d1) by (apply IH; nia). lia.
Qed.

Lemma runs_ac3 arcs : runs (ac3 crossword arcs).
Proof.
  intros d. unfold ac3, bind, get_domains. apply ac3_loop_fuel.
  unfold ac3_fuel. lia.
Qed.

Lemma backtrack_loop_fuel rec var a d :
  dict_get var a = None ->
  (forall value, rec (dict_set var value a) d <> OutOfFuel) ->
  (forall a1 r d', rec a1 d = Ok (r, d') ->
                   d' = d /\ backtrack_post crossword a1 r) ->
  forall values,
    backtrack_loop crossword rec var values a d <> OutOfFuel.
Proof.
  intros Hfresh Hrec Hpost. induction values as [|value rest IH]; simpl;
    [discriminate|].
  unfold bind at 1.
  pose proof (runs_not_out_of_fuel _ d (runs_consistent (dict_set var value a)))
    as Hcons.
  destruct (consistent crossword (dict_set var value a) d)
    as [[ok d1]|e|] eqn:Hrun; [|discriminate|congruence].
  apply readonly_consistent in Hrun. subst d1.
  assert (dict_del var (dict_set var value a) = Ok a) as Hdel
      by now apply dict_del_set_fresh.
  destruct ok.
  - unfold bind at 1. specialize (Hrec value).
    destruct (rec (dict_set var value a) d) as [[[a2 r2] d2]|e|] eqn:Hcall;
      [|discriminate|congruence].
    destruct (Hpost _ _ _ Hcall) as [-> Hp]. unfold backtrack_post in Hp.
    simpl in Hp. destruct r2 as [result|]; [discriminate|]. subst a2.
    unfold bind at 1, lift. rewrite Hdel. assumption.
  - unfold bind at 1, ret at 1. unfold bind at 1, lift. rewrite Hdel.
    assumption.
Qed.

Lemma backtrack_fuel_enough fuel :
  forall a d,
    unassigned_count d a < fuel ->
    backtrack_fuel crossword fuel a d <> OutOfFuel.
Proof.
  induction fuel as [|fuel IH]; intros a d Hfuel; [lia|]. simpl.
  unfold bind at 1, assignment_complete, ret at 1.
  destruct (forallb _ _); [discriminate|].
  unfold bind at 1.
  pose proof (runs_not_out_of_fuel _ d (runs_select_unassigned_variable a))
    as Hsel.
  destruct (select_unassigned_variable crossword a d) as [[var d1]|e|] eqn:Hrun;
    [|discriminate|congruence].
  pose proof (readonly_select_unassigned_variable crossword a _ _ _ Hrun).
  subst d1. apply select_unassigned_variable_inv in Hrun.
  destruct Hrun as [Hkey Hfresh].
  unfold bind at 1.
  pose proof (runs_not_out_of_fuel _ d (runs_order_domain_values var a))
    as Hord.
  destruct (order_domain_values crossword var a d) as [[values d1]|e|] eqn:Hrun;
    [|discriminate|congruence].
  pose proof (readonly_order_domain_values crossword var a _ _ _ Hrun).
  subst d1.
  apply backtrack_loop_fuel; auto.
  - intros value. apply IH.
    pose proof (unassigned_count_set d a var value Hkey Hfresh). lia.
  - intros a1 r d' Hcall. split.
    + eapply readonly_backtrack_fuel; eauto.
    + eapply backtrack_fuel_post; eauto.
Qed.

(** [ac3] never runs out of fuel. *)
Lemma ac3_never_out_of_fuel arcs d : ac3 crossword arcs d <> OutOfFuel.
Proof. apply runs_not_out_of_fuel, runs_ac3. Qed.

(** [backtrack] never runs out of fuel. *)
Lemma backtrack_never_out_of_fuel a d : backtrack crossword a d <> OutOfFuel.
Proof.
  unfold backtrack, bind, get_domains. apply backtrack_fuel_enough.
  unfold unassigned_count.
  pose proof (filter_length_le (fun v => negb (dict_mem v a)) (dict_keys d)).
  lia.
Qed.

(** [solve] never runs out of fuel. *)
Lemma solve_never_out_of_fuel d : solve crossword d <> OutOfFuel.
Proof.
  unfold solve. unfold bind at 1.
  pose proof (runs_not_out_of_fuel _ d runs_enforce_node_consistency).
  destruct (enforce_node_consistency d) as [[[] d1]|e|]; [|discriminate|congruence].
  unfold bind at 1. pose proof (ac3_never_out_of_fuel None d1).
  destruct (ac3 crossword None d1) as [[b d2]|e|]; [|discriminate|congruence].
  unfold bind at 1. pose proof (backtrack_never_out_of_fuel [] d2).
  destruct (backtrack crossword [] d2) as [[r d3]|e|]; [|discriminate|congruence].
  discriminate.
Qed.

End Fuel.

(** ** The head of a stable sort *)

Section SortHead.
Context {A : Type} (leb : A -> A -> bool).
Hypothesis leb_total : forall a b, leb a b = true \/ leb b a = true.
Hypothesis leb_trans :
  forall a b c, leb a b = true -> leb b c = true -> leb a c = true.

(** The first element of the sorted list is the first element of the
    list that no other element beats. *)
Lemma sort_by_head l x rest :
  sort_by leb l = x :: rest ->
  exists l1 l2,
    l = l1 ++ x :: l2 /\
    (forall u, In u l1 -> leb u x = false) /\
    (forall u, In u l2 -> leb x u = true).
Proof.
  revert x rest. induction l as [|a l IH]; intros x rest Hsort; simpl in Hsort.
  - discriminate.
  - destruct (sort_by leb l) as [|y r] eqn:Hl.
    + simpl in Hsort. inversion Hsort; subst.
      assert (l = []) as ->.
      { pose proof (sort_by_perm leb l) as Hp. rewrite Hl in Hp.
        now apply Permutation_nil in Hp. }
      exists [], []. simpl. repeat split; intros u [].
    + destruct (IH y r eq_refl) as (m1 & m2 & Heq & H1 & H2).
      simpl in Hsort. destruct (leb a y) eqn:Hay.
      * inversion Hsort; subst. exists [], (m1 ++ y :: m2).
        split; [reflexivity|]. split; [intros u []|].
        intros u Hu. apply in_app_or in Hu.
        destruct Hu as [Hu|[<-|Hu]].
        -- apply (leb_trans _ y); [assumption|].
           destruct (leb_total y u) as [Hyu|Huy]; [assumption|].
           rewrite (H1 u Hu) in Huy. discriminate.
        -- assumption.
        -- apply (leb_trans _ y); auto.
      * inversion Hsort; subst. exists (a :: m1), m2.
        split; [reflexivity|]. split; [|assumption].
        intros u [<-|Hu]; auto.
Qed.

End SortHead.

Lemma sort_by_nil {A} (leb : A -> A -> bool) l : sort_by leb l = [] -> l = [].
Proof.
  intros Hs. pose proof (sort_by_perm leb l) as Hp. rewrite Hs in Hp.
  now apply Permutation_nil in Hp.
Qed.

(** ** [select_unassigned_variable] *)

Lemma unassigned_spec d a var :
  In var (unassigned d a) <-> In var (dict_keys d) /\ dict_get var a = None.
Proof.
  unfold unassigned. rewrite filter_In, negb_true_iff, dict_mem_false. tauto.
Qed.

Section Select.
Variable crossword : Crossword.

(** The method is its choice on the unassigned slots of the store: the
    look-ups of domains cannot fail on keys of the store. *)
Lemma select_unassigned_variable_eq a d :
  select_unassigned_variable crossword a d
  = lift (select_from crossword d (unassigned d a)) d.
Proof.
  unfold select_unassigned_variable, select_from.
  unfold bind at 1, get_domains. fold (unassigned d a).
  assert (forall u, In u (unassigned d a) -> dict_get u d <> None) as Hkeys.
  { intros u Hu. apply unassigned_spec in Hu. now apply dict_get_In_keys. }
  rewrite (bind_eq _ (mapM_domains_eq (fun var dv => (var, List.length dv))
                        (unassigned d a) d Hkeys)).
  cbv beta.
  change (map (fun var => (var, List.length (dom d var))) (unassigned d a))
    with (map (fun var => (var, remaining d var)) (unassigned d a)).
  rewrite (sort_by_decorated (remaining d) (unassigned d a)).
  cbv zeta.
  set (sorted := sort_by (fun a0 b => remaining d a0 <=? remaining d b)
                         (unassigned d a)).
  assert (forall u, In u sorted -> dict_get u d <> None) as Hkeys'.
  { intros u Hu. apply Hkeys. eapply Permutation_in; [apply sort_by_perm|exact Hu]. }
  destruct sorted as [|first rest] eqn:Hsorted.
  - reflexivity.
  - unfold bind at 1. unfold lift at 1. unfold list_index at 1. simpl nth_error.
    cbv iota.
    destruct (dict_get first d) as [domain_first|] eqn:Hgf;
      [|exfalso; apply (Hkeys' first); simpl; auto].
    rewrite (bind_eq _ (domains_get_eq Hgf)).
    rewrite (bind_eq _ (filterM_domains_eq
                          (fun dv => List.length dv =? List.length domain_first)
                          (first :: rest) d Hkeys')).
    cbv beta.
    assert (List.length domain_first = remaining d first) as ->.
    { unfold remaining. now rewrite (dom_get Hgf). }
    change (list_index (first :: rest) 0) with (Ok first).
    cbv beta iota delta [bindR].
    match goal with
    | |- (if ?c then _ else _) _ = lift (if ?c' then _ else _) _ =>
        change c' with c; destruct c; reflexivity
    end.
Qed.

End Select.

Lemma filter_andb {A} (p q : A -> bool) l :
  filter (fun u => p u && q u) l = filter q (filter p l).
Proof.
  induction l as [|a l IH]; simpl; [reflexivity|].
  destruct (p a); simpl; [destruct (q a)|]; now rewrite IH.
Qed.

Lemma filter_none {A} (p : A -> bool) l :
  (forall u, In u l -> p u = false) -> filter p l = [].
Proof.
  induction l as [|a l IH]; simpl; intros Hall; [reflexivity|].
  rewrite (Hall a) by auto. apply IH. auto.
Qed.

Lemma list_index_head_inv {A} (l : list A) a :
  list_index l 0 = Ok a -> exists rest, l = a :: rest.
Proof.
  destruct l as [|b l]; unfold list_index; simpl; intros Heq; inversion Heq.
  eauto.
Qed.

(** The choice among the unassigned slots [us]: fewest remaining values,
    then highest degree, then first in [us]. *)
Lemma select_from_spec crossword d us var :
  select_from crossword d us = Ok var ->
  In var us /\
  (forall u, In u us -> remaining d var <= remaining d u) /\
  (forall u, In u us -> remaining d u = remaining d var ->
             degree crossword u <= degree crossword var) /\
  exists rest,
    filter (fun u => (remaining d u =? remaining d var) &&
                     (degree crossword u =? degree crossword var)) us
    = var :: rest.
Proof.
  unfold select_from. intros Hrun.
  apply bindR_Ok in Hrun. destruct Hrun as (first & Hfirst & Hrun).
  apply list_index_head_inv in Hfirst. destruct Hfirst as (srest & Hsorted).
  (* the head of the sort on remaining values *)
  destruct (sort_by_head (fun a b => remaining d a <=? remaining d b))
    with (l := us) (x := first) (rest := srest)
    as (l1 & l2 & Hus & Hl1 & Hl2); [| |assumption|].
  { intros a b. rewrite !Nat.leb_le. lia. }
  { intros a b c. rewrite !Nat.leb_le. lia. }
  assert (forall u, In u l1 -> remaining d first < remaining d u) as Hl1'.
  { intros u Hu. apply Hl1 in Hu. now apply Nat.leb_gt in Hu. }
  assert (forall u, In u l2 -> remaining d first <= remaining d u) as Hl2'.
  { intros u Hu. apply Hl2 in Hu. now apply Nat.leb_le in Hu. }
  (* the tied slots, in the order of [us] *)
  pose proof (sort_by_stable (remaining d) (remaining d first) us) as Hstable.
  cbv zeta in Hstable. rewrite Hstable in Hrun. clear Hstable.
  set (tied := filter (fun b => remaining d b =? remaining d first) us) in *.
  assert (tied = first ::
                 filter (fun b => remaining d b =? remaining d first) l2)
    as Htied.
  { unfold tied. rewrite Hus, filter_app. simpl. rewrite Nat.eqb_refl.
    rewrite filter_none; [reflexivity|].
    intros u Hu. apply Nat.eqb_neq. specialize (Hl1' u Hu). lia. }
  (* the head of the sort on the degree *)
  assert (exists t1 t2,
             tied = t1 ++ var :: t2 /\
             (forall u, In u t1 -> degree crossword u < degree crossword var) /\
             (forall u, In u t2 -> degree crossword u <= degree crossword var))
    as (t1 & t2 & Ht & Ht1 & Ht2).
  { destruct (List.length tied =? 1) eqn:Hone.
    - apply list_index_head_inv in Hrun. destruct Hrun as (trest & Htr).
      apply Nat.eqb_eq in Hone. rewrite Htr in Hone. simpl in Hone.
      destruct trest; [|discriminate].
      exists [], []. split; [assumption|]. split; intros u [].
    - apply list_index_head_inv in Hrun. destruct Hrun as (trest & Htr).
      destruct (sort_by_head
                  (fun a b => degree crossword b <=? degree crossword a))
        with (l := tied) (x := var) (rest := trest)
        as (t1 & t2 & Ht & Ht1 & Ht2); [| |assumption|].
      { intros a b. rewrite !Nat.leb_le. lia. }
      { intros a b c. rewrite !Nat.leb_le. lia. }
      exists t1, t2. split; [assumption|]. split; intros u Hu.
      + apply Ht1 in Hu. now apply Nat.leb_gt in Hu.
      + apply Ht2 in Hu. now apply Nat.leb_le in Hu. }
  assert (In var tied) as Hvar.
  { rewrite Ht. apply in_or_app. right. now left. }
  assert (In var us /\ remaining d var = remaining d first) as [Hin Hrem].
  { unfold tied in Hvar. apply filter_In in Hvar.
    destruct Hvar as [Hin Heq]. now apply Nat.eqb_eq in Heq. }
  split; [assumption|]. split; [|split].
  - intros u Hu. rewrite Hus in Hu. apply in_app_or in Hu.
    destruct Hu as [Hu|[<-|Hu]].
    + specialize (Hl1' u Hu). lia.
    + lia.
    + specialize (Hl2' u Hu). lia.
  - intros u Hu Heq.
    assert (In u tied) as Hut.
    { unfold tied. apply filter_In. split; [assumption|].
      apply Nat.eqb_eq. lia. }
    rewrite Ht in Hut. apply in_app_or in Hut.
    destruct Hut as [Hut|[<-|Hut]].
    + specialize (Ht1 u Hut). lia.
    + lia.
    + now apply Ht2.
  - rewrite filter_andb, Hrem. fold tied. rewrite Ht, filter_app. simpl.
    rewrite Nat.eqb_refl. rewrite filter_none; [simpl; eexists; reflexivity|].
    intros u Hu. apply Nat.eqb_neq. specialize (Ht1 u Hu). lia.
Qed.

Lemma select_from_total crossword d us :
  us <> [] -> exists var, select_from crossword d us = Ok var.
Proof.
  intros Hne. unfold select_from.
  destruct (sort_by (fun a b => remaining d a <=? remaining d b) us)
    as [|first rest] eqn:Hs.
  { apply sort_by_nil in Hs. congruence. }
  change (list_index (first :: rest) 0) with (Ok first).
  cbv beta iota delta [bindR].
  set (tied := filter _ (first :: rest)).
  assert (exists trest, tied = first :: trest) as (trest & Ht).
  { unfold tied. simpl. rewrite Nat.eqb_refl. eauto. }
  destruct (List.length tied =? 1).
  - rewrite Ht. exists first. reflexivity.
  - match goal with
    | |- context [sort_by ?leb tied] =>
        destruct (sort_by leb tied) as [|var sorted'] eqn:Hd
    end.
    + apply sort_by_nil in Hd. congruence.
    + exists var. reflexivity.
Qed.

Lemma select_from_nil crossword d :
  select_from crossword d [] = Raise IndexError.
Proof. reflexivity. Qed.

(** ** [revise]: what it reports and what it writes *)

Section ReviseFacts.
Variable crossword : Crossword.
Variables (x y : Var) (i j : nat).

Lemma revise_step_inv revised v d revised' d' :
  revise_step x y i j revised v d = Ok (revised', d') ->
  exists domain_y h,
    dict_get y d = Some domain_y /\
    has_corresponding_value v i j domain_y = Ok h /\
    (h = true -> revised' = revised /\ d' = d) /\
    (h = false ->
     revised' = true /\
     exists s, dict_get x d = Some s /\ d' = dict_set x (set_remove v s) d).
Proof.
  unfold revise_step. intros Hrun.
  apply bind_Ok in Hrun. destruct Hrun as (domain_y & d1 & Hgy & Hrun).
  inv_step Hgy.
  apply bind_Ok in Hrun. destruct Hrun as (h & d1 & Hh & Hrun).
  inv_step Hh. exists domain_y, h. split; [assumption|]. split; [assumption|].
  destruct h; simpl in Hrun.
  - inv_step Hrun. split; [auto|discriminate].
  - apply bind_Ok in Hrun. destruct Hrun as ([] & d2 & Hrem & Hret).
    inv_step Hret. apply domains_remove_Ok in Hrem.
    split; [discriminate|]. intros _. split; [reflexivity|]. exact Hrem.
Qed.

(** The flag never goes back to [False]. *)
Lemma revise_loop_flag l :
  forall d revised' d',
    foldM (revise_step x y i j) l true d = Ok (revised', d') ->
    revised' = true.
Proof.
  induction l as [|v l IH]; intros d revised' d' Hrun; simpl in Hrun.
  - now inv_step Hrun.
  - apply bind_Ok in Hrun. destruct Hrun as (b1 & d1 & Hstep & Hrest).
    apply revise_step_inv in Hstep.
    destruct Hstep as (dy & h & _ & _ & Ht & Hf).
    destruct h.
    + destruct (Ht eq_refl) as [-> ->]. eauto.
    + destruct (Hf eq_refl) as [-> _]. eauto.
Qed.

(** Without a revision the store is as it was. *)
Lemma revise_loop_unchanged l :
  forall revised d d',
    foldM (revise_step x y i j) l revised d = Ok (false, d') -> d' = d.
Proof.
  induction l as [|v l IH]; intros revised d d' Hrun; simpl in Hrun.
  - now inv_step Hrun.
  - apply bind_Ok in Hrun. destruct Hrun as (b1 & d1 & Hstep & Hrest).
    apply revise_step_inv in Hstep.
    destruct Hstep as (dy & h & _ & _ & Ht & Hf).
    destruct h.
    + destruct (Ht eq_refl) as [-> ->]. eauto.
    + destruct (Hf eq_refl) as [-> _].
      apply revise_loop_flag in Hrest. discriminate.
Qed.

(** Only the domain of [x] is written. *)
Lemma revise_loop_frame l :
  forall revised d revised' d',
    foldM (revise_step x y i j) l revised d = Ok (revised', d') ->
    forall v, v <> x -> dict_get v d' = dict_get v d.
Proof.
  induction l as [|w l IH]; intros revised d revised' d' Hrun v Hv;
    simpl in Hrun.
  - now inv_step Hrun.
  - apply bind_Ok in Hrun. destruct Hrun as (b1 & d1 & Hstep & Hrest).
    apply revise_step_inv in Hstep.
    destruct Hstep as (dy & h & _ & _ & Ht & Hf).
    rewrite (IH _ _ _ _ Hrest v Hv).
    destruct h.
    + now destruct (Ht eq_refl) as [_ ->].
    + destruct (Hf eq_refl) as (_ & s & _ & ->).
      apply dict_get_set_other. congruence.
Qed.

(** A revision removes a word of the domain for good. *)
Lemma revise_loop_removed l :
  forall d revised' d',
    foldM (revise_step x y i j) l false d = Ok (revised', d') ->
    revised' = true ->
    (forall v, In v l -> In v (dom d x)) ->
    exists w, In w (dom d x) /\ ~ In w (dom d' x).
Proof.
  induction l as [|v l IH]; intros d revised' d' Hrun Ht Hincl;
    simpl in Hrun.
  - inv_step Hrun. discriminate.
  - apply bind_Ok in Hrun. destruct Hrun as (b1 & d1 & Hstep & Hrest).
    apply revise_step_inv in Hstep.
    destruct Hstep as (dy & h & _ & _ & Hht & Hhf).
    destruct h.
    + destruct (Hht eq_refl) as [-> ->].
      eapply IH; eauto. intros; apply Hincl; now right.
    + destruct (Hhf eq_refl) as (-> & s & Hs & ->).
      exists v. split; [apply Hincl; now left|].
      assert (shrinking (foldM (revise_step x y i j) l true)) as Hshr.
      { unfold revise_step. frame. }
      specialize (Hshr _ _ _ Hrest x).
      rewrite dict_get_set_same in Hshr. unfold dom.
      destruct (dict_get x d') as [s'|]; [|tauto].
      intros Hin. apply Hshr in Hin. unfold set_remove in Hin.
      apply filter_In in Hin. destruct Hin as [_ Hne].
      rewrite eqb_refl in Hne. discriminate.
Qed.

End ReviseFacts.

(** A word has a partner exactly when the test of [revise], if it
    returns, says so. *)
Lemma has_corresponding_value_iff value_x i j domain_y h :
  has_corresponding_value value_x i j domain_y = Ok h ->
  (h = true <->
   exists value_y c,
     In value_y domain_y /\
     String.get i value_x = Some c /\ String.get j value_y = Some c).
Proof.
  intros Hrun. split.
  - intros ->. now apply has_corresponding_value_true.
  - intros (value_y & c & Hin & Hx & Hy). destruct h; [reflexivity|].
    destruct (has_corresponding_value_false _ _ _ _ Hrun value_y Hin)
      as (a & b & Ha & Hb & Hab).
    congruence.
Qed.

(** ** AC-3 computes the largest arc-consistent part of the store *)

Section Maximal.
Variable crossword : Crossword.
Variable e : Domains.
Hypothesis He : arc_closed crossword e.

Lemma revise_loop_within x y i j l :
  dict_get (x, y) (overlaps crossword) = Some (Some (i, j)) ->
  forall revised d revised' d',
    foldM (revise_step x y i j) l revised d = Ok (revised', d') ->
    within e d -> within e d'.
Proof.
  intros Hov. induction l as [|v l IH]; intros revised d revised' d' Hrun Hw;
    simpl in Hrun.
  - now inv_step Hrun.
  - apply bind_Ok in Hrun. destruct Hrun as (b1 & d1 & Hstep & Hrest).
    apply revise_step_inv in Hstep.
    destruct Hstep as (domain_y & h & Hgy & Hh & Ht & Hf).
    apply (IH _ _ _ _ Hrest). destruct h.
    + now destruct (Ht eq_refl) as [_ ->].
    + destruct (Hf eq_refl) as (_ & s & Hs & ->).
      intros u w Hin. destruct (eq_dec x u) as [<-|Hne].
      * rewrite dom_set_same. apply filter_In.
        split; [rewrite <- (dom_get Hs); now apply Hw|].
        apply negb_true_iff, eqb_false. intros ->.
        destruct (He x y i j v Hov Hin) as (wy & c & Hwy & Hcx & Hcy).
        apply Hw in Hwy. rewrite (dom_get Hgy) in Hwy.
        destruct (has_corresponding_value_false _ _ _ _ Hh wy Hwy)
          as (a & b & Ha & Hb & Hab).
        congruence.
      * rewrite dom_set_other by assumption. now apply Hw.
Qed.

Lemma revise_within x y d revised d' :
  revise crossword x y d = Ok (revised, d') -> within e d -> within e d'.
Proof.
  unfold revise. intros Hrun Hw.
  apply bind_Ok in Hrun. destruct Hrun as (o & d1 & Hlk & Hrun).
  inv_step Hlk. apply dict_lookup_Ok in Hl.
  destruct o as [[i j]|]; [|now inv_step Hrun].
  apply bind_Ok in Hrun. destruct Hrun as (domain_x & d1 & Hgx & Hloop).
  inv_step Hgx. eapply revise_loop_within; eauto.
Qed.

Lemma ac3_loop_within fuel :
  forall queue d b d',
    ac3_loop crossword fuel queue d = Ok (b, d') -> within e d -> within e d'.
Proof.
  induction fuel as [|fuel IH]; intros [|[x y] queue] d b d' Hrun Hw;
    simpl in Hrun; try (now inv_step Hrun).
  apply bind_Ok in Hrun. destruct Hrun as (revised & d1 & Hrev & Hk).
  apply revise_within in Hrev; [|assumption].
  destruct revised.
  - apply bind_Ok in Hk. destruct Hk as (domain_x & d2 & Hm & Hk).
    inv_step Hm. destruct (List.length domain_x =? 0).
    + now inv_step Hk.
    + eapply IH; eauto.
  - eapply IH; eauto.
Qed.

End Maximal.

Lemma within_shrunk d' d : shrunk d' d -> within d' d.
Proof.
  intros Hs v w Hin. specialize (Hs v). unfold dom in *.
  destruct (dict_get v d'), (dict_get v d); try tauto. auto.
Qed.

Lemma ac3_inv_arc_closed crossword d :
  ac3_inv crossword d [] -> arc_closed crossword d.
Proof.
  intros Hinv x y i j wx Hov Hin.
  destruct (Hinv x y i j Hov) as [[]|[_ Hc]].
  destruct (Hc wx Hin) as [_ Hh].
  now apply has_corresponding_value_true.
Qed.

(** ** [consistent] decides consistency *)

Section ConsistentFacts.
Variable crossword : Crossword.

Lemma consistent_inner_agree v1 w1 items :
  (forall v2 w2 i j,
      In (v2, w2) items -> v1 <> v2 ->
      dict_get (v1, v2) (overlaps crossword) = Some (Some (i, j)) ->
      exists c, String.get i w1 = Some c /\ String.get j w2 = Some c) ->
  forall b, consistent_inner crossword v1 w1 items = Ok b -> b = true.
Proof.
  induction items as [|[v2 w2] items IH]; intros Hagree b Hrun; simpl in Hrun.
  - congruence.
  - assert (forall b, consistent_inner crossword v1 w1 items = Ok b -> b = true)
      as Hrest.
    { apply IH. intros v w i j Hin. apply Hagree. now right. }
    destruct (eqb v1 v2) eqn:Heq; simpl in Hrun; [auto|].
    apply eqb_false in Heq.
    apply bindR_Ok in Hrun. destruct Hrun as (o & Ho & Hk).
    apply dict_lookup_Ok in Ho.
    destruct o as [[i j]|]; [|auto].
    apply bindR_Ok in Hk. destruct Hk as (c1 & Hc1 & Hk).
    apply bindR_Ok in Hk. destruct Hk as (c2 & Hc2 & Hk).
    apply str_index_Ok in Hc1, Hc2.
    destruct (Hagree v2 w2 i j (or_introl eq_refl) Heq Ho) as (c & Hc1' & Hc2').
    assert (c1 = c2) by congruence. subst c2.
    rewrite Ascii.eqb_refl in Hk. simpl in Hk. auto.
Qed.

Lemma consistent_outer_agree items1 items :
  (forall v1 w1 v2 w2 i j,
      In (v1, w1) items1 -> In (v2, w2) items -> v1 <> v2 ->
      dict_get (v1, v2) (overlaps crossword) = Some (Some (i, j)) ->
      exists c, String.get i w1 = Some c /\ String.get j w2 = Some c) ->
  forall b, consistent_outer crossword items1 items = Ok b -> b = true.
Proof.
  induction items1 as [|[v w] items1 IH]; intros Hagree b Hrun; simpl in Hrun.
  - congruence.
  - apply bindR_Ok in Hrun. destruct Hrun as (ok & Hinner & Hk).
    apply consistent_inner_agree in Hinner.
    + subst ok. apply (IH (fun v1 w1 v2 w2 i j H => Hagree v1 w1 v2 w2 i j (or_intror H))).
      assumption.
    + intros v2 w2 i j Hin. apply Hagree; auto. now left.
Qed.

Lemma consistent_of_assignment_consistent a d b d' :
  NoDup (dict_keys a) ->
  assignment_consistent crossword a ->
  consistent crossword a d = Ok (b, d') -> b = true.
Proof.
  intros Hnd Hcons Hrun.
  assert (part_of a a) as Hpart by (intros v w Hin; now apply dict_In_get).
  pose proof (part_of_values_NoDup crossword a a Hcons Hnd Hpart) as Hvals.
  unfold consistent in Hrun.
  rewrite (nodup_fixed_point string_dec Hvals) in Hrun.
  unfold dict_values in Hrun. rewrite length_map, Nat.eqb_refl in Hrun.
  simpl in Hrun. inv_step Hrun.
  eapply consistent_outer_agree; [|eassumption].
  intros v1 w1 v2 w2 i j H1 H2 Hne Hov.
  destruct Hcons as [_ Hagree].
  apply (Hagree v1 v2 w1 w2 i j); auto.
Qed.

(** ** [backtrack] extends the assignment it is given *)

Lemma extends_refl d a : extends d a a.
Proof.
  exists []. split; [now rewrite app_nil_r|]. split; [constructor|].
  intros v w [].
Qed.

Lemma extends_step d a var value result :
  dict_get var a = None -> In var (dict_keys d) -> In value (dom d var) ->
  extends d (dict_set var value a) result ->
  extends d a result.
Proof.
  intros Hfresh Hkey Hvalue (ext & -> & Hnd & Hext).
  rewrite (dict_set_fresh_app _ _ _ Hfresh), <- app_assoc. simpl.
  exists ((var, value) :: ext). split; [reflexivity|]. split.
  - simpl. constructor; [|assumption].
    intros Hin. unfold dict_keys in Hin. apply in_map_iff in Hin.
    destruct Hin as ([v w] & Hv & Hin). simpl in Hv. subst v.
    destruct (Hext var w Hin) as (_ & Hnone & _).
    rewrite dict_get_set_same in Hnone. discriminate.
  - intros v w [Heq|Hin].
    + inversion Heq; subst. auto.
    + destruct (Hext v w Hin) as (Hk & Hnone & Hw).
      split; [assumption|]. split; [|assumption].
      destruct (eq_dec var v) as [->|Hne].
      * rewrite dict_get_set_same in Hnone. discriminate.
      * now rewrite dict_get_set_other in Hnone.
Qed.

Lemma backtrack_loop_extends rec var d a :
  dict_get var a = None -> In var (dict_keys d) ->
  (forall a1 r d', rec a1 d = Ok (r, d') ->
                   d' = d /\ backtrack_post crossword a1 r /\
                   forall result, snd r = Some result -> extends d a1 result) ->
  forall values r d',
    (forall value, In value values -> In value (dom d var)) ->
    backtrack_loop crossword rec var values a d = Ok (r, d') ->
    forall result, snd r = Some result -> extends d a result.
Proof.
  intros Hfresh Hkey Hrec.
  induction values as [|value rest IH]; intros r d' Hvalues Hrun result Hres;
    simpl in Hrun.
  - inv_step Hrun. discriminate.
  - apply bind_Ok in Hrun. destruct Hrun as (ok & d1 & Hcons & Hk).
    apply readonly_consistent in Hcons. subst d1.
    apply bind_Ok in Hk. destruct Hk as ([a2 r2] & d2 & Hcall & Hk).
    assert (d2 = d /\
            match r2 with
            | None => a2 = dict_set var value a
            | Some res => extends d (dict_set var value a) res
            end) as [-> Hr2].
    { destruct ok.
      - destruct (Hrec _ _ _ Hcall) as (-> & Hpost & Hext).
        split; [reflexivity|]. unfold backtrack_post in Hpost. simpl in *.
        destruct r2; [now apply Hext|assumption].
      - inv_step Hcall. auto. }
    destruct r2 as [res|].
    + inv_step Hk. simpl in Hres. inversion Hres; subst.
      eapply extends_step; eauto. apply Hvalues. now left.
    + subst a2. apply bind_Ok in Hk. destruct Hk as (a3 & d3 & Hdel & Hk).
      inv_step Hdel. rewrite (dict_del_set_fresh _ _ _ Hfresh) in Hl.
      inversion Hl; subst a3.
      eapply IH; eauto. intros; apply Hvalues; now right.
Qed.

Lemma backtrack_fuel_extends fuel :
  forall a d r d',
    backtrack_fuel crossword fuel a d = Ok (r, d') ->
    forall result, snd r = Some result -> extends d a result.
Proof.
  induction fuel as [|fuel IH]; intros a d r d' Hrun result Hres;
    simpl in Hrun; [discriminate|].
  apply bind_Ok in Hrun. destruct Hrun as (complete & d1 & Hcomp & Hk).
  apply assignment_complete_inv in Hcomp. destruct Hcomp as [-> _].
  destruct complete.
  - inv_step Hk. simpl in Hres. inversion Hres; subst. apply extends_refl.
  - apply bind_Ok in Hk. destruct Hk as (var & d1 & Hsel & Hk).
    pose proof (readonly_select_unassigned_variable crossword a _ _ _ Hsel).
    subst d1. apply select_unassigned_variable_inv in Hsel.
    destruct Hsel as [Hkey Hfresh].
    apply bind_Ok in Hk. destruct Hk as (values & d2 & Hord & Hloop).
    pose proof (readonly_order_domain_values crossword var a _ _ _ Hord).
    subst d2. apply order_domain_values_inv in Hord.
    destruct Hord as (domain & Hget & ->).
    refine (backtrack_loop_extends (backtrack_fuel crossword fuel) var d a
              Hfresh Hkey _ _ r d' _ Hloop result Hres).
    + intros a1 r1 d1 Hcall. split; [|split].
      * eapply readonly_backtrack_fuel; eauto.
      * eapply backtrack_fuel_post; eauto.
      * eapply IH; eauto.
    + intros value Hin. rewrite (dom_get Hget).
      eapply Permutation_in; [apply sort_by_perm|exact Hin].
Qed.

(** ** An empty domain ends the search at once *)

Lemma backtrack_fuel_empty_domain fuel a d x v :
  dict_get x d = Some [] -> dict_get x a = None ->
  In v (variables crossword) -> dict_get v a = None ->
  backtrack_fuel crossword (S fuel) a d = Ok ((a, None), d).
Proof.
  intros Hx Hxa Hv Hva. simpl.
  unfold bind at 1, assignment_complete, ret at 1.
  assert (forallb (fun variable => dict_mem variable a) (variables crossword)
          = false) as ->.
  { destruct (forallb _ _) eqn:Hall; [|reflexivity].
    rewrite forallb_forall in Hall. specialize (Hall v Hv).
    apply dict_mem_true in Hall. congruence. }
  assert (In x (dict_keys d)) as Hxkey
      by (apply dict_get_In_keys; congruence).
  destruct (select_unassigned_variable_total crossword a d x Hxkey Hxa)
    as (var & Hsel).
  rewrite (bind_eq _ Hsel).
  rewrite select_unassigned_variable_eq in Hsel.
  apply lift_Ok in Hsel. destruct Hsel as [Hsel _].
  apply select_from_spec in Hsel. destruct Hsel as (Hin & Hmrv & _ & _).
  assert (remaining d var = 0) as Hzero.
  { assert (In x (unassigned d a)) as Hxu by now apply unassigned_spec.
    specialize (Hmrv x Hxu). unfold remaining at 2 in Hmrv.
    rewrite (dom_get Hx) in Hmrv. simpl in Hmrv. lia. }
  apply unassigned_spec in Hin. destruct Hin as [Hkey _].
  apply dict_get_In_keys in Hkey.
  destruct (dict_get var d) as [domain|] eqn:Hget; [|congruence].
  unfold remaining in Hzero. rewrite (dom_get Hget) in Hzero.
  destruct domain; [|discriminate].
  assert (order_domain_values crossword var a d = Ok ([], d)) as Hord.
  { unfold order_domain_values. rewrite (bind_eq _ (domains_get_eq Hget)).
    reflexivity. }
  rewrite (bind_eq _ Hord). reflexivity.
Qed.

End ConsistentFacts.

(** ** Node consistency twice *)

Lemma enforce_node_consistency_fixed ks :
  forall d,
    (forall k, In k ks -> dict_get k d <> None) ->
    (forall v dv, dict_get v d = Some dv -> filter (fits v) dv = dv) ->
    forM_ ks enforce_node_consistency_var d = Ok (tt, d).
Proof.
  induction ks as [|k ks IH]; intros d Hkeys Hfit; simpl; [reflexivity|].
  destruct (dict_get k d) as [dv|] eqn:Hget;
    [|exfalso; apply (Hkeys k); simpl; auto].
  rewrite (bind_eq _ (enforce_node_consistency_var_eq _ _ _ Hget)).
  rewrite (Hfit _ _ Hget), (dict_set_get_id _ _ _ Hget).
  apply IH; auto. intros; apply Hkeys; simpl; auto.
Qed.

(** ** [letter_grid] *)

Lemma list_assign_Ok {A} (l : list A) n a l' :
  list_assign l n a = Ok l' ->
  n < List.length l /\ List.length l' = List.length l /\
  forall m, nth_error l' m = if m =? n then Some a else nth_error l m.
Proof.
  revert n l'. induction l as [|b l IH]; intros n l' Hrun; simpl in Hrun.
  - discriminate.
  - destruct n as [|n].
    + inversion Hrun; subst. simpl. split; [lia|]. split; [reflexivity|].
      intros [|m]; reflexivity.
    + apply bindR_Ok in Hrun. destruct Hrun as (l'' & Hrec & Heq).
      inversion Heq; subst. destruct (IH _ _ Hrec) as (Hlt & Hlen & Hnth).
      simpl. split; [lia|]. split; [lia|].
      intros [|m]; simpl; [reflexivity|]. apply Hnth.
Qed.

Lemma list_assign_lt {A} (l : list A) n a :
  n < List.length l -> exists l', list_assign l n a = Ok l'.
Proof.
  revert n. induction l as [|b l IH]; intros n Hlt; simpl in *; [lia|].
  destruct n as [|n]; [eauto|].
  destruct (IH n) as (l' & ->); [lia|]. simpl. eauto.
Qed.

Lemma list_assign_ge {A} (l : list A) n a :
  List.length l <= n -> list_assign l n a = Raise IndexError.
Proof.
  revert n. induction l as [|b l IH]; intros n Hge; simpl in *; [reflexivity|].
  destruct n as [|n]; [lia|]. rewrite IH by lia. reflexivity.
Qed.

Lemma list_assign_In {A} (l : list A) n a l' row :
  list_assign l n a = Ok l' -> In row l' -> row = a \/ In row l.
Proof.
  revert n l'. induction l as [|b l IH]; intros n l' Hrun Hin; simpl in Hrun.
  - discriminate.
  - destruct n as [|n].
    + inversion Hrun; subst. destruct Hin as [<-|Hin]; simpl; auto.
    + apply bindR_Ok in Hrun. destruct Hrun as (l'' & Hrec & Heq).
      inversion Heq; subst. destruct Hin as [<-|Hin]; simpl; [auto|].
      destruct (IH _ _ Hrec Hin); auto.
Qed.

(** One write: it succeeds exactly on a cell of the array, keeps the
    shape and changes that cell only. *)
Lemma letters_assign_Ok h w letters i j c letters' :
  shaped h w letters ->
  letters_assign letters i j c = Ok letters' ->
  i < h /\ j < w /\ shaped h w letters' /\
  forall rc, cell letters' rc
             = if eq_dec rc (i, j) then Some (Some c) else cell letters rc.
Proof.
  intros [Hh Hw] Hrun. unfold letters_assign in Hrun.
  apply bindR_Ok in Hrun. destruct Hrun as (row & Hrow & Hrun).
  apply bindR_Ok in Hrun. destruct Hrun as (row' & Hrow' & Hrun).
  unfold list_index in Hrow.
  destruct (nth_error letters i) as [row0|] eqn:Hnth; [|discriminate].
  inversion Hrow; subst row0. clear Hrow.
  apply list_assign_Ok in Hrow'. destruct Hrow' as (Hj & Hlen' & Hnth').
  pose proof (fun r => list_assign_In _ _ _ _ r Hrun) as Hin.
  apply list_assign_Ok in Hrun. destruct Hrun as (Hi & Hlen & Hnthl).
  pose proof (Hw row (nth_error_In _ _ Hnth)) as Hroww.
  split; [lia|]. split; [lia|]. split.
  - split; [lia|]. intros r Hr. destruct (Hin r Hr) as [->|Hr']; [lia|auto].
  - intros [r c0]. unfold cell. simpl. rewrite Hnthl.
    destruct (eq_dec (r, c0) (i, j)) as [Heq|Hne].
    + inversion Heq; subst. rewrite Nat.eqb_refl, Hnth'. now rewrite Nat.eqb_refl.
    + destruct (r =? i) eqn:Hri; [|reflexivity].
      apply Nat.eqb_eq in Hri. subst r. rewrite Hnth, Hnth'.
      destruct (c0 =? j) eqn:Hcj; [|reflexivity].
      apply Nat.eqb_eq in Hcj. subst. congruence.
Qed.

Lemma letters_assign_in_range h w letters i j c :
  shaped h w letters -> i < h -> j < w ->
  exists letters', letters_assign letters i j c = Ok letters'.
Proof.
  intros [Hh Hw] Hi Hj. unfold letters_assign, list_index.
  destruct (nth_error letters i) as [row|] eqn:Hnth.
  2:{ apply nth_error_None in Hnth. lia. }
  simpl. pose proof (Hw row (nth_error_In _ _ Hnth)) as Hroww.
  destruct (list_assign_lt row j (Some c)) as (row' & ->); [lia|]. simpl.
  apply list_assign_lt. lia.
Qed.

Lemma letters_assign_out_of_range h w letters i j c :
  shaped h w letters -> ~ (i < h /\ j < w) ->
  letters_assign letters i j c = Raise IndexError.
Proof.
  intros [Hh Hw] Hout. unfold letters_assign, list_index.
  destruct (nth_error letters i) as [row|] eqn:Hnth; [|reflexivity].
  simpl. pose proof (Hw row (nth_error_In _ _ Hnth)) as Hroww.
  assert (i < h).
  { rewrite <- Hh. apply nth_error_Some. congruence. }
  rewrite list_assign_ge by lia. reflexivity.
Qed.

(** The loops of [letter_grid] perform the writes of [writes], in
    order. *)
Lemma write_word_eq variable word ks :
  forall letters,
    (forall k, In k ks -> k < String.length word) ->
    write_word variable word ks letters
    = apply_writes (word_writes variable word ks) letters.
Proof.
  induction ks as [|k ks IH]; intros letters Hks; simpl; [reflexivity|].
  destruct (string_get_lt word k) as (c & Hc); [apply Hks; now left|].
  unfold str_index. rewrite Hc. simpl.
  destruct (letters_assign letters _ _ c); simpl; try reflexivity.
  apply IH. intros; apply Hks; now right.
Qed.

Lemma apply_writes_app ws1 ws2 :
  forall letters,
    apply_writes (ws1 ++ ws2) letters
    = (letters' <~ apply_writes ws1 letters ;; apply_writes ws2 letters').
Proof.
  induction ws1 as [|[rc c] ws1 IH]; intros letters; simpl; [reflexivity|].
  destruct (letters_assign letters (fst rc) (snd rc) c); simpl; auto.
Qed.

Lemma letter_grid_loop_eq items :
  forall letters,
    letter_grid_loop items letters = apply_writes (writes items) letters.
Proof.
  induction items as [|[variable word] items IH]; intros letters; simpl;
    [reflexivity|].
  unfold writes. simpl. fold (writes items).
  rewrite apply_writes_app, write_word_eq.
  - destruct (apply_writes _ letters); simpl; auto.
  - intros k Hk. apply in_seq in Hk. lia.
Qed.

Lemma writes_spec items rc c :
  In (rc, c) (writes items) <->
  exists variable word k,
    In (variable, word) items /\ String.get k word = Some c /\
    rc = cell_of variable k.
Proof.
  unfold writes, word_writes. rewrite in_flat_map. split.
  - intros ([variable word] & Hin & Hw). simpl in Hw.
    apply in_flat_map in Hw. destruct Hw as (k & Hk & Hkw).
    destruct (String.get k word) as [c'|] eqn:Hget; [|destruct Hkw].
    destruct Hkw as [Heq|[]]. inversion Heq; subst.
    exists variable, word, k. auto.
  - intros (variable & word & k & Hin & Hget & ->).
    exists (variable, word). split; [assumption|]. simpl.
    apply in_flat_map. exists k. split.
    + apply in_seq. split; [lia|]. simpl.
      destruct (Nat.lt_ge_cases k (String.length word)) as [Hlt|Hge];
        [assumption|].
      exfalso. clear -Hget Hge. revert k Hget Hge.
      induction word as [|a word IH]; intros k Hget Hge; simpl in *;
        [discriminate|].
      destruct k as [|k]; [lia|]. apply (IH k); [assumption|lia].
    + rewrite Hget. now left.
Qed.

(** A run of writes on a shaped array: all cells written are in the
    array, the shape stays, a cell shows the last letter written to it. *)
Lemma apply_writes_Ok h w ws :
  forall letters letters',
    shaped h w letters ->
    apply_writes ws letters = Ok letters' ->
    shaped h w letters' /\
    (forall rc c, In (rc, c) ws -> fst rc < h /\ snd rc < w) /\
    (forall rc,
        (forall c, ~ In (rc, c) ws) -> cell letters' rc = cell letters rc) /\
    (forall rc c,
        In (rc, c) ws ->
        (forall c', In (rc, c') ws -> c' = c) ->
        cell letters' rc = Some (Some c)).
Proof.
  induction ws as [|[rc0 c0] ws IH]; intros letters letters' Hs Hrun;
    simpl in Hrun.
  - inversion Hrun; subst. split; [assumption|]. split; [intros ? ? []|].
    split; [reflexivity|]. intros ? ? [].
  - apply bindR_Ok in Hrun. destruct Hrun as (l1 & Hone & Hrest).
    destruct (letters_assign_Ok h w _ _ _ _ _ Hs Hone)
      as (Hi & Hj & Hs1 & Hcell1).
    destruct (IH _ _ Hs1 Hrest) as (Hs' & Hrange & Hfree & Hlast).
    split; [assumption|]. split; [|split].
    + intros rc c [Heq|Hin]; [inversion Heq; subst; auto|eauto].
    + intros rc Hnone. rewrite Hfree.
      * rewrite Hcell1. destruct (eq_dec rc (fst rc0, snd rc0)) as [->|]; [|reflexivity].
        exfalso. apply (Hnone c0). left. now destruct rc0.
      * intros c Hin. apply (Hnone c). now right.
    + intros rc c Hin Hsame.
      destruct (in_dec eq_dec rc (map fst ws)) as [Hlater|Hnot].
      * apply in_map_iff in Hlater. destruct Hlater as ([rc' c'] & Heq & Hin').
        simpl in Heq. subst rc'.
        assert (c' = c) by (apply Hsame; now right). subst c'.
        apply Hlast; [assumption|]. intros c'' Hc''. apply Hsame. now right.
      * rewrite Hfree.
        -- destruct Hin as [Heq|Hin].
           ++ inversion Heq; subst. rewrite Hcell1.
              destruct (eq_dec rc (fst rc, snd rc)) as [_|Hne]; [reflexivity|].
              exfalso. apply Hne. now destruct rc.
           ++ exfalso. apply Hnot. apply in_map_iff. exists (rc, c). auto.
        -- intros c' Hin'. apply Hnot. apply in_map_iff. exists (rc, c'). auto.
Qed.

(** The run succeeds when every write is in the array, and raises
    [IndexError] at the first that is not. *)
Lemma apply_writes_cases h w ws :
  forall letters,
    shaped h w letters ->
    (exists letters', apply_writes ws letters = Ok letters') \/
    (apply_writes ws letters = Raise IndexError /\
     exists rc c, In (rc, c) ws /\ ~ (fst rc < h /\ snd rc < w)).
Proof.
  induction ws as [|[rc c] ws IH]; intros letters Hs; simpl.
  - left. eauto.
  - destruct (lt_dec (fst rc) h) as [Hi|Hi], (lt_dec (snd rc) w) as [Hj|Hj].
    + destruct (letters_assign_in_range h w letters _ _ c Hs Hi Hj)
        as (l1 & Hone).
      rewrite Hone. simpl.
      destruct (letters_assign_Ok h w _ _ _ _ _ Hs Hone) as (_ & _ & Hs1 & _).
      destruct (IH l1 Hs1) as [Hok|(Hraise & rc' & c' & Hin & Hout)].
      * left. assumption.
      * right. split; [assumption|]. exists rc', c'. auto.
    + right. rewrite (letters_assign_out_of_range h w) by (auto; tauto).
      split; [reflexivity|]. exists rc, c. split; [now left|tauto].
    + right. rewrite (letters_assign_out_of_range h w) by (auto; tauto).
      split; [reflexivity|]. exists rc, c. split; [now left|tauto].
    + right. rewrite (letters_assign_out_of_range h w) by (auto; tauto).
      split; [reflexivity|]. exists rc, c. split; [now left|tauto].
Qed.

Lemma shaped_initial h w : shaped h w (repeat (repeat None w) h).
Proof.
  split; [apply repeat_length|].
  intros row Hin. apply repeat_spec in Hin. subst. apply repeat_length.
Qed.

Lemma cell_initial h w rc :
  fst rc < h -> snd rc < w ->
  cell (repeat (repeat None w) h) rc = Some None.
Proof.
  intros Hr Hc. unfold cell.
  rewrite (nth_error_repeat _ Hr). simpl. now rewrite (nth_error_repeat _ Hc).
Qed.

(** ** [print] *)

Lemma mapR_Ok {A B} (f : A -> res B) l bs :
  mapR f l = Ok bs ->
  List.length bs = List.length l /\
  forall n a, nth_error l n = Some a ->
              exists b, nth_error bs n = Some b /\ f a = Ok b.
Proof.
  revert bs. induction l as [|a l IH]; intros bs Hrun; simpl in Hrun.
  - inversion Hrun; subst. split; [reflexivity|]. intros [|n] a; discriminate.
  - apply bindR_Ok in Hrun. destruct Hrun as (b & Hb & Hrun).
    apply bindR_Ok in Hrun. destruct Hrun as (bs' & Hbs & Heq).
    inversion Heq; subst. destruct (IH _ Hbs) as (Hlen & Hnth).
    split; [simpl; lia|]. intros [|n] a0 Hn; simpl in *.
    + inversion Hn; subst. eauto.
    + eauto.
Qed.

Lemma nth_error_seq_lt start len n :
  n < len -> nth_error (seq start len) n = Some (start + n).
Proof.
  revert start n. induction len as [|len IH]; intros start n Hlt; [lia|].
  destruct n as [|n]; simpl; [f_equal; lia|].
  rewrite IH by lia. f_equal. lia.
Qed.

(** * The main theorems *)

(** ** Node consistency: the theorem *)

(** C4.  [enforce_node_consistency] returns on every domain store; after it
    every slot has a domain exactly when it had one before, and a word is
    in the domain of a slot afterwards iff it was there before and its
    length equals the length of the slot.  So every remaining word fits,
    and only words of the wrong length have been removed. *)
Theorem enforce_node_consistency_spec (d : Domains) :
  exists d',
    enforce_node_consistency d = Ok (tt, d') /\
    (forall var, dict_get var d = None -> dict_get var d' = None) /\
    (forall var domain,
        dict_get var d = Some domain ->
        exists domain',
          dict_get var d' = Some domain' /\
          (forall w, In w domain' -> String.length w = var_length var) /\
          (forall w, In w domain -> String.length w = var_length var ->
                     In w domain') /\
          (forall w, In w domain' -> In w domain)).
Proof.
  destruct (enforce_node_consistency_eq d) as (d' & Hrun & Hd').
  exists d'. split; [assumption|]. split.
  - intros var Hnone. now rewrite Hd', Hnone.
  - intros var domain Hget. exists (filter (fits var) domain).
    rewrite Hd', Hget. split; [reflexivity|].
    repeat split; intros w Hin.
    + apply filter_In in Hin. destruct Hin as [_ Hf]. now apply Nat.eqb_eq in Hf.
    + intros Hlen. apply filter_In. split; [assumption|]. now apply Nat.eqb_eq.
    + apply filter_In in Hin. tauto.
Qed.

Lemma enforce_node_consistency_spec_witness :
  exists d',
    enforce_node_consistency (init_domains Example.puzzle) = Ok (tt, d') /\
    (forall var, dict_get var (init_domains Example.puzzle) = None ->
                 dict_get var d' = None) /\
    (forall var domain,
        dict_get var (init_domains Example.puzzle) = Some domain ->
        exists domain',
          dict_get var d' = Some domain' /\
          (forall w, In w domain' -> String.length w = var_length var) /\
          (forall w, In w domain -> String.length w = var_length var ->
                     In w domain') /\
          (forall w, In w domain' -> In w domain)).
Proof. exact (enforce_node_consistency_spec (init_domains Example.puzzle)). Defined.

(** ** AC-3: the theorems *)

(** C3.  On a puzzle whose overlap relation is symmetric, for every
    domain store: if [ac3()] returns [True] then for every ordered pair of
    slots [(x, y)] with a defined overlap [(i, j)] and every word [wx]
    left in the domain of [x] there is a word [wy] in the domain of [y]
    with [wx[i] == wy[j]]; and if it returns [False] then some slot has
    an empty domain at that point. *)
Theorem ac3_arc_consistency crossword d b d' :
  overlaps_symmetric crossword = true ->
  ac3 crossword None d = Ok (b, d') ->
  (b = true ->
   forall x y i j domain_x wx,
     dict_get (x, y) (overlaps crossword) = Some (Some (i, j)) ->
     dict_get x d' = Some domain_x ->
     In wx domain_x ->
     exists domain_y wy c,
       dict_get y d' = Some domain_y /\ In wy domain_y /\
       String.get i wx = Some c /\ String.get j wy = Some c) /\
  (b = false -> exists x, dict_get x d' = Some []).
Proof.
  intros Hwf Hrun. unfold ac3 in Hrun.
  apply bind_Ok in Hrun. destruct Hrun as (d0 & d1 & Hm & Hloop). inv_step Hm.
  split; intros ->.
  - pose proof (ac3_loop_sound crossword Hwf _ _ _ _
                  (ac3_inv_initial crossword d) Hloop) as Hinv.
    intros x y i j domain_x wx Hov Hx Hin.
    destruct (Hinv x y i j Hov) as [[]|[_ Hc]].
    rewrite (dom_get Hx) in Hc. destruct (Hc wx Hin) as [Hy Hh].
    destruct (dict_get y d') as [domain_y|] eqn:Hgy; [|congruence].
    rewrite (dom_get Hgy) in Hh.
    destruct (has_corresponding_value_true _ _ _ _ Hh) as (wy & c & Hwy & Hcx & Hcy).
    exists domain_y, wy, c. auto.
  - destruct (ac3_loop_false crossword _ _ _ _ Hloop) as (x & y & d2 & _ & _ & Hx).
    eauto.
Qed.

Lemma ac3_arc_consistency_witness :
  overlaps_symmetric Example.puzzle = true /\
  exists d',
    ac3 Example.puzzle None (init_domains Example.puzzle) = Ok (true, d') /\
    forall x y i j domain_x wx,
      dict_get (x, y) (overlaps Example.puzzle) = Some (Some (i, j)) ->
      dict_get x d' = Some domain_x ->
      In wx domain_x ->
      exists domain_y wy c,
        dict_get y d' = Some domain_y /\ In wy domain_y /\
        String.get i wx = Some c /\ String.get j wy = Some c.
Proof.
  split; [reflexivity|]. eexists. split; [vm_compute; reflexivity|].
  apply (ac3_arc_consistency Example.puzzle (init_domains Example.puzzle) true);
    reflexivity.
Defined.

(** C5.  AC-3 is idempotent: on a puzzle whose overlap relation is
    symmetric, if [ac3()] has returned [True] and left the store [d'],
    then [ac3()] on [d'] returns [True] and leaves [d'] as it is. *)
Theorem ac3_idempotent crossword d d' :
  overlaps_symmetric crossword = true ->
  ac3 crossword None d = Ok (true, d') ->
  ac3 crossword None d' = Ok (true, d').
Proof.
  intros Hwf Hrun. unfold ac3 in *.
  apply bind_Ok in Hrun. destruct Hrun as (d0 & d1 & Hm & Hloop). inv_step Hm.
  pose proof (ac3_loop_sound crossword Hwf _ _ _ _
                (ac3_inv_initial crossword d) Hloop) as Hinv.
  unfold bind, get_domains.
  apply ac3_loop_fixpoint; auto.
  - intros arc Hin. now apply dict_get_In_keys.
  - unfold ac3_fuel. lia.
Qed.

Lemma ac3_idempotent_witness :
  overlaps_symmetric Example.puzzle = true /\
  exists d',
    ac3 Example.puzzle None (init_domains Example.puzzle) = Ok (true, d') /\
    ac3 Example.puzzle None d' = Ok (true, d').
Proof.
  split; [reflexivity|]. eexists. split; [vm_compute; reflexivity|].
  apply (ac3_idempotent Example.puzzle (init_domains Example.puzzle));
    reflexivity.
Defined.

(** C10.  [ac3] returns [False] only right after a call of [revise] that
    removed words from a non-empty domain and left it empty; that slot's
    domain was not empty when [ac3] started.  A domain that is empty from
    the start does not make [ac3] fail: on the puzzle with a single slot,
    without neighbours, and the empty domain for it, [ac3()] returns
    [True] and the domain stays empty. *)
Theorem ac3_false_only_after_emptying :
  (forall crossword arcs d d',
      ac3 crossword arcs d = Ok (false, d') ->
      exists x y d1 domain1 domain0,
        revise crossword x y d1 = Ok (true, d') /\
        dict_get x d1 = Some domain1 /\ domain1 <> [] /\
        dict_get x d = Some domain0 /\ domain0 <> [] /\
        dict_get x d' = Some []) /\
  (neighbors Example.single Example.across = [] /\
   ac3 Example.single None [(Example.across, [])]
   = Ok (true, [(Example.across, [])])).
Proof.
  split; [|split; reflexivity].
  intros crossword arcs d d' Hrun. unfold ac3 in Hrun.
  apply bind_Ok in Hrun. destruct Hrun as (d0 & d1 & Hm & Hloop). inv_step Hm.
  destruct (ac3_loop_false crossword _ _ _ _ Hloop) as (x & y & d2 & Hs & Hrev & Hx).
  destruct (revise_true_nonempty _ _ _ _ _ Hrev) as (domain1 & Hx1 & Hne1).
  destruct (shrunk_Some _ _ _ _ Hs Hx1) as (domain0 & Hx0 & Hincl).
  exists x, y, d2, domain1, domain0. repeat split; auto.
  intros ->. destruct domain1 as [|w l]; [congruence|].
  apply (Hincl w). now left.
Qed.

Lemma ac3_false_only_after_emptying_witness :
  exists d',
    ac3 Example.unsolvable None (init_domains Example.unsolvable) = Ok (false, d') /\
    exists x y d1 domain1 domain0,
      revise Example.unsolvable x y d1 = Ok (true, d') /\
      dict_get x d1 = Some domain1 /\ domain1 <> [] /\
      dict_get x (init_domains Example.unsolvable) = Some domain0 /\
      domain0 <> [] /\
      dict_get x d' = Some [].
Proof.
  eexists. split; [vm_compute; reflexivity|].
  apply (proj1 ac3_false_only_after_emptying Example.unsolvable None).
  reflexivity.
Defined.

(** C7.  Every slot of the puzzle starts with the full vocabulary as its
    domain, and after any sequence of calls of
    [enforce_node_consistency], [revise] and [ac3] that returns, every
    slot of the store has a domain that is a subset of the one it had
    before the sequence; no slot appears or disappears. *)
Theorem domains_shrink_monotonically crossword :
  (forall var,
      In var (variables crossword) ->
      dict_get var (init_domains crossword) = Some (words crossword)) /\
  (forall cs d d',
      run_calls crossword cs d = Ok (tt, d') ->
      forall var,
        (dict_get var d = None -> dict_get var d' = None) /\
        (forall domain',
            dict_get var d' = Some domain' ->
            exists domain,
              dict_get var d = Some domain /\
              forall w, In w domain' -> In w domain)).
Proof.
  split.
  - intros var Hin. rewrite init_domains_get.
    destruct (in_dec eq_dec var (variables crossword)); tauto.
  - intros cs d d' Hrun var.
    pose proof (shrinking_run_calls crossword cs _ _ _ Hrun) as Hs.
    split.
    + intros Hnone. specialize (Hs var). rewrite Hnone in Hs.
      destruct (dict_get var d'); tauto.
    + intros domain' Hget. apply (shrunk_Some _ _ _ _ Hs Hget).
Qed.

Lemma domains_shrink_monotonically_witness :
  exists d',
    run_calls Example.puzzle
      [Call_revise Example.across Example.down;
       Call_enforce_node_consistency;
       Call_ac3 None]
      (init_domains Example.puzzle) = Ok (tt, d') /\
    forall var,
      (dict_get var (init_domains Example.puzzle) = None ->
       dict_get var d' = None) /\
      (forall domain',
          dict_get var d' = Some domain' ->
          exists domain,
            dict_get var (init_domains Example.puzzle) = Some domain /\
            forall w, In w domain' -> In w domain).
Proof.
  eexists. split; [vm_compute; reflexivity|].
  apply (proj2 (domains_shrink_monotonically Example.puzzle)
               [Call_revise Example.across Example.down;
                Call_enforce_node_consistency;
                Call_ac3 None]).
  reflexivity.
Defined.

(** C9.  The search never writes the domain store: whenever [backtrack]
    (at any depth of its recursion), [select_unassigned_variable],
    [order_domain_values], [consistent] or [assignment_complete] returns,
    [self.domains] is what it was before the call. *)
Theorem search_leaves_domains_unchanged crossword (d d' : Domains)
    (assignment : Assignment) :
  (forall r, backtrack crossword assignment d = Ok (r, d') -> d' = d) /\
  (forall fuel r,
      backtrack_fuel crossword fuel assignment d = Ok (r, d') -> d' = d) /\
  (forall r,
      select_unassigned_variable crossword assignment d = Ok (r, d') ->
      d' = d) /\
  (forall var r,
      order_domain_values crossword var assignment d = Ok (r, d') ->
      d' = d) /\
  (forall r, consistent crossword assignment d = Ok (r, d') -> d' = d) /\
  (forall r,
      assignment_complete crossword assignment d = Ok (r, d') -> d' = d).
Proof.
  repeat split; intros.
  - eapply readonly_backtrack; eauto.
  - eapply readonly_backtrack_fuel; eauto.
  - eapply readonly_select_unassigned_variable; eauto.
  - eapply readonly_order_domain_values; eauto.
  - eapply readonly_consistent; eauto.
  - eapply readonly_assignment_complete; eauto.
Qed.

Lemma search_leaves_domains_unchanged_witness :
  exists r d',
    backtrack Example.puzzle [] (init_domains Example.puzzle) = Ok (r, d') /\
    d' = init_domains Example.puzzle.
Proof.
  eexists. eexists. split; [vm_compute; reflexivity|].
  refine (proj1 (search_leaves_domains_unchanged Example.puzzle _ _ []) _ _).
  vm_compute. reflexivity.
Defined.

(** C8.  When [order_domain_values(var, assignment)] returns, its result
    holds exactly the words of the domain of [var] (a permutation of its
    enumeration), in ascending order of the count of section 4.4
    ([rule_out_count]), and the words of one count are in the order the
    domain enumerates them. *)
Theorem order_domain_values_spec crossword var assignment d values d' :
  order_domain_values crossword var assignment d = Ok (values, d') ->
  exists domain,
    dict_get var d = Some domain /\
    Permutation values domain /\
    StronglySorted
      (fun a b => rule_out_count crossword d assignment var a
                  <= rule_out_count crossword d assignment var b)
      values /\
    forall count,
      filter (fun w => rule_out_count crossword d assignment var w =? count)
             values
      = filter (fun w => rule_out_count crossword d assignment var w =? count)
               domain.
Proof.
  intros Hrun. apply order_domain_values_inv in Hrun.
  destruct Hrun as (domain & Hget & ->). exists domain.
  split; [assumption|]. split; [apply sort_by_perm|].
  split; [apply sort_by_sorted|]. intros count. apply sort_by_stable.
Qed.

Lemma order_domain_values_spec_witness :
  exists values d',
    order_domain_values Example.puzzle Example.across []
      (init_domains Example.puzzle) = Ok (values, d') /\
    exists domain,
      dict_get Example.across (init_domains Example.puzzle) = Some domain /\
      Permutation values domain /\
      StronglySorted
        (fun a b =>
           rule_out_count Example.puzzle (init_domains Example.puzzle) []
                          Example.across a
           <= rule_out_count Example.puzzle (init_domains Example.puzzle) []
                             Example.across b)
        values /\
      forall count,
        filter (fun w =>
                  rule_out_count Example.puzzle (init_domains Example.puzzle)
                                 [] Example.across w =? count)
               values
        = filter (fun w =>
                    rule_out_count Example.puzzle (init_domains Example.puzzle)
                                   [] Example.across w =? count)
                 domain.
Proof.
  eexists. eexists. split; [vm_compute; reflexivity|].
  refine (order_domain_values_spec Example.puzzle Example.across []
            (init_domains Example.puzzle) _ _ _).
  vm_compute. reflexivity.
Defined.

(** ** The search: the theorems *)

(** C1.  If [solve] (node consistency, AC-3, then [backtrack] on the
    empty assignment) returns an assignment, then it assigns a word to
    every slot of the puzzle, the assigned words are pairwise distinct,
    and for every two assigned slots with a defined overlap [(i, j)] the
    word of the first at [i] is the word of the second at [j]. *)
Theorem solve_sound crossword d a d' :
  solve crossword d = Ok (Some a, d') ->
  (forall v, In v (variables crossword) -> exists w, dict_get v a = Some w) /\
  (forall v1 v2 w1 w2,
      v1 <> v2 -> dict_get v1 a = Some w1 -> dict_get v2 a = Some w2 ->
      w1 <> w2) /\
  (forall v1 v2 w1 w2 i j,
      v1 <> v2 -> dict_get v1 a = Some w1 -> dict_get v2 a = Some w2 ->
      dict_get (v1, v2) (overlaps crossword) = Some (Some (i, j)) ->
      exists c, String.get i w1 = Some c /\ String.get j w2 = Some c).
Proof.
  intros Hrun. apply solve_inv in Hrun.
  destruct Hrun as (d1 & d2 & b & r & _ & _ & Hbt & Hr).
  apply backtrack_post_top in Hbt. unfold backtrack_post in Hbt.
  rewrite <- Hr in Hbt. destruct Hbt as (_ & Htotal & Hcons).
  split; [exact Htotal|]. apply Hcons, assignment_consistent_empty.
Qed.

Lemma solve_sound_witness :
  exists a d',
    solve Example.puzzle (init_domains Example.puzzle) = Ok (Some a, d') /\
    (forall v, In v (variables Example.puzzle) ->
               exists w, dict_get v a = Some w) /\
    (forall v1 v2 w1 w2,
        v1 <> v2 -> dict_get v1 a = Some w1 -> dict_get v2 a = Some w2 ->
        w1 <> w2) /\
    (forall v1 v2 w1 w2 i j,
        v1 <> v2 -> dict_get v1 a = Some w1 -> dict_get v2 a = Some w2 ->
        dict_get (v1, v2) (overlaps Example.puzzle) = Some (Some (i, j)) ->
        exists c, String.get i w1 = Some c /\ String.get j w2 = Some c).
Proof.
  eexists. eexists. split; [vm_compute; reflexivity|].
  refine (solve_sound Example.puzzle (init_domains Example.puzzle) _ _ _).
  vm_compute. reflexivity.
Defined.

(** C6.  Whenever a call of [backtrack], at any depth, returns [None],
    the assignment object is what it was at entry: every tentative
    extension has been undone.  When it returns an assignment, that is
    the object itself and it assigns every slot; so [solve] returns
    [None] or a complete assignment, never a partial one. *)
Theorem backtrack_failure_restores crossword :
  (forall fuel a d r d',
      backtrack_fuel crossword fuel a d = Ok (r, d') ->
      match snd r with
      | None => fst r = a
      | Some result =>
          result = fst r /\
          forall v, In v (variables crossword) ->
                    exists w, dict_get v result = Some w
      end) /\
  (forall a d r d',
      backtrack crossword a d = Ok (r, d') ->
      match snd r with
      | None => fst r = a
      | Some result =>
          result = fst r /\
          forall v, In v (variables crossword) ->
                    exists w, dict_get v result = Some w
      end) /\
  (forall d result d',
      solve crossword d = Ok (Some result, d') ->
      forall v, In v (variables crossword) ->
                exists w, dict_get v result = Some w).
Proof.
  split; [|split].
  - intros fuel a d r d' Hrun. apply backtrack_fuel_post in Hrun.
    unfold backtrack_post in Hrun. destruct (snd r); [|assumption].
    destruct Hrun as (Heq & Htotal & _). auto.
  - intros a d r d' Hrun. apply backtrack_post_top in Hrun.
    unfold backtrack_post in Hrun. destruct (snd r); [|assumption].
    destruct Hrun as (Heq & Htotal & _). auto.
  - intros d result d' Hrun. apply solve_inv in Hrun.
    destruct Hrun as (d1 & d2 & b & r & _ & _ & Hbt & Hr).
    apply backtrack_post_top in Hbt. unfold backtrack_post in Hbt.
    rewrite <- Hr in Hbt. now destruct Hbt as (_ & Htotal & _).
Qed.

Lemma backtrack_failure_restores_witness :
  exists r d',
    backtrack Example.unsolvable [(Example.across, "TIE"%string)]
      (init_domains Example.unsolvable) = Ok (r, d') /\
    snd r = None /\
    fst r = [(Example.across, "TIE"%string)].
Proof.
  eexists. eexists. split; [vm_compute; reflexivity|].
  split; [reflexivity|].
  refine (proj1 (proj2 (backtrack_failure_restores Example.unsolvable))
            [(Example.across, "TIE"%string)]
            (init_domains Example.unsolvable) (_, None) _ _).
  vm_compute. reflexivity.
Defined.

(** C2.  On a well-formed puzzle that has a solution (a consistent
    assignment giving every slot a vocabulary word of its length),
    [solve] on the initial store returns an assignment, not [None]; the
    assignment returned is a solution; and the store that node
    consistency and AC-3 leave still has, in the domain of every slot, the
    word that any solution gives to that slot. *)
Theorem solve_complete crossword s :
  puzzle_well_formed crossword = true ->
  solution crossword s ->
  exists a d',
    solve crossword (init_domains crossword) = Ok (Some a, d') /\
    solution crossword a /\
    forall s' v w,
      solution crossword s' ->
      In v (variables crossword) -> dict_get v s' = Some w ->
      exists domain, dict_get v d' = Some domain /\ In w domain.
Proof.
  intros Hwf Hsol.
  destruct (enforce_node_consistency_ok crossword) as (d1 & Henf & Hok1 & Hkeep1).
  destruct (ac3_ok crossword Hwf d1 Hok1) as (b & d2 & Hac3 & Hok2 & Hkeep2).
  destruct (backtrack_ok crossword Hwf d2 Hok2)
    as ([a' r] & Hbt & Hpost & Hres & Hcomp).
  simpl in *.
  assert (keeps crossword d2 s) as Hkeep by (apply Hkeep2; auto).
  destruct r as [a|].
  2:{ exfalso. apply (Hcomp s); auto. intros v w []. }
  exists a, d2. split; [|split].
  - unfold solve. rewrite (bind_eq _ Henf), (bind_eq _ Hac3), (bind_eq _ Hbt).
    reflexivity.
  - unfold backtrack_post in Hpost. simpl in Hpost.
    destruct Hpost as (_ & Htotal & Hcons).
    split; [|apply Hcons; split; intros; discriminate].
    intros v Hv. destruct (Htotal v Hv) as (w & Hw). exists w.
    split; [assumption|].
    destruct (Hres a eq_refl) as [_ Hitems].
    destruct (Hitems v w (dict_get_In _ _ _ Hw)) as [_ Hdom].
    destruct Hok2 as [_ Hwords]. destruct (Hwords v w Hdom). auto.
  - intros s' v w Hsol' Hv Hs'.
    assert (keeps crossword d2 s') as Hkeep' by (apply Hkeep2; auto).
    specialize (Hkeep' v w Hv Hs').
    destruct (store_ok_get _ _ _ Hok2 Hv) as (domain & Hget).
    rewrite (dom_get Hget) in Hkeep'. eauto.
Qed.

Lemma solve_complete_witness :
  puzzle_well_formed Example.puzzle = true /\
  solution Example.puzzle
    [(Example.across, "CAT"%string); (Example.down, "ART"%string)] /\
  exists a d',
    solve Example.puzzle (init_domains Example.puzzle) = Ok (Some a, d') /\
    solution Example.puzzle a /\
    forall s' v w,
      solution Example.puzzle s' ->
      In v (variables Example.puzzle) -> dict_get v s' = Some w ->
      exists domain, dict_get v d' = Some domain /\ In w domain.
Proof.
  assert (solution Example.puzzle
            [(Example.across, "CAT"%string); (Example.down, "ART"%string)])
    as Hsol.
  { apply (solution_check Example.puzzle _ [] []); vm_compute; reflexivity. }
  split; [reflexivity|]. split; [exact Hsol|].
  apply (solve_complete Example.puzzle _ eq_refl Hsol).
Defined.

(** * Further properties of the solver *)

(** ** The choice of the next slot *)

(** X1.  When [select_unassigned_variable] returns a slot, it is a slot
    of the store that the assignment lacks; no unassigned slot has fewer
    remaining values; among the unassigned slots with as few remaining
    values none has more neighbours; and it is the first slot in the
    order of the store with these two numbers. *)
Theorem select_unassigned_variable_spec crossword a d var d' :
  select_unassigned_variable crossword a d = Ok (var, d') ->
  In var (dict_keys d) /\ dict_get var a = None /\
  (forall u, In u (dict_keys d) -> dict_get u a = None ->
             remaining d var <= remaining d u) /\
  (forall u, In u (dict_keys d) -> dict_get u a = None ->
             remaining d u = remaining d var ->
             degree crossword u <= degree crossword var) /\
  exists rest,
    filter (fun u => (remaining d u =? remaining d var) &&
                     (degree crossword u =? degree crossword var))
           (unassigned d a)
    = var :: rest.
Proof.
  rewrite select_unassigned_variable_eq. intros Hrun.
  apply lift_Ok in Hrun. destruct Hrun as [Hrun _].
  apply select_from_spec in Hrun. destruct Hrun as (Hin & Hmrv & Hdeg & Hfirst).
  apply unassigned_spec in Hin. destruct Hin as [Hkey Hfresh].
  split; [assumption|]. split; [assumption|]. split; [|split].
  - intros u Hu Hua. apply Hmrv. now apply unassigned_spec.
  - intros u Hu Hua. apply Hdeg. now apply unassigned_spec.
  - assumption.
Qed.

Lemma select_unassigned_variable_spec_witness :
  exists var d',
    select_unassigned_variable Example.puzzle []
      [(Example.across, ["CAT"; "TIE"]%string); (Example.down, ["ART"]%string)]
    = Ok (var, d') /\
    var = Example.down /\
    forall u,
      In u [Example.across; Example.down] ->
      dict_get u ([] : Assignment) = None ->
      remaining
        [(Example.across, ["CAT"; "TIE"]%string); (Example.down, ["ART"]%string)]
        var
      <= remaining
           [(Example.across, ["CAT"; "TIE"]%string);
            (Example.down, ["ART"]%string)] u.
Proof.
  eexists. eexists. split; [vm_compute; reflexivity|]. split; [reflexivity|].
  refine (proj1 (proj2 (proj2
            (select_unassigned_variable_spec Example.puzzle []
               [(Example.across, ["CAT"; "TIE"]%string);
                (Example.down, ["ART"]%string)] _ _ _)))).
  vm_compute. reflexivity.
Defined.

(** X2.  [select_unassigned_variable] raises [IndexError] when every slot
    of the store is assigned, and returns a slot, leaving the store as it
    is, as soon as one is not. *)
Theorem select_unassigned_variable_defined crossword a d :
  ((forall v, In v (dict_keys d) -> dict_get v a <> None) ->
   select_unassigned_variable crossword a d = Raise IndexError) /\
  (forall v, In v (dict_keys d) -> dict_get v a = None ->
             exists var, select_unassigned_variable crossword a d = Ok (var, d)).
Proof.
  rewrite select_unassigned_variable_eq. split.
  - intros Hall. assert (unassigned d a = []) as ->; [|reflexivity].
    apply filter_none. intros u Hu. apply negb_false_iff, dict_mem_true. auto.
  - intros v Hv Hfresh.
    destruct (select_from_total crossword d (unassigned d a)) as (var & Hvar).
    + intros Hnil. assert (In v (unassigned d a)) as Hin
          by now apply unassigned_spec.
      rewrite Hnil in Hin. destruct Hin.
    + exists var. unfold lift. now rewrite Hvar.
Qed.

Lemma select_unassigned_variable_defined_witness :
  select_unassigned_variable Example.single
    [(Example.across, "CAT"%string)] (init_domains Example.single)
  = Raise IndexError /\
  exists var,
    select_unassigned_variable Example.single [] (init_domains Example.single)
    = Ok (var, init_domains Example.single).
Proof.
  split.
  - apply (proj1 (select_unassigned_variable_defined Example.single
                    [(Example.across, "CAT"%string)]
                    (init_domains Example.single))).
    intros v [<-|[]]. discriminate.
  - apply (proj2 (select_unassigned_variable_defined Example.single []
                    (init_domains Example.single)) Example.across).
    + left. reflexivity.
    + reflexivity.
Defined.

(** ** [revise] *)

(** X3.  When [revise(x, y)] returns, [(x, y)] is a key of [overlaps]; the
    domain of every slot other than [x] is untouched and the domain of
    [x] has lost words at most.  It returns [False] exactly when the store
    is unchanged: on [False] the store is the same, on [True] a word of
    the domain of [x] is gone.  Without an overlap it returns [False]. *)
Theorem revise_reports_revision crossword x y d revised d' :
  revise crossword x y d = Ok (revised, d') ->
  (exists o,
      dict_get (x, y) (overlaps crossword) = Some o /\
      (o = None -> revised = false)) /\
  (forall v, v <> x -> dict_get v d' = dict_get v d) /\
  (forall w, In w (dom d' x) -> In w (dom d x)) /\
  (revised = false -> d' = d) /\
  (revised = true -> exists w, In w (dom d x) /\ ~ In w (dom d' x)).
Proof.
  intros Hrun.
  pose proof (shrinking_revise crossword x y _ _ _ Hrun) as Hshr.
  unfold revise in Hrun.
  apply bind_Ok in Hrun. destruct Hrun as (o & d1 & Hlk & Hrun).
  inv_step Hlk. apply dict_lookup_Ok in Hl.
  split; [|split; [|split]].
  - exists o. split; [assumption|]. intros ->. now inv_step Hrun.
  - destruct o as [[i j]|]; [|now inv_step Hrun].
    apply bind_Ok in Hrun. destruct Hrun as (domain_x & d1 & Hgx & Hloop).
    inv_step Hgx. eapply revise_loop_frame; eauto.
  - intros w Hin. specialize (Hshr x). unfold dom in *.
    destruct (dict_get x d') as [s'|], (dict_get x d) as [s|]; try tauto.
    auto.
  - destruct o as [[i j]|].
    2:{ inv_step Hrun. split; [reflexivity|discriminate]. }
    apply bind_Ok in Hrun. destruct Hrun as (domain_x & d1 & Hgx & Hloop).
    inv_step Hgx. split.
    + intros ->. eapply revise_loop_unchanged; eauto.
    + intros ->. eapply revise_loop_removed; eauto.
      intros v Hv. now rewrite (dom_get Hget).
Qed.

Lemma revise_reports_revision_witness :
  exists d',
    revise Example.unsolvable Example.across Example.down
      (init_domains Example.unsolvable) = Ok (true, d') /\
    exists w,
      In w (dom (init_domains Example.unsolvable) Example.across) /\
      ~ In w (dom d' Example.across).
Proof.
  eexists. split; [vm_compute; reflexivity|].
  refine (proj2 (proj2 (proj2 (proj2
            (revise_reports_revision Example.unsolvable Example.across
               Example.down (init_domains Example.unsolvable) true _ _))))
          eq_refl).
  vm_compute. reflexivity.
Defined.

(** X4.  On two different slots with overlap [(i, j)], [revise(x, y)]
    keeps exactly the words of the domain of [x] that have a partner in
    the domain of [y] (a word [wy] with [w[i] == wy[j]]), in their
    order. *)
Theorem revise_keeps_supported crossword x y i j d revised d' :
  x <> y ->
  dict_get (x, y) (overlaps crossword) = Some (Some (i, j)) ->
  revise crossword x y d = Ok (revised, d') ->
  (forall w,
      In w (dom d' x) <->
      In w (dom d x) /\
      exists wy c,
        In wy (dom d y) /\
        String.get i w = Some c /\ String.get j wy = Some c) /\
  exists keep, dom d' x = filter keep (dom d x).
Proof.
  intros Hxy Hov Hrun.
  destruct (revise_inv crossword x y i j Hov d revised d' Hxy Hrun)
    as (domain_x & Hgx & Hall & -> & _).
  rewrite dom_set_same, (dom_get Hgx). split; [|eauto].
  intros w. rewrite filter_In. split.
  - intros [Hin Hsup]. split; [assumption|].
    apply supported_true in Hsup.
    now apply has_corresponding_value_true.
  - intros [Hin Hpartner]. split; [assumption|].
    destruct (Hall w Hin) as (_ & h & Hh).
    apply supported_true. rewrite Hh. f_equal.
    now apply (has_corresponding_value_iff _ _ _ _ _ Hh).
Qed.

Lemma revise_keeps_supported_witness :
  exists d',
    revise Example.puzzle Example.across Example.down
      (init_domains Example.puzzle) = Ok (true, d') /\
    dom d' Example.across = ["CAT"; "LATER"]%string /\
    forall w,
      In w (dom d' Example.across) <->
      In w (dom (init_domains Example.puzzle) Example.across) /\
      exists wy c,
        In wy (dom (init_domains Example.puzzle) Example.down) /\
        String.get 1 w = Some c /\ String.get 0 wy = Some c.
Proof.
  eexists. split; [vm_compute; reflexivity|]. split; [reflexivity|].
  refine (proj1 (revise_keeps_supported Example.puzzle Example.across
                   Example.down 1 0 (init_domains Example.puzzle) true _
                   _ eq_refl _)).
  - discriminate.
  - vm_compute. reflexivity.
Defined.

(** ** AC-3: the fixed point and the length of the run *)

(** X5.  AC-3 removes no word of an arc-consistent part of the store: if
    the domains of [e] are parts of the domains of [d] and in [e] every
    word has a partner on every arc with a defined overlap, then the
    domains of [e] are still parts of the domains that [ac3] leaves,
    whatever the arcs it is given and whatever it returns. *)
Theorem ac3_keeps_arc_consistent_part crossword arcs e d b d' :
  ac3 crossword arcs d = Ok (b, d') ->
  arc_closed crossword e ->
  within e d ->
  within e d'.
Proof.
  unfold ac3. intros Hrun He Hw.
  apply bind_Ok in Hrun. destruct Hrun as (d0 & d1 & Hm & Hloop). inv_step Hm.
  eapply ac3_loop_within; eauto.
Qed.

Lemma ac3_keeps_arc_consistent_part_witness :
  exists d',
    ac3 Example.puzzle None (init_domains Example.puzzle) = Ok (true, d') /\
    within [(Example.across, ["CAT"%string]); (Example.down, ["ART"%string])] d'.
Proof.
  eexists. split; [vm_compute; reflexivity|].
  refine (ac3_keeps_arc_consistent_part Example.puzzle None
            [(Example.across, ["CAT"%string]); (Example.down, ["ART"%string])]
            (init_domains Example.puzzle) true _ _ _ _).
  - vm_compute. reflexivity.
  - intros x y i j wx Hov Hin.
    unfold Example.puzzle in Hov. simpl in Hov.
    destruct (eq_dec (x, y) (Example.across, Example.down)) as [Heq|_].
    + inversion Heq; subst. inversion Hov; subst.
      destruct Hin as [<-|[]]. exists "ART"%string, "A"%char.
      repeat split. now left.
    + destruct (eq_dec (x, y) (Example.down, Example.across)) as [Heq|_];
        [|discriminate].
      inversion Heq; subst. inversion Hov; subst.
      destruct Hin as [<-|[]]. exists "CAT"%string, "A"%char.
      repeat split. now left.
  - intros v w Hin. unfold dom in *. simpl in *.
    destruct (eq_dec v Example.across) as [->|_].
    + destruct Hin as [<-|[]]. simpl. auto.
    + destruct (eq_dec v Example.down) as [->|_]; [|destruct Hin].
      destruct Hin as [<-|[]]. simpl. auto.
Defined.

(** X6.  The order of the worklist does not matter: on a puzzle whose
    overlap relation is symmetric, two runs of [ac3] on the same store,
    each given a list holding every arc with a defined overlap, that both
    return [True] leave the same words in every domain. *)
Theorem ac3_order_independent crossword arcs1 arcs2 d d1 d2 :
  overlaps_symmetric crossword = true ->
  (forall x y i j,
      dict_get (x, y) (overlaps crossword) = Some (Some (i, j)) ->
      In (x, y) arcs1 /\ In (x, y) arcs2) ->
  ac3 crossword (Some arcs1) d = Ok (true, d1) ->
  ac3 crossword (Some arcs2) d = Ok (true, d2) ->
  forall v w, In w (dom d1 v) <-> In w (dom d2 v).
Proof.
  intros Hwf Harcs Hrun1 Hrun2.
  assert (forall arcs d',
             (forall x y i j,
                 dict_get (x, y) (overlaps crossword) = Some (Some (i, j)) ->
                 In (x, y) arcs) ->
             ac3 crossword (Some arcs) d = Ok (true, d') ->
             arc_closed crossword d' /\ within d' d) as Hfix.
  { intros arcs d' Hcover Hrun. split.
    - unfold ac3 in Hrun. apply bind_Ok in Hrun.
      destruct Hrun as (d0 & d3 & Hm & Hloop). inv_step Hm.
      apply ac3_inv_arc_closed.
      eapply (ac3_loop_sound crossword Hwf); [|exact Hloop].
      intros x y i j Hov. left. eauto.
    - apply within_shrunk. eapply shrinking_ac3; eauto. }
  destruct (Hfix arcs1 d1) as [Hc1 Hw1]; [intros; eapply Harcs; eauto|assumption|].
  destruct (Hfix arcs2 d2) as [Hc2 Hw2]; [intros; eapply Harcs; eauto|assumption|].
  intros v w. split; intros Hin.
  - eapply (ac3_loop_within crossword d1 Hc1); [|exact Hw1|exact Hin].
    unfold ac3 in Hrun2. apply bind_Ok in Hrun2.
    destruct Hrun2 as (d0 & d3 & Hm & Hloop). inv_step Hm. exact Hloop.
  - eapply (ac3_loop_within crossword d2 Hc2); [|exact Hw2|exact Hin].
    unfold ac3 in Hrun1. apply bind_Ok in Hrun1.
    destruct Hrun1 as (d0 & d3 & Hm & Hloop). inv_step Hm. exact Hloop.
Qed.

Lemma ac3_order_independent_witness :
  exists d1 d2,
    ac3 Example.puzzle
      (Some [(Example.across, Example.down); (Example.down, Example.across)])
      (init_domains Example.puzzle) = Ok (true, d1) /\
    ac3 Example.puzzle
      (Some [(Example.down, Example.across); (Example.across, Example.down)])
      (init_domains Example.puzzle) = Ok (true, d2) /\
    forall v w, In w (dom d1 v) <-> In w (dom d2 v).
Proof.
  eexists. eexists. split; [vm_compute; reflexivity|].
  split; [vm_compute; reflexivity|].
  refine (ac3_order_independent Example.puzzle
            [(Example.across, Example.down); (Example.down, Example.across)]
            [(Example.down, Example.across); (Example.across, Example.down)]
            (init_domains Example.puzzle) _ _ eq_refl _ _ _).
  - intros x y i j Hov. unfold Example.puzzle in Hov. simpl in Hov.
    destruct (eq_dec (x, y) (Example.across, Example.down)) as [Heq|_].
    + inversion Heq; subst. simpl. auto.
    + destruct (eq_dec (x, y) (Example.down, Example.across)) as [Heq|_];
        [|discriminate].
      inversion Heq; subst. simpl. auto.
  - vm_compute. reflexivity.
  - vm_compute. reflexivity.
Defined.

(** X7.  The loop of [ac3] ends: started on a queue and a store, it makes
    at most as many turns as the length of the queue plus the number of
    candidate words in the store times the number of slots; so [ac3],
    which starts the loop with that much fuel, never runs out of it. *)
Theorem ac3_loop_terminates crossword :
  (forall fuel queue d,
      List.length queue
      + domains_size d * List.length (variables crossword) <= fuel ->
      ac3_loop crossword fuel queue d <> OutOfFuel) /\
  (forall arcs d, ac3 crossword arcs d <> OutOfFuel).
Proof.
  split.
  - intros fuel queue d Hfuel Heq.
    pose proof (ac3_loop_fuel crossword fuel queue d Hfuel) as H.
    now rewrite Heq in H.
  - intros arcs d. apply runs_not_out_of_fuel, runs_ac3.
Qed.

Lemma ac3_loop_terminates_witness :
  ac3_loop Example.puzzle 18
    (dict_keys (overlaps Example.puzzle)) (init_domains Example.puzzle)
  <> OutOfFuel.
Proof.
  apply (proj1 (ac3_loop_terminates Example.puzzle)).
  vm_compute. repeat constructor.
Defined.

(** ** The search *)

(** X8.  On an assignment (a dictionary, so without repeated keys),
    [consistent], when it returns, returns [True] exactly when the
    assigned words are pairwise distinct and every two assigned slots
    with a defined overlap carry the same character there. *)
Theorem consistent_decides crossword a d b d' :
  NoDup (dict_keys a) ->
  consistent crossword a d = Ok (b, d') ->
  (b = true <->
   (forall v1 v2 w1 w2,
       v1 <> v2 -> dict_get v1 a = Some w1 -> dict_get v2 a = Some w2 ->
       w1 <> w2) /\
   (forall v1 v2 w1 w2 i j,
       v1 <> v2 -> dict_get v1 a = Some w1 -> dict_get v2 a = Some w2 ->
       dict_get (v1, v2) (overlaps crossword) = Some (Some (i, j)) ->
       exists c, String.get i w1 = Some c /\ String.get j w2 = Some c)).
Proof.
  intros Hnd Hrun. split.
  - intros ->. apply (consistent_true crossword a d d' Hrun).
  - intros Hcons.
    apply (consistent_of_assignment_consistent crossword a d b d' Hnd Hcons Hrun).
Qed.

Lemma consistent_decides_witness :
  consistent Example.puzzle
    [(Example.across, "CAT"%string); (Example.down, "TIE"%string)] []
  = Ok (false, []) /\
  ~ ((forall v1 v2 w1 w2,
         v1 <> v2 ->
         dict_get v1 [(Example.across, "CAT"%string); (Example.down, "TIE"%string)]
         = Some w1 ->
         dict_get v2 [(Example.across, "CAT"%string); (Example.down, "TIE"%string)]
         = Some w2 ->
         w1 <> w2) /\
     (forall v1 v2 w1 w2 i j,
         v1 <> v2 ->
         dict_get v1 [(Example.across, "CAT"%string); (Example.down, "TIE"%string)]
         = Some w1 ->
         dict_get v2 [(Example.across, "CAT"%string); (Example.down, "TIE"%string)]
         = Some w2 ->
         dict_get (v1, v2) (overlaps Example.puzzle) = Some (Some (i, j)) ->
         exists c, String.get i w1 = Some c /\ String.get j w2 = Some c)).
Proof.
  split; [reflexivity|]. intros Hcons.
  assert (false = true) as Habs; [|discriminate].
  refine (proj2 (consistent_decides Example.puzzle
                   [(Example.across, "CAT"%string); (Example.down, "TIE"%string)]
                   [] false [] _ eq_refl) Hcons).
  apply NoDup_cons; [intros [H|[]]; discriminate|].
  apply NoDup_cons; [intros []|constructor].
Defined.

(** X9.  An assignment returned by [backtrack] is the assignment given,
    entry for entry and in the same order, followed by new entries; the
    new entries assign slots of the store that the given assignment
    lacked, each once, and give each a word of its domain. *)
Theorem backtrack_extends_assignment crossword a d r d' result :
  backtrack crossword a d = Ok (r, d') ->
  snd r = Some result ->
  exists ext,
    result = a ++ ext /\
    NoDup (dict_keys ext) /\
    forall v w,
      In (v, w) ext ->
      In v (dict_keys d) /\ dict_get v a = None /\ In w (dom d v).
Proof.
  unfold backtrack. intros Hrun Hres.
  apply bind_Ok in Hrun. destruct Hrun as (d0 & d1 & Hm & Hk). inv_step Hm.
  exact (backtrack_fuel_extends crossword _ a d r d' Hk result Hres).
Qed.

Lemma backtrack_extends_assignment_witness :
  exists r d' result,
    backtrack Example.puzzle [(Example.down, "ART"%string)]
      (init_domains Example.puzzle) = Ok (r, d') /\
    snd r = Some result /\
    exists ext,
      result = [(Example.down, "ART"%string)] ++ ext /\
      NoDup (dict_keys ext) /\
      forall v w,
        In (v, w) ext ->
        In v (dict_keys (init_domains Example.puzzle)) /\
        dict_get v [(Example.down, "ART"%string)] = None /\
        In w (dom (init_domains Example.puzzle) v).
Proof.
  eexists. eexists. eexists. split; [vm_compute; reflexivity|].
  split; [reflexivity|].
  eapply (backtrack_extends_assignment Example.puzzle
            [(Example.down, "ART"%string)] (init_domains Example.puzzle)).
  - vm_compute. reflexivity.
  - reflexivity.
Defined.

(** X10.  An assignment returned by [CrosswordCreator(crossword).solve()]
    has exactly the slots of the puzzle as keys and gives each a word of
    the vocabulary whose length is the length of the slot. *)
Theorem generate_answer_fits crossword a :
  generate crossword = Ok (Some a) ->
  NoDup (dict_keys a) /\
  (forall v, In v (dict_keys a) <-> In v (variables crossword)) /\
  (forall v w,
      In (v, w) a ->
      In w (words crossword) /\ String.length w = var_length v).
Proof.
  unfold generate. intros Hrun.
  apply bindR_Ok in Hrun. destruct Hrun as ([res d'] & Hsolve & Hret).
  simpl in Hret. inversion Hret; subst res. clear Hret.
  apply solve_inv in Hsolve.
  destruct Hsolve as (d1 & d2 & b & r & Henf & Hac3 & Hbt & Hr).
  destruct (enforce_node_consistency_ok crossword) as (d1' & Henf' & Hok1 & _).
  assert (d1' = d1) by congruence. subst d1'.
  pose proof (store_ok_shrunk _ _ _ Hok1 (shrinking_ac3 crossword None _ _ _ Hac3))
    as [Hkeys Hwords].
  pose proof (backtrack_post_top crossword _ _ _ _ Hbt) as Hpost.
  unfold backtrack_post in Hpost. rewrite <- Hr in Hpost.
  destruct Hpost as (_ & Htotal & _).
  unfold backtrack in Hbt.
  apply bind_Ok in Hbt. destruct Hbt as (d0 & d3 & Hm & Hk). inv_step Hm.
  destruct (backtrack_fuel_extends crossword _ _ _ _ _ Hk a (eq_sym Hr))
    as (ext & Heq & Hnd & Hext).
  simpl in Heq. subst ext.
  split; [assumption|]. split.
  - intros v. split.
    + intros Hin. unfold dict_keys in Hin. apply in_map_iff in Hin.
      destruct Hin as ([v' w] & Hv & Hin). simpl in Hv. subst v'.
      destruct (Hext v w Hin) as (Hk' & _ & _).
      apply Hkeys. now apply dict_get_In_keys.
    + intros Hv. destruct (Htotal v Hv) as (w & Hw).
      apply dict_get_In_keys. congruence.
  - intros v w Hin. destruct (Hext v w Hin) as (_ & _ & Hw).
    destruct (Hwords v w Hw). auto.
Qed.

Lemma generate_answer_fits_witness :
  exists a,
    generate Example.puzzle = Ok (Some a) /\
    NoDup (dict_keys a) /\
    (forall v, In v (dict_keys a) <-> In v (variables Example.puzzle)) /\
    (forall v w,
        In (v, w) a ->
        In w (words Example.puzzle) /\ String.length w = var_length v).
Proof.
  eexists. split; [vm_compute; reflexivity|].
  apply (generate_answer_fits Example.puzzle). vm_compute. reflexivity.
Defined.

(** X11.  If a slot of the store that the assignment lacks has an empty
    domain and the assignment is not complete, [backtrack] returns [None]
    at once, with the assignment and the store as they were. *)
Theorem backtrack_empty_domain crossword a d x v :
  dict_get x d = Some [] -> dict_get x a = None ->
  In v (variables crossword) -> dict_get v a = None ->
  backtrack crossword a d = Ok ((a, None), d).
Proof.
  intros Hx Hxa Hv Hva. unfold backtrack, bind, get_domains.
  now apply (backtrack_fuel_empty_domain crossword _ a d x v).
Qed.

Lemma backtrack_empty_domain_witness :
  backtrack Example.puzzle []
    [(Example.across, ["CAT"%string]); (Example.down, [])]
  = Ok (([], None), [(Example.across, ["CAT"%string]); (Example.down, [])]).
Proof.
  apply (backtrack_empty_domain Example.puzzle []
           [(Example.across, ["CAT"%string]); (Example.down, [])]
           Example.down Example.across).
  - reflexivity.
  - reflexivity.
  - left. reflexivity.
  - reflexivity.
Defined.

(** X12.  [solve] does not look at what [ac3] returns, yet when [ac3]
    returns [False] after node consistency, [solve] returns [None]. *)
Theorem generate_none_when_ac3_fails crossword d1 d2 :
  enforce_node_consistency (init_domains crossword) = Ok (tt, d1) ->
  ac3 crossword None d1 = Ok (false, d2) ->
  generate crossword = Ok None.
Proof.
  intros Henf Hac3.
  destruct (enforce_node_consistency_ok crossword) as (d1' & Henf' & Hok1 & _).
  assert (d1' = d1) by congruence. subst d1'.
  pose proof (store_ok_shrunk _ _ _ Hok1 (shrinking_ac3 crossword None _ _ _ Hac3))
    as [Hkeys _].
  assert (exists x, dict_get x d2 = Some []) as (x & Hx).
  { unfold ac3 in Hac3. apply bind_Ok in Hac3.
    destruct Hac3 as (d0 & d3 & Hm & Hloop). inv_step Hm.
    destruct (ac3_loop_false crossword _ _ _ _ Hloop) as (x & y & d4 & _ & _ & Hx).
    eauto. }
  assert (In x (variables crossword)) as Hv by (apply Hkeys; congruence).
  assert (backtrack crossword [] d2 = Ok (([], None), d2)) as Hbt.
  { unfold backtrack, bind, get_domains.
    now apply (backtrack_fuel_empty_domain crossword _ [] d2 x x). }
  unfold generate, solve.
  rewrite (bind_eq _ Henf), (bind_eq _ Hac3), (bind_eq _ Hbt). reflexivity.
Qed.

Lemma generate_none_when_ac3_fails_witness :
  exists d1 d2,
    enforce_node_consistency (init_domains Example.unsolvable) = Ok (tt, d1) /\
    ac3 Example.unsolvable None d1 = Ok (false, d2) /\
    generate Example.unsolvable = Ok None.
Proof.
  eexists. eexists. split; [vm_compute; reflexivity|].
  split; [vm_compute; reflexivity|].
  refine (generate_none_when_ac3_fails Example.unsolvable _ _ _ _);
    vm_compute; reflexivity.
Defined.

(** X13.  Node consistency is idempotent: [enforce_node_consistency] on
    the store it has left returns and leaves that very store. *)
Theorem enforce_node_consistency_idempotent d d1 :
  enforce_node_consistency d = Ok (tt, d1) ->
  enforce_node_consistency d1 = Ok (tt, d1).
Proof.
  intros Hrun.
  destruct (enforce_node_consistency_eq d) as (d1' & Hrun' & Hd1).
  assert (d1' = d1) by congruence. subst d1'.
  unfold enforce_node_consistency, bind, get_domains.
  apply enforce_node_consistency_fixed.
  - intros k Hin. now apply dict_get_In_keys.
  - intros v dv Hget. rewrite Hd1 in Hget.
    destruct (dict_get v d) as [dv0|]; [|discriminate].
    simpl in Hget. inversion Hget; subst. apply filter_idem.
Qed.

Lemma enforce_node_consistency_idempotent_witness :
  exists d1,
    enforce_node_consistency (init_domains Example.puzzle) = Ok (tt, d1) /\
    enforce_node_consistency d1 = Ok (tt, d1).
Proof.
  eexists. split; [vm_compute; reflexivity|].
  apply (enforce_node_consistency_idempotent (init_domains Example.puzzle)).
  vm_compute. reflexivity.
Defined.

(** X14.  The recursion of [backtrack] ends: a call needs at most one
    level more than the number of slots of the store that the assignment
    lacks; so [backtrack] and [solve], which start with that much fuel,
    never run out of it. *)
Theorem backtrack_terminates crossword :
  (forall fuel a d,
      unassigned_count d a < fuel ->
      backtrack_fuel crossword fuel a d <> OutOfFuel) /\
  (forall a d, backtrack crossword a d <> OutOfFuel) /\
  (forall d, solve crossword d <> OutOfFuel).
Proof.
  split; [|split].
  - intros fuel a d. apply backtrack_fuel_enough.
  - apply backtrack_never_out_of_fuel.
  - apply solve_never_out_of_fuel.
Qed.

Lemma backtrack_terminates_witness :
  backtrack_fuel Example.puzzle 3 [] (init_domains Example.puzzle)
  <> OutOfFuel.
Proof.
  apply (proj1 (backtrack_terminates Example.puzzle)).
  vm_compute. repeat constructor.
Defined.

(** ** Rendering *)

(** X15.  [letter_grid] either returns an array of [height] rows of
    [width] entries, and then every letter of every assigned word falls
    on a cell of the grid; or it raises [IndexError], and then some letter
    of an assigned word falls outside the grid. *)
Theorem letter_grid_defined grid assignment :
  (exists letters,
      letter_grid grid assignment = Ok letters /\
      List.length letters = height grid /\
      (forall row, In row letters -> List.length row = width grid) /\
      forall variable word k,
        In (variable, word) assignment -> k < String.length word ->
        fst (cell_of variable k) < height grid /\
        snd (cell_of variable k) < width grid) \/
  (letter_grid grid assignment = Raise IndexError /\
   exists variable word k,
     In (variable, word) assignment /\ k < String.length word /\
     ~ (fst (cell_of variable k) < height grid /\
        snd (cell_of variable k) < width grid)).
Proof.
  unfold letter_grid. rewrite letter_grid_loop_eq.
  pose proof (shaped_initial (height grid) (width grid)) as Hs.
  destruct (apply_writes_cases _ _ (writes assignment) _ Hs)
    as [(letters & Hrun)|(Hraise & rc & c & Hin & Hout)].
  - left. exists letters. split; [assumption|].
    destruct (apply_writes_Ok _ _ _ _ _ Hs Hrun) as ([Hh Hw] & Hrange & _ & _).
    split; [assumption|]. split; [assumption|].
    intros variable word k Hin Hk.
    destruct (string_get_lt word k Hk) as (c & Hc).
    apply (Hrange (cell_of variable k) c).
    apply writes_spec. exists variable, word, k. auto.
  - right. split; [assumption|].
    apply writes_spec in Hin. destruct Hin as (variable & word & k & Hin & Hget & ->).
    exists variable, word, k. split; [assumption|]. split; [|assumption].
    destruct (Nat.lt_ge_cases k (String.length word)) as [Hlt|Hge];
      [assumption|].
    exfalso. clear -Hget Hge. revert k Hget Hge.
    induction word as [|a word IH]; intros k Hget Hge; simpl in *;
      [discriminate|].
    destruct k as [|k]; [lia|]. apply (IH k); [assumption|lia].
Qed.

Lemma letter_grid_defined_witness :
  letter_grid (mkGrid 2 3 []) [(Example.across, "CAT"%string)]
  = Ok [[None; None; None]; [Some "C"; Some "A"; Some "T"]%char] /\
  letter_grid (mkGrid 2 2 []) [(Example.across, "CAT"%string)]
  = Raise IndexError.
Proof.
  split.
  - destruct (letter_grid_defined (mkGrid 2 3 [])
                [(Example.across, "CAT"%string)])
      as [(letters & Hrun & _)|(Hraise & _)].
    + reflexivity.
    + discriminate Hraise.
  - destruct (letter_grid_defined (mkGrid 2 2 [])
                [(Example.across, "CAT"%string)])
      as [(letters & Hrun & _)|(Hraise & _)].
    + discriminate Hrun.
    + exact Hraise.
Defined.

(** X16.  In the array that [letter_grid] returns, a cell that no letter
    of an assigned word falls on holds [None], and a cell on which all the
    letters that fall on it agree holds that letter. *)
Theorem letter_grid_cells grid assignment letters :
  letter_grid grid assignment = Ok letters ->
  (forall r c,
      r < height grid -> c < width grid ->
      (forall variable word k,
          In (variable, word) assignment -> k < String.length word ->
          cell_of variable k <> (r, c)) ->
      cell letters (r, c) = Some None) /\
  (forall variable word k ch,
      In (variable, word) assignment -> String.get k word = Some ch ->
      (forall variable' word' k' ch',
          In (variable', word') assignment ->
          String.get k' word' = Some ch' ->
          cell_of variable' k' = cell_of variable k -> ch' = ch) ->
      cell letters (cell_of variable k) = Some (Some ch)).
Proof.
  unfold letter_grid. rewrite letter_grid_loop_eq. intros Hrun.
  pose proof (shaped_initial (height grid) (width grid)) as Hs.
  destruct (apply_writes_Ok _ _ _ _ _ Hs Hrun) as (_ & _ & Hfree & Hlast).
  split.
  - intros r c Hr Hc Hnone. rewrite Hfree.
    + now apply cell_initial.
    + intros ch Hin. apply writes_spec in Hin.
      destruct Hin as (variable & word & k & Hin & Hget & Heq).
      apply (Hnone variable word k Hin); [|congruence].
      destruct (Nat.lt_ge_cases k (String.length word)) as [Hlt|Hge];
        [assumption|].
      exfalso. clear -Hget Hge. revert k Hget Hge.
      induction word as [|a word IH]; intros k Hget Hge; simpl in *;
        [discriminate|].
      destruct k as [|k]; [lia|]. apply (IH k); [assumption|lia].
  - intros variable word k ch Hin Hget Hagree. apply Hlast.
    + apply writes_spec. exists variable, word, k. auto.
    + intros ch' Hin'. apply writes_spec in Hin'.
      destruct Hin' as (variable' & word' & k' & Hin' & Hget' & Heq).
      eapply Hagree; eauto.
Qed.

Lemma letter_grid_cells_witness :
  exists letters,
    letter_grid (mkGrid 4 3 [])
      [(Example.across, "CAT"%string); (Example.down, "ART"%string)]
    = Ok letters /\
    cell letters (0, 0) = Some None.
Proof.
  eexists. split; [vm_compute; reflexivity|].
  refine (proj1 (letter_grid_cells (mkGrid 4 3 [])
                   [(Example.across, "CAT"%string); (Example.down, "ART"%string)]
                   _ _) 0 0 _ _ _).
  - vm_compute. reflexivity.
  - simpl. lia.
  - simpl. lia.
  - intros variable word k [Heq|[Heq|[]]] Hk; inversion Heq; subst;
      unfold cell_of; simpl; intros Habs; inversion Habs.
Defined.

(** X17.  When [print] returns, [letter_grid] has returned an array and
    [print] has written [height] lines of [width] characters: for a cell
    that [structure] marks as blocked the full block, whatever the
    assignment, and for a fillable cell the letter of the array, or a
    space where the array has none. *)
Theorem print_lines grid assignment lines :
  print grid assignment = Ok lines ->
  exists letters,
    letter_grid grid assignment = Ok letters /\
    List.length lines = height grid /\
    forall i j,
      i < height grid -> j < width grid ->
      exists line row fillable,
        nth_error lines i = Some line /\
        List.length line = width grid /\
        nth_error (structure grid) i = Some row /\
        nth_error row j = Some fillable /\
        nth_error line j
        = Some (if (fillable : bool)
                then match cell letters (i, j) with
                     | Some (Some c) => Char c
                     | _ => Char " "
                     end
                else Block).
Proof.
  unfold print. intros Hrun.
  apply bindR_Ok in Hrun. destruct Hrun as (letters & Hgrid & Hrun).
  exists letters. split; [assumption|].
  apply mapR_Ok in Hrun. destruct Hrun as (Hlen & Hrows).
  rewrite length_seq in Hlen. split; [assumption|].
  intros i j Hi Hj.
  destruct (Hrows i i) as (line & Hline & Hrow).
  { now rewrite nth_error_seq_lt. }
  apply mapR_Ok in Hrow. destruct Hrow as (Hlen' & Hcells).
  rewrite length_seq in Hlen'.
  destruct (Hcells j j) as (g & Hg & Hcell).
  { now rewrite nth_error_seq_lt. }
  unfold print_cell, list_index in Hcell.
  destruct (nth_error (structure grid) i) as [row|] eqn:Hsrow;
    [|discriminate].
  simpl in Hcell.
  destruct (nth_error row j) as [fillable|] eqn:Hfill; [|discriminate].
  simpl in Hcell.
  exists line, row, fillable. repeat (split; [assumption|]).
  split; [reflexivity|]. rewrite Hg. f_equal.
  destruct fillable; [|now inversion Hcell].
  unfold cell. simpl.
  destruct (nth_error letters i) as [lrow|]; [|discriminate].
  simpl in Hcell.
  destruct (nth_error lrow j) as [[c|]|]; simpl in Hcell;
    now inversion Hcell.
Qed.

Lemma print_lines_witness :
  exists lines,
    print (mkGrid 2 3 [[false; false; true]; [true; true; true]])
      [(Example.across, "CAT"%string)] = Ok lines /\
    lines = [[Block; Block; Char " "]; [Char "C"; Char "A"; Char "T"]]%char /\
    exists letters,
      letter_grid (mkGrid 2 3 [[false; false; true]; [true; true; true]])
        [(Example.across, "CAT"%string)] = Ok letters /\
      List.length lines = 2.
Proof.
  eexists. split; [vm_compute; reflexivity|]. split; [reflexivity|].
  destruct (print_lines (mkGrid 2 3 [[false; false; true]; [true; true; true]])
              [(Example.across, "CAT"%string)] _ eq_refl)
    as (letters & Hgrid & Hlen & _).
  exists letters. split; [exact Hgrid|exact Hlen].
Defined.

(** ** The search from a partial assignment *)

(** X18.  [backtrack] does not check the assignment it is given, but
    keeps it consistent: called on a consistent assignment, it returns
    [None] or an assignment that is complete and consistent. *)
Theorem backtrack_sound_from_consistent crossword a d r d' result :
  (forall v1 v2 w1 w2,
      v1 <> v2 -> dict_get v1 a = Some w1 -> dict_get v2 a = Some w2 ->
      w1 <> w2) ->
  (forall v1 v2 w1 w2 i j,
      v1 <> v2 -> dict_get v1 a = Some w1 -> dict_get v2 a = Some w2 ->
      dict_get (v1, v2) (overlaps crossword) = Some (Some (i, j)) ->
      exists c, String.get i w1 = Some c /\ String.get j w2 = Some c) ->
  backtrack crossword a d = Ok (r, d') ->
  snd r = Some result ->
  (forall v, In v (variables crossword) ->
             exists w, dict_get v result = Some w) /\
  (forall v1 v2 w1 w2,
      v1 <> v2 ->
      dict_get v1 result = Some w1 -> dict_get v2 result = Some w2 ->
      w1 <> w2) /\
  (forall v1 v2 w1 w2 i j,
      v1 <> v2 ->
      dict_get v1 result = Some w1 -> dict_get v2 result = Some w2 ->
      dict_get (v1, v2) (overlaps crossword) = Some (Some (i, j)) ->
      exists c, String.get i w1 = Some c /\ String.get j w2 = Some c).
Proof.
  intros Hdistinct Hagree Hrun Hres.
  apply backtrack_post_top in Hrun. unfold backtrack_post in Hrun.
  rewrite Hres in Hrun. destruct Hrun as (_ & Htotal & Hcons).
  split; [exact Htotal|]. apply Hcons. split; assumption.
Qed.

Lemma backtrack_sound_from_consistent_witness :
  exists r d' result,
    backtrack Example.puzzle [(Example.down, "ART"%string)]
      (init_domains Example.puzzle) = Ok (r, d') /\
    snd r = Some result /\
    forall v, In v (variables Example.puzzle) ->
              exists w, dict_get v result = Some w.
Proof.
  assert (forall v1 v2 w1 w2,
             v1 <> v2 ->
             dict_get v1 [(Example.down, "ART"%string)] = Some w1 ->
             dict_get v2 [(Example.down, "ART"%string)] = Some w2 ->
             w1 <> w2) as Hd.
  { intros v1 v2 w1 w2 Hne H1 H2. simpl in H1, H2.
    destruct (eq_dec v1 Example.down) as [->|]; [|discriminate].
    destruct (eq_dec v2 Example.down) as [->|]; [|discriminate].
    congruence. }
  assert (forall v1 v2 w1 w2 i j,
             v1 <> v2 ->
             dict_get v1 [(Example.down, "ART"%string)] = Some w1 ->
             dict_get v2 [(Example.down, "ART"%string)] = Some w2 ->
             dict_get (v1, v2) (overlaps Example.puzzle) = Some (Some (i, j)) ->
             exists c, String.get i w1 = Some c /\ String.get j w2 = Some c)
    as Ha.
  { intros v1 v2 w1 w2 i j Hne H1 H2. simpl in H1, H2.
    destruct (eq_dec v1 Example.down) as [->|]; [|discriminate].
    destruct (eq_dec v2 Example.down) as [->|]; [|discriminate].
    congruence. }
  eexists. eexists. eexists. split; [vm_compute; reflexivity|].
  split; [reflexivity|].
  refine (proj1 (backtrack_sound_from_consistent Example.puzzle
                   [(Example.down, "ART"%string)]
                   (init_domains Example.puzzle) _ _ _ Hd Ha _ _)).
  - vm_compute. reflexivity.
  - reflexivity.
Defined.

(** X19.  A failure of AC-3 is sound: on a well-formed puzzle, if [ac3]
    returns [False] after node consistency, the puzzle has no solution. *)
Theorem ac3_failure_sound crossword d1 d2 s :
  puzzle_well_formed crossword = true ->
  enforce_node_consistency (init_domains crossword) = Ok (tt, d1) ->
  ac3 crossword None d1 = Ok (false, d2) ->
  ~ solution crossword s.
Proof.
  intros Hwf Henf Hac3 Hsol.
  destruct (enforce_node_consistency_ok crossword) as (d1' & Henf' & Hok1 & Hkeep1).
  assert (d1' = d1) by congruence. subst d1'.
  destruct (ac3_ok crossword Hwf d1 Hok1) as (b & d2' & Hac3' & Hok2 & Hkeep2).
  assert (d2' = d2) by congruence. subst d2'.
  assert (exists x, dict_get x d2 = Some []) as (x & Hx).
  { unfold ac3 in Hac3. apply bind_Ok in Hac3.
    destruct Hac3 as (d0 & d3 & Hm & Hloop). inv_step Hm.
    destruct (ac3_loop_false crossword _ _ _ _ Hloop) as (x & y & d4 & _ & _ & Hx).
    eauto. }
  assert (In x (variables crossword)) as Hv.
  { destruct Hok2 as [Hkeys _]. apply Hkeys. congruence. }
  destruct (proj1 Hsol x Hv) as (w & Hw & _).
  pose proof (Hkeep2 s Hsol (Hkeep1 s Hsol) x w Hv Hw) as Hin.
  rewrite (dom_get Hx) in Hin. destruct Hin.
Qed.

Lemma ac3_failure_sound_witness :
  ~ solution Example.unsolvable
      [(Example.across, "CAT"%string); (Example.down, "TIE"%string)].
Proof.
  eapply (ac3_failure_sound Example.unsolvable _ _ _ eq_refl).
  - vm_compute. reflexivity.
  - vm_compute. reflexivity.
Defined.


